(** * Loop access analysis (lib/Analysis/LoopAccessAnalysis.cpp)

    A shallow embedding of the loop memory-dependence analysis: the stride
    analyzer [isStridedPtr], the runtime-check descriptor
    [RuntimePointerCheck], the access classifier [AccessAnalysis], the
    dependence checker [MemoryDepChecker] and the driver
    [LoopAccessInfo::analyzeLoop].

    Machine integers are integers of [Z] with their wrap-around written out.
    Undefined behaviour and failed assertions of the C++ code (division by
    zero, an out-of-range vector index, a failed [cast<>]) are the [None] of
    the option monad.  The collaborators of the analysis (scalar evolution,
    alias analysis, data layout, dominator tree, the IR itself) are records
    of oracle functions that are passed around like the pointers of the C++
    code. *)

From Stdlib Require Import ZArith Lia Bool List.
From stdpp Require Import base option list gmap sets strings.

Open Scope Z_scope.

(** ** Machine integers *)

Module Int.

(** [unsigned]: 32 bits, wrapping. *)
Definition u32 (z : Z) : Z := z mod 2 ^ 32.

(** [uint64_t]. *)
Definition u64 (z : Z) : Z := z mod 2 ^ 64.

(** [int]: conversion of an out-of-range value keeps the low 32 bits. *)
Definition s32 (z : Z) : Z := (z + 2 ^ 31) mod 2 ^ 32 - 2 ^ 31.

(** [int64_t]. *)
Definition s64 (z : Z) : Z := (z + 2 ^ 63) mod 2 ^ 64 - 2 ^ 63.

(** [-1U]. *)
Definition UINT_MAX : Z := 2 ^ 32 - 1.

End Int.

Import Int.

(** ** Arbitrary-precision integers (llvm::APInt)

    A value of [BitWidth] bits, held as its unsigned reading. *)

Record APInt := mkAPInt { BitWidth : Z; UVal : Z }.

Module AP.

Definition isNegative (a : APInt) : bool := 2 ^ (BitWidth a - 1) <=? UVal a.

Definition isZero (a : APInt) : bool := UVal a =? 0.

Definition isStrictlyPositive (a : APInt) : bool :=
  negb (isNegative a) && negb (isZero a).

(** [getSExtValue]: the signed reading (of at most 64 bits). *)
Definition getSExtValue (a : APInt) : Z :=
  if isNegative a then UVal a - 2 ^ BitWidth a else UVal a.

(** [getZExtValue] asserts that the value fits 64 bits. *)
Definition getZExtValue (a : APInt) : option Z :=
  if UVal a <? 2 ^ 64 then Some (UVal a) else None.

Definition abs (a : APInt) : APInt :=
  if isNegative a
  then mkAPInt (BitWidth a) ((2 ^ BitWidth a - UVal a) mod 2 ^ BitWidth a)
  else a.

End AP.

(** ** Types, values and the IR *)

Inductive Ty :=
  | IntegerTy (bits : N)
  | FloatTy
  | DoubleTy
  | PointerTy (elt : Ty) (AddrSpace : N)
  | VectorTy (n : N) (elt : Ty)
  | ArrayTy (n : N) (elt : Ty)
  | StructTy (name : N).

#[global] Instance Ty_eq_dec : EqDecision Ty.
Proof. solve_decision. Defined.

Definition isAggregateType (t : Ty) : bool :=
  match t with
  | ArrayTy _ _ | StructTy _ => true
  | _ => false
  end.

(** SSA values, loops and basic blocks are handles: two of them are the same
    object exactly when the handles are equal (pointer identity). *)
Definition Value := positive.
Definition LoopId := positive.
Definition BasicBlock := positive.

(** What the analysis asks of a value of the IR. *)
Record IRContext := {
  (** [V->getType()] *)
  getType : Value -> Ty;
  (** [Some b] when the value is a [GetElementPtrInst] and [b] is its
      in-bounds flag. *)
  asGEP : Value -> option bool;
  (** [Some op] when the value is a [CastInst] and [op] its operand 0. *)
  asCast : Value -> option Value;
  (** [GetUnderlyingObjects(Ptr, Objects, DL)] *)
  GetUnderlyingObjects : Value -> list Value;
  (** The place of an access tag (a pointer with its write flag) in the
      order in which a set of tags yields its elements.  The pointer sets of
      llvm/ADT visit their elements in an order of their own: that of the
      insertions while the set is small, that of the hashed addresses of the
      values once it has grown.  The tag of the least rank comes first. *)
  visitRank : Value * bool -> N
}.

(** ** Symbolic expressions (ScalarEvolution) *)

#[local] Unset Elimination Schemes.

Inductive SCEV :=
  | SCEVConstant (c : APInt)
  | SCEVUnknown (v : Value)
  | SCEVAddExpr (a b : SCEV)
  | SCEVMulExpr (a b : SCEV)
  | SCEVAddRecExpr (Operands : list SCEV) (L : LoopId) (Flags : Z)
  | SCEVCouldNotCompute.

#[local] Set Elimination Schemes.

(** No-wrap flags of an add-recurrence: a bit set; [NoWrapMask] is
    [FlagNW | FlagNUW | FlagNSW]. *)
Definition FlagAnyWrap : Z := 0.
Definition NoWrapMask : Z := 7.

Definition getNoWrapFlags (Flags Mask : Z) : Z := Z.land Flags Mask.

Definition isAffine (Operands : list SCEV) : bool :=
  bool_decide (length Operands = 2%nat).

(** Modelled from the spec: [SCEVAddRecExpr::getStepRecurrence], whose source
    is not part of the analysed files.  The step of an affine recurrence
    [{base,+,step}] is its second operand; the step of a recurrence of higher
    degree is the recurrence of the remaining operands. *)
Definition getStepRecurrence (Operands : list SCEV) (L : LoopId) : SCEV :=
  if isAffine Operands
  then match Operands with
       | [_; step] => step
       | _ => SCEVCouldNotCompute
       end
  else SCEVAddRecExpr (tail Operands) L FlagAnyWrap.

(** The scalar-evolution oracle. *)
Record ScalarEvolution := {
  getSCEV : Value -> SCEV;
  (** [SCEVParameterRewriter::rewrite] with the map [{StrideVal -> 1}]. *)
  rewriteByOne : SCEV -> Value -> SCEV;
  getMinusSCEV : SCEV -> SCEV -> SCEV;
  getBackedgeTakenCount : LoopId -> SCEV;
  (** [AR->evaluateAtIteration(It, SE)] on the operands of [AR]. *)
  evaluateAtIteration : list SCEV -> LoopId -> SCEV -> SCEV;
  isLoopInvariant : SCEV -> LoopId -> bool
}.

(** The data layout: allocation sizes in bytes ([uint64_t]). *)
Record DataLayout := {
  getTypeAllocSize : Ty -> Z
}.

(** Symbolic strides: pointer to stride value. *)
Abbreviation ValueToValueMap := (gmap Value Value).

(** ** Tunables (VectorizerParams) *)

Record VectorizerParams := {
  VectorizationFactor : Z;
  VectorizationInterleave : Z;
  RuntimeMemoryCheckThreshold : Z
}.

(** Maximum SIMD width. *)
Definition MaxVectorWidth : Z := 64.

(** The command line leaves the two forced values at zero and initialises the
    threshold to 8. *)
Definition defaultParams : VectorizerParams :=
  {| VectorizationFactor := 0;
     VectorizationInterleave := 0;
     RuntimeMemoryCheckThreshold := 8 |}.

(** ** Symbolic stride rewriting *)

Definition stripIntegerCast (IR : IRContext) (V : Value) : Value :=
  match asCast IR V with
  | Some op =>
      match getType IR op with
      | IntegerTy _ => op
      | _ => V
      end
  | None => V
  end.

Definition replaceSymbolicStrideSCEV (IR : IRContext) (SE : ScalarEvolution)
    (PtrToStride : ValueToValueMap) (Ptr : Value) (OrigPtr : option Value)
    : SCEV :=
  let OrigSCEV := getSCEV SE Ptr in
  match PtrToStride !! (default Ptr OrigPtr) with
  | Some StrideVal =>
      let StrideVal := stripIntegerCast IR StrideVal in
      rewriteByOne SE OrigSCEV StrideVal
  | None => getSCEV SE Ptr
  end.

(** ** The runtime-check descriptor *)

Record RuntimePointerCheck := {
  Need : bool;
  Pointers : list Value;
  Starts : list SCEV;
  Ends : list SCEV;
  IsWritePtr : list bool;
  DependencySetId : list Z;
  AliasSetId : list Z
}.

Module RtCheck.

Definition empty_check : RuntimePointerCheck :=
  {| Need := false; Pointers := []; Starts := []; Ends := [];
     IsWritePtr := []; DependencySetId := []; AliasSetId := [] |}.

(** Modelled from the spec: [RuntimePointerCheck::reset] of the header
    LoopAccessAnalysis.h, which is not part of the analysed files: the
    descriptor is cleared and no check is needed. *)
Definition reset (R : RuntimePointerCheck) : RuntimePointerCheck :=
  empty_check.

Definition set_Need (b : bool) (R : RuntimePointerCheck)
    : RuntimePointerCheck :=
  {| Need := b; Pointers := Pointers R; Starts := Starts R; Ends := Ends R;
     IsWritePtr := IsWritePtr R; DependencySetId := DependencySetId R;
     AliasSetId := AliasSetId R |}.

(** [PtrRtCheck.Pointers.clear()] *)
Definition clear_Pointers (R : RuntimePointerCheck) : RuntimePointerCheck :=
  {| Need := Need R; Pointers := []; Starts := Starts R; Ends := Ends R;
     IsWritePtr := IsWritePtr R; DependencySetId := DependencySetId R;
     AliasSetId := AliasSetId R |}.

(** [insert] asserts that the rewritten expression is an add-recurrence. *)
Definition insert (IR : IRContext) (SE : ScalarEvolution) (Lp : LoopId)
    (Ptr : Value) (WritePtr : bool) (DepSetId ASId : Z)
    (Strides : ValueToValueMap) (R : RuntimePointerCheck)
    : option RuntimePointerCheck :=
  let Sc := replaceSymbolicStrideSCEV IR SE Strides Ptr None in
  match Sc with
  | SCEVAddRecExpr Ops L _ =>
      let Ex := getBackedgeTakenCount SE Lp in
      let ScEnd := evaluateAtIteration SE Ops L Ex in
      Start ← head Ops;
      Some {| Need := Need R;
              Pointers := Pointers R ++ [Ptr];
              Starts := Starts R ++ [Start];
              Ends := Ends R ++ [ScEnd];
              IsWritePtr := IsWritePtr R ++ [WritePtr];
              DependencySetId := DependencySetId R ++ [DepSetId];
              AliasSetId := AliasSetId R ++ [ASId] |}
  | _ => None
  end.

(** Indexing a vector out of its range is an assertion failure. *)
Definition needsChecking (R : RuntimePointerCheck) (I J : nat)
    : option bool :=
  wI ← IsWritePtr R !! I;
  wJ ← IsWritePtr R !! J;
  (* No need to check if two readonly pointers intersect. *)
  if negb wI && negb wJ then Some false else
  dI ← DependencySetId R !! I;
  dJ ← DependencySetId R !! J;
  (* Only need to check pointers between two different dependency sets. *)
  if dI =? dJ then Some false else
  aI ← AliasSetId R !! I;
  aJ ← AliasSetId R !! J;
  (* Only need to check pointers in the same alias set. *)
  if negb (aI =? aJ) then Some false else
  Some true.

(** The six vectors of a descriptor grow together. *)
Definition wf (R : RuntimePointerCheck) : Prop :=
  length (Starts R) = length (Pointers R) /\
  length (Ends R) = length (Pointers R) /\
  length (IsWritePtr R) = length (Pointers R) /\
  length (DependencySetId R) = length (Pointers R) /\
  length (AliasSetId R) = length (Pointers R).

End RtCheck.

(** ** The stride analyzer *)

(** Debug output has no effect on the analysis. *)
Definition DEBUG (msg : string) : unit := tt.

Definition isInBoundsGep (IR : IRContext) (Ptr : Value) : bool :=
  match asGEP IR Ptr with
  | Some inbounds => inbounds
  | None => false
  end.

(** Check whether a pointer can participate in a runtime bounds check. *)
Definition hasComputableBounds (IR : IRContext) (SE : ScalarEvolution)
    (Strides : ValueToValueMap) (Ptr : Value) : bool :=
  match replaceSymbolicStrideSCEV IR SE Strides Ptr None with
  | SCEVAddRecExpr Ops _ _ => isAffine Ops
  | _ => false
  end.

(** Check whether the access through [Ptr] has a constant stride.  The result
    is an [int].  [None]: the pointer operand has no pointer type (the
    [cast<PointerType>] fails) or the division is undefined. *)
Definition isStridedPtr (IR : IRContext) (SE : ScalarEvolution)
    (DL : DataLayout) (Ptr : Value) (Lp : LoopId)
    (StridesMap : ValueToValueMap) : option Z :=
  match getType IR Ptr with
  | PointerTy ElementType AddressSpace =>
      (* Make sure that the pointer does not point to aggregate types. *)
      if isAggregateType ElementType then Some 0 else
      let PtrScev := replaceSymbolicStrideSCEV IR SE StridesMap Ptr None in
      match PtrScev with
      | SCEVAddRecExpr Ops ARLoop Flags =>
          (* The access function must stride over the innermost loop: the
             body of this test is a debug message only. *)
          let _ :=
            if bool_decide (Lp <> ARLoop)
            then DEBUG "LAA: Bad stride - Not striding over innermost loop"
            else tt in
          let IsInBoundsGEP := isInBoundsGep IR Ptr in
          let IsNoWrapAddRec := negb (getNoWrapFlags Flags NoWrapMask =? 0) in
          let IsInAddressSpaceZero := (AddressSpace =? 0)%N in
          if negb IsNoWrapAddRec && negb IsInBoundsGEP
             && negb IsInAddressSpaceZero
          then Some 0 else
          (* Check the step is constant. *)
          match getStepRecurrence Ops ARLoop with
          | SCEVConstant C =>
              let Size := s64 (getTypeAllocSize DL ElementType) in
              (* Huge step value - give up. *)
              if 64 <? BitWidth C then Some 0 else
              let StepVal := AP.getSExtValue C in
              (* Strided access. *)
              if (Size =? 0) || ((StepVal =? - 2 ^ 63) && (Size =? -1))
              then None else
              let Stride := Z.quot StepVal Size in
              let Rem := Z.rem StepVal Size in
              if negb (Rem =? 0) then Some 0 else
              if negb IsNoWrapAddRec && (IsInBoundsGEP || IsInAddressSpaceZero)
                 && negb (Stride =? 1) && negb (Stride =? -1)
              then Some 0 else
              Some (s32 Stride)
          | _ => Some 0
          end
      | _ => Some 0
      end
  | _ => None
  end.

(** ** Access tags and the dependence-candidate classes *)

(** [PointerIntPair<Value *, 1, bool>]: the pointer and the write flag. *)
Definition MemAccessInfo : Type := Value * bool.

(** Modelled from the spec: the union-find [EquivalenceClasses] of
    llvm/ADT, which is not part of the analysed files.  A class is the list
    of its members, its leader first; merging two classes appends the second
    to the first. *)
Module EC.

Definition t : Type := list (list MemAccessInfo).

Definition findClass (E : t) (x : MemAccessInfo)
    : option (list MemAccessInfo) :=
  find (fun c => bool_decide (x ∈ c)) E.

Definition insert (x : MemAccessInfo) (E : t) : t :=
  match findClass E x with
  | Some _ => E
  | None => E ++ [[x]]
  end.

(** [getLeaderValue] asserts that the value is in the set. *)
Definition getLeaderValue (E : t) (x : MemAccessInfo) : option MemAccessInfo :=
  c ← findClass E x; head c.

(** The members of the class of a leader, from [member_begin] on. *)
Definition members (E : t) (leader : MemAccessInfo)
    : option (list MemAccessInfo) :=
  findClass E leader.

Definition unionSets (a b : MemAccessInfo) (E : t) : t :=
  let E := insert b (insert a E) in
  match findClass E a, findClass E b with
  | Some ca, Some cb =>
      if bool_decide (ca = cb) then E
      else (fun c => if bool_decide (c = ca) then ca ++ cb else c)
             <$> filter (fun c => c <> cb) E
  | _, _ => E
  end.

End EC.

(** Modelled from the spec: the [SmallPtrSet] of llvm/ADT that holds the
    access tags to check, whose source is not part of the analysed files.
    The spec works off the tags "currently in CheckDeps" and states no
    order.  The set is a finite set of tags; it yields them in the order of
    their ranks, which the IR at hand fixes ([visitRank]), so that every
    order in which a run may meet the tags is the order of some IR. *)
Module SmallPtrSet.

(** The one of two tags that comes first. *)
Definition earlier (IR : IRContext) (x y : MemAccessInfo) : MemAccessInfo :=
  if (visitRank IR y <? visitRank IR x)%N then y else x.

(** [*S.begin()]: the first tag of the set, none when the set is empty. *)
Definition begin (IR : IRContext) (S : gset MemAccessInfo)
    : option MemAccessInfo :=
  match elements S with
  | [] => None
  | x :: rest => Some (foldl (earlier IR) x rest)
  end.

End SmallPtrSet.

(** ** Loops with an early exit

    [iterate_until f l s] runs the body [f] on the elements of [l] in order,
    threading the state; the body answers [true] to leave the loop (the
    [return] or [break] of the C++ loop). *)
Fixpoint iterate_until {A S : Type} (f : A -> S -> option (bool * S))
    (l : list A) (s : S) : option (bool * S) :=
  match l with
  | [] => Some (false, s)
  | x :: rest =>
      match f x s with
      | Some (true, s') => Some (true, s')
      | Some (false, s') => iterate_until f rest s'
      | None => None
      end
  end.

(** ** The dependence checker *)

Module DepChecker.

Record t := {
  (** Maps access locations (ptr, read/write) to program order. *)
  Accesses : gmap MemAccessInfo (list Z);
  (** Memory access instructions in program order. *)
  InstMap : list Value;
  (** The program order index to be used for the next instruction. *)
  AccessIdx : Z;
  (** We can access this many bytes in parallel safely. *)
  MaxSafeDepDistBytes : Z;
  ShouldRetryWithRuntimeCheck : bool
}.

(** The constructor leaves [MaxSafeDepDistBytes] uninitialised: [indet] is
    whatever the word holds. *)
Definition init (indet : Z) : t :=
  {| Accesses := ∅; InstMap := []; AccessIdx := 0;
     MaxSafeDepDistBytes := indet; ShouldRetryWithRuntimeCheck := false |}.

Definition set_MaxSafeDepDistBytes (m : Z) (D : t) : t :=
  {| Accesses := Accesses D; InstMap := InstMap D; AccessIdx := AccessIdx D;
     MaxSafeDepDistBytes := m;
     ShouldRetryWithRuntimeCheck := ShouldRetryWithRuntimeCheck D |}.

Definition set_ShouldRetryWithRuntimeCheck (b : bool) (D : t) : t :=
  {| Accesses := Accesses D; InstMap := InstMap D; AccessIdx := AccessIdx D;
     MaxSafeDepDistBytes := MaxSafeDepDistBytes D;
     ShouldRetryWithRuntimeCheck := b |}.

(** Register the location of an access: [Inst] is the load or store, [Ptr]
    its pointer operand, [IsWrite] tells a store. *)
Definition addAccess (Inst Ptr : Value) (IsWrite : bool) (D : t) : t :=
  {| Accesses :=
       <[(Ptr, IsWrite) := default [] (Accesses D !! (Ptr, IsWrite))
                            ++ [AccessIdx D]]> (Accesses D);
     InstMap := InstMap D ++ [Inst];
     AccessIdx := u32 (AccessIdx D + 1);
     MaxSafeDepDistBytes := MaxSafeDepDistBytes D;
     ShouldRetryWithRuntimeCheck := ShouldRetryWithRuntimeCheck D |}.

(** The loop of [couldPreventStoreLoadForward]:
    [for (vf = 2*TypeByteSize; vf <= MaxVF; vf *= 2)].  The result is the
    value of [MaxVFWithoutSLForwardIssues] after the loop.  [vf] doubles in
    32 bits, so after 32 rounds it is zero and [Distance % vf] is undefined:
    [scan_fuel] rounds are all the loop can make. *)
Fixpoint forward_scan (fuel : nat) (Distance NumCycles vf MaxVF : Z)
    : option Z :=
  match fuel with
  | O => None
  | S fuel' =>
      if vf <=? MaxVF then
        if vf =? 0 then None else
        if negb (Distance mod vf =? 0) && (Distance / vf <? NumCycles)
        then Some (Z.shiftr vf 1)
        else forward_scan fuel' Distance NumCycles (u32 (vf * 2)) MaxVF
      else Some MaxVF
  end.

Definition scan_fuel : nat := 33.

(** Check whether the data dependence could prevent store-load forwarding. *)
Definition couldPreventStoreLoadForward (Distance TypeByteSize : Z) (D : t)
    : option (bool * t) :=
  (* Store-load forwarding distance. *)
  let NumCyclesForStoreLoadThroughMemory := u32 (8 * TypeByteSize) in
  (* Maximum vector factor. *)
  let MaxVFWithoutSLForwardIssues := u32 (MaxVectorWidth * TypeByteSize) in
  let MaxVFWithoutSLForwardIssues :=
    if MaxSafeDepDistBytes D <? MaxVFWithoutSLForwardIssues
    then MaxSafeDepDistBytes D else MaxVFWithoutSLForwardIssues in
  MaxVFWithoutSLForwardIssues ←
    forward_scan scan_fuel Distance NumCyclesForStoreLoadThroughMemory
      (u32 (2 * TypeByteSize)) MaxVFWithoutSLForwardIssues;
  if MaxVFWithoutSLForwardIssues <? u32 (2 * TypeByteSize)
  then Some (true, D) else
  if (MaxVFWithoutSLForwardIssues <? MaxSafeDepDistBytes D)
     && negb (MaxVFWithoutSLForwardIssues
              =? u32 (MaxVectorWidth * TypeByteSize))
  then Some (false, set_MaxSafeDepDistBytes MaxVFWithoutSLForwardIssues D)
  else Some (false, D).

(** [Ty->getPointerAddressSpace()] and [Ty->getPointerElementType()] assert a
    pointer type. *)
Definition getPointerAddressSpace (T : Ty) : option N :=
  match T with
  | PointerTy _ AddressSpace => Some AddressSpace
  | _ => None
  end.

Definition getPointerElementType (T : Ty) : option Ty :=
  match T with
  | PointerTy ElementType _ => Some ElementType
  | _ => None
  end.

Section Checker.

Context (IR : IRContext) (SE : ScalarEvolution) (DL : DataLayout)
        (Params : VectorizerParams) (InnermostLoop : LoopId).

(** Check whether there is a plausible dependence between the two accesses.
    Access [A] must happen before [B] in program order.  The answer [true]
    signals a possible dependence (unsafe), [false] none (safe). *)
Definition isDependent (A : MemAccessInfo) (AIdx : Z) (B : MemAccessInfo)
    (BIdx : Z) (Strides : ValueToValueMap) (D : t) : option (bool * t) :=
  if negb (AIdx <? BIdx) then None else
  let APtr := A.1 in
  let BPtr := B.1 in
  let AIsWrite := A.2 in
  let BIsWrite := B.2 in
  (* Two reads are independent. *)
  if negb AIsWrite && negb BIsWrite then Some (false, D) else
  (* We cannot check pointers in different address spaces. *)
  ASA ← getPointerAddressSpace (getType IR APtr);
  ASB ← getPointerAddressSpace (getType IR BPtr);
  if negb (ASA =? ASB)%N then Some (true, D) else
  let AScev := replaceSymbolicStrideSCEV IR SE Strides APtr None in
  let BScev := replaceSymbolicStrideSCEV IR SE Strides BPtr None in
  StrideAPtr ← isStridedPtr IR SE DL APtr InnermostLoop Strides;
  StrideBPtr ← isStridedPtr IR SE DL BPtr InnermostLoop Strides;
  let Src := AScev in
  let Sink := BScev in
  (* If the induction step is negative we have to invert source and sink of
     the dependence. *)
  let '(APtr, BPtr, Src, Sink, AIsWrite, BIsWrite, StrideAPtr, StrideBPtr) :=
    if StrideAPtr <? 0
    then (BPtr, APtr, Sink, Src, BIsWrite, AIsWrite, StrideBPtr, StrideAPtr)
    else (APtr, BPtr, Src, Sink, AIsWrite, BIsWrite, StrideAPtr, StrideBPtr) in
  let Dist := getMinusSCEV SE Sink Src in
  (* Need consecutive accesses. *)
  if (StrideAPtr =? 0) || (StrideBPtr =? 0)
     || negb (StrideAPtr =? StrideBPtr)
  then Some (true, D) else
  match Dist with
  | SCEVConstant Val =>
      ATy ← getPointerElementType (getType IR APtr);
      BTy ← getPointerElementType (getType IR BPtr);
      let TypeByteSize := u32 (getTypeAllocSize DL ATy) in
      (* Negative distances are not plausible dependencies. *)
      if AP.isNegative Val then
        let IsTrueDataDependence := AIsWrite && negb BIsWrite in
        if IsTrueDataDependence then
          AbsVal ← AP.getZExtValue (AP.abs Val);
          match couldPreventStoreLoadForward (u32 AbsVal) TypeByteSize D with
          | Some (Prevented, D') =>
              if Prevented || bool_decide (ATy <> BTy)
              then Some (true, D') else Some (false, D')
          | None => None
          end
        else Some (false, D)
      else
      (* Write to the same location with the same size. *)
      if AP.isZero Val then
        if bool_decide (ATy = BTy) then Some (false, D) else Some (true, D)
      else
      (* Positive distance bigger than max vectorization factor. *)
      if bool_decide (ATy <> BTy) then Some (false, D) else
      ZVal ← AP.getZExtValue Val;
      let Distance := u32 ZVal in
      (* Bail out early if passed-in parameters make vectorization not
         feasible. *)
      let ForcedFactor :=
        if VectorizationFactor Params =? 0 then 1
        else VectorizationFactor Params in
      let ForcedUnroll :=
        if VectorizationInterleave Params =? 0 then 1
        else VectorizationInterleave Params in
      (* The distance must be bigger than the size needed for a vectorized
         version of the operation and the size of the vectorized operation
         must not be bigger than the current maximum size. *)
      if (Distance <? u32 (2 * TypeByteSize))
         || (MaxSafeDepDistBytes D <? u32 (2 * TypeByteSize))
         || (Distance <? u32 (TypeByteSize * ForcedUnroll * ForcedFactor))
      then Some (true, D) else
      let D :=
        set_MaxSafeDepDistBytes
          (if Distance <? MaxSafeDepDistBytes D
           then Distance else MaxSafeDepDistBytes D) D in
      let IsTrueDataDependence := negb AIsWrite && BIsWrite in
      if IsTrueDataDependence then
        match couldPreventStoreLoadForward Distance TypeByteSize D with
        | Some (true, D') => Some (true, D')
        | Some (false, D') => Some (false, D')
        | None => None
        end
      else Some (false, D)
  | _ =>
      (* Dependence because of non-constant distance. *)
      Some (true, set_ShouldRetryWithRuntimeCheck true D)
  end.

(** The state of [areDepsSafe]: the set [CheckDeps] it works off (a
    reference to the set of the access analysis) and the checker. *)
Definition DepState : Type := gset MemAccessInfo * t.

(** The two tests of the innermost loop body on the indices [I1] and [I2]. *)
Definition checkIndexPair (Strides : ValueToValueMap)
    (AI OI : MemAccessInfo) (I1 I2 : Z) (D : t) : option (bool * t) :=
  match (if I1 <? I2 then isDependent AI I1 OI I2 Strides D
         else Some (false, D)) with
  | Some (true, D) => Some (true, D)
  | Some (false, D) =>
      if I2 <? I1 then isDependent OI I2 AI I1 Strides D else Some (false, D)
  | None => None
  end.

(** Check every accessing instruction pair in program order. *)
Definition checkAccessPair (Strides : ValueToValueMap)
    (AI OI : MemAccessInfo) (D : t) : option (bool * t) :=
  iterate_until
    (fun I1 D =>
       iterate_until (fun I2 D => checkIndexPair Strides AI OI I1 I2 D)
         (default [] (Accesses D !! OI)) D)
    (default [] (Accesses D !! AI)) D.

(** Check every access pair of a class: [AI] runs over the members, [OI]
    over the members after [AI]. *)
Fixpoint checkMembers (Strides : ValueToValueMap)
    (members : list MemAccessInfo) (st : DepState) : option (bool * DepState) :=
  match members with
  | [] => Some (false, st)
  | AI :: rest =>
      let CheckDeps := st.1 ∖ {[AI]} in
      match iterate_until (fun OI D => checkAccessPair Strides AI OI D)
                          rest st.2 with
      | Some (true, D) => Some (true, (CheckDeps, D))
      | Some (false, D) => checkMembers Strides rest (CheckDeps, D)
      | None => None
      end
  end.

(** [while (!CheckDeps.empty())]: every round takes the access
    [*CheckDeps.begin()] and erases it from [CheckDeps] with its class, so
    [size CheckDeps] rounds are all the loop can make. *)
Fixpoint checkAll (fuel : nat) (AccessSets : EC.t)
    (Strides : ValueToValueMap) (st : DepState) : option (bool * DepState) :=
  match SmallPtrSet.begin IR st.1 with
  | None => Some (false, st)
  | Some CurAccess =>
      match fuel with
      | O => None
      | S fuel' =>
          (* Get the relevant memory access set. *)
          Leader ← EC.getLeaderValue AccessSets CurAccess;
          members ← EC.members AccessSets Leader;
          match checkMembers Strides members st with
          | Some (true, st') => Some (true, st')
          | Some (false, st') => checkAll fuel' AccessSets Strides st'
          | None => None
          end
      end
  end.

(** Check whether the dependencies between the accesses are safe.  The
    answer is [true] for safe. *)
Definition areDepsSafe (AccessSets : EC.t) (CheckDeps : gset MemAccessInfo)
    (Strides : ValueToValueMap) (D : t) : option (bool * DepState) :=
  let D := set_MaxSafeDepDistBytes UINT_MAX D in
  '(Unsafe, st) ← checkAll (size CheckDeps) AccessSets Strides (CheckDeps, D);
  Some (negb Unsafe, st).

End Checker.

End DepChecker.

(** ** Loops without an early exit *)
Fixpoint for_each {A S : Type} (f : A -> S -> option S) (l : list A) (s : S)
    : option S :=
  match l with
  | [] => Some s
  | x :: rest =>
      match f x s with
      | Some s' => for_each f rest s'
      | None => None
      end
  end.

(** ** The alias oracle *)

(** A memory location: the pointer and its TBAA tag ([None] for [nullptr]). *)
Record Location := {
  LocPtr : Value;
  TBAA : option N
}.

Record AliasAnalysis := {
  (** The TBAA tag of the metadata of a load or store instruction. *)
  getTBAA : Value -> option N;
  (** The alias sets of an [AliasSetTracker] to which the given locations
      were added, in the order of the tracker; every set lists its pointers
      once. *)
  aliasSets : list Location -> list (list Value)
}.

(** ** The access classifier *)

Module AccessAnalysis.

Record t := {
  (** Set of all accesses (a [SetVector]: insertion order, no duplicates). *)
  Accesses : list MemAccessInfo;
  (** Set of accesses that need a further dependence check. *)
  CheckDeps : gset MemAccessInfo;
  (** Set of pointers that are read only. *)
  ReadOnlyPtr : gset Value;
  (** The locations added to the alias set tracker. *)
  AST : list Location;
  (** Sets of potentially dependent accesses. *)
  DepCands : EC.t;
  IsRTCheckNeeded : bool
}.

Definition init (DA : EC.t) : t :=
  {| Accesses := []; CheckDeps := ∅; ReadOnlyPtr := ∅; AST := [];
     DepCands := DA; IsRTCheckNeeded := false |}.

(** [SetVector::insert] *)
Definition setvector_insert (x : MemAccessInfo) (l : list MemAccessInfo)
    : list MemAccessInfo :=
  if bool_decide (x ∈ l) then l else l ++ [x].

(** Register a load and whether it is only read from. *)
Definition addLoad (Loc : Location) (IsReadOnly : bool) (A : t) : t :=
  let Ptr := LocPtr Loc in
  {| Accesses := setvector_insert (Ptr, false) (Accesses A);
     CheckDeps := CheckDeps A;
     ReadOnlyPtr := if IsReadOnly then {[Ptr]} ∪ ReadOnlyPtr A
                    else ReadOnlyPtr A;
     AST := AST A ++ [Loc];
     DepCands := DepCands A;
     IsRTCheckNeeded := IsRTCheckNeeded A |}.

(** Register a store. *)
Definition addStore (Loc : Location) (A : t) : t :=
  let Ptr := LocPtr Loc in
  {| Accesses := setvector_insert (Ptr, true) (Accesses A);
     CheckDeps := CheckDeps A;
     ReadOnlyPtr := ReadOnlyPtr A;
     AST := AST A ++ [Loc];
     DepCands := DepCands A;
     IsRTCheckNeeded := IsRTCheckNeeded A |}.

Definition isRTCheckNeeded (A : t) : bool := IsRTCheckNeeded A.

Definition isDependencyCheckNeeded (A : t) : bool :=
  negb (bool_decide (CheckDeps A = ∅)).

Definition set_CheckDeps (C : gset MemAccessInfo) (A : t) : t :=
  {| Accesses := Accesses A; CheckDeps := C; ReadOnlyPtr := ReadOnlyPtr A;
     AST := AST A; DepCands := DepCands A;
     IsRTCheckNeeded := IsRTCheckNeeded A |}.

Definition resetDepChecks (A : t) : t := set_CheckDeps ∅ A.

(** *** The runtime-check builder *)

(** The variables of one round of the loop over the alias sets. *)
Record SetState := {
  NumReadPtrChecks : Z;
  NumWritePtrChecks : Z;
  RunningDepId : Z;
  DepSetId : gmap Value Z;
  CanDoRT : bool;
  sRtCheck : RuntimePointerCheck
}.

Section Builder.

Context (IR : IRContext) (SE : ScalarEvolution) (DL : DataLayout)
        (AA : AliasAnalysis).

(** The body of the loop over the pointers of one alias set. *)
Definition checkPointer (A : t) (TheLoop : LoopId)
    (StridesMap : ValueToValueMap) (ShouldCheckStride IsDepCheckNeeded : bool)
    (ASId : Z) (Ptr : Value) (s : SetState) : option SetState :=
  let IsWrite := bool_decide ((Ptr, true) ∈ Accesses A) in
  let Access : MemAccessInfo := (Ptr, IsWrite) in
  let NumWrite :=
    if IsWrite then u32 (NumWritePtrChecks s + 1) else NumWritePtrChecks s in
  let NumRead :=
    if IsWrite then NumReadPtrChecks s else u32 (NumReadPtrChecks s + 1) in
  Strided ←
    (if hasComputableBounds IR SE StridesMap Ptr && ShouldCheckStride
     then Stride ← isStridedPtr IR SE DL Ptr TheLoop StridesMap;
          Some (Stride =? 1)
     else Some true);
  if hasComputableBounds IR SE StridesMap Ptr && Strided then
    (* The id of the dependence set. *)
    '(DepId, Running, Ids) ←
      (if IsDepCheckNeeded then
         Leader ← EC.getLeaderValue (DepCands A) Access;
         let LeaderId := default 0 (DepSetId s !! Leader.1) in
         if LeaderId =? 0
         then Some (RunningDepId s, u32 (RunningDepId s + 1),
                    <[Leader.1 := RunningDepId s]> (DepSetId s))
         else Some (LeaderId, RunningDepId s, DepSetId s)
       else
         (* Each access has its own dependence set. *)
         Some (RunningDepId s, u32 (RunningDepId s + 1), DepSetId s));
    R ← RtCheck.insert IR SE TheLoop Ptr IsWrite DepId ASId StridesMap
          (sRtCheck s);
    Some {| NumReadPtrChecks := NumRead; NumWritePtrChecks := NumWrite;
            RunningDepId := Running; DepSetId := Ids;
            CanDoRT := CanDoRT s; sRtCheck := R |}
  else
    Some {| NumReadPtrChecks := NumRead; NumWritePtrChecks := NumWrite;
            RunningDepId := RunningDepId s; DepSetId := DepSetId s;
            CanDoRT := false; sRtCheck := sRtCheck s |}.

(** The number of comparisons one alias set adds, from the variables the
    loop over its pointers leaves. *)
Definition setComparisons (IsDepCheckNeeded : bool) (s : SetState) : Z :=
  if IsDepCheckNeeded && CanDoRT s && (RunningDepId s =? 2)
  then 0 (* Only one dependence set. *)
  else u32 (NumWritePtrChecks s
            * u32 (u32 (NumReadPtrChecks s + NumWritePtrChecks s) - 1)).

(** The state of the loop over the alias sets. *)
Record BuildState := {
  bCanDoRT : bool;
  bRtCheck : RuntimePointerCheck;
  bNumComparisons : Z;
  bASId : Z
}.

(** The body of the loop over the alias sets. *)
Definition checkAliasSet (A : t) (TheLoop : LoopId)
    (StridesMap : ValueToValueMap) (ShouldCheckStride IsDepCheckNeeded : bool)
    (AS : list Value) (b : BuildState) : option BuildState :=
  let s0 := {| NumReadPtrChecks := 0; NumWritePtrChecks := 0;
               RunningDepId := 1; DepSetId := ∅;
               CanDoRT := bCanDoRT b; sRtCheck := bRtCheck b |} in
  s ← for_each (checkPointer A TheLoop StridesMap ShouldCheckStride
                  IsDepCheckNeeded (bASId b)) AS s0;
  Some {| bCanDoRT := CanDoRT s;
          bRtCheck := sRtCheck s;
          bNumComparisons :=
            u32 (bNumComparisons b + setComparisons IsDepCheckNeeded s);
          bASId := u32 (bASId b + 1) |}.

(** The final loop of the builder: does a pair that would be compared have
    its pointers in different address spaces? *)
Definition comparesAddressSpaces (R : RuntimePointerCheck) : option bool :=
  let NumPointers := length (Pointers R) in
  r ← iterate_until
    (fun i (_ : unit) =>
       iterate_until
         (fun j (_ : unit) =>
            dI ← DependencySetId R !! i;
            dJ ← DependencySetId R !! j;
            if dI =? dJ then Some (false, tt) else
            aI ← AliasSetId R !! i;
            aJ ← AliasSetId R !! j;
            if negb (aI =? aJ) then Some (false, tt) else
            PtrI ← Pointers R !! i;
            PtrJ ← Pointers R !! j;
            ASi ← DepChecker.getPointerAddressSpace (getType IR PtrI);
            ASj ← DepChecker.getPointerAddressSpace (getType IR PtrJ);
            Some (negb (ASi =? ASj)%N, tt))
         (seq (S i) (NumPointers - S i)) tt)
    (seq 0 NumPointers) tt;
  Some r.1.

(** Check whether we can check the pointers at runtime for
    non-intersection.  The answer carries the descriptor and
    [NumComparisons], which the C++ code passes by reference. *)
Definition canCheckPtrAtRT (A : t) (RtCheck : RuntimePointerCheck)
    (TheLoop : LoopId) (StridesMap : ValueToValueMap)
    (ShouldCheckStride : bool) : option (bool * RuntimePointerCheck * Z) :=
  let IsDepCheckNeeded := isDependencyCheckNeeded A in
  b ← for_each (checkAliasSet A TheLoop StridesMap ShouldCheckStride
                  IsDepCheckNeeded)
        (aliasSets AA (AST A))
        {| bCanDoRT := true; bRtCheck := RtCheck; bNumComparisons := 0;
           bASId := 1 |};
  match comparesAddressSpaces (bRtCheck b) with
  | Some true => Some (false, bRtCheck b, bNumComparisons b)
  | Some false => Some (bCanDoRT b, bRtCheck b, bNumComparisons b)
  | None => None
  end.

(** *** Building the dependence sets *)

(** The variables of one round of the loop over the alias sets. *)
Record ProcState := {
  pDepCands : EC.t;
  pCheckDeps : gset MemAccessInfo;
  pIsRTCheckNeeded : bool;
  SetHasWrite : bool;
  ObjToLastAccess : gmap Value MemAccessInfo;
  DeferredAccesses : list MemAccessInfo
}.

(** Create sets of pointers connected by a shared alias set and underlying
    object. *)
Definition linkUnderlyingObject (Access : MemAccessInfo)
    (UnderlyingObj : Value) (p : ProcState) : option ProcState :=
  let Cands :=
    match ObjToLastAccess p !! UnderlyingObj with
    | Some Prev => EC.unionSets Access Prev (pDepCands p)
    | None => pDepCands p
    end in
  Some {| pDepCands := Cands; pCheckDeps := pCheckDeps p;
          pIsRTCheckNeeded := pIsRTCheckNeeded p;
          SetHasWrite := SetHasWrite p;
          ObjToLastAccess := <[UnderlyingObj := Access]> (ObjToLastAccess p);
          DeferredAccesses := DeferredAccesses p |}.

(** The body of the loop [for (auto AC : S)] on the pointer [Ptr] of the
    alias set. *)
Definition processAccess (A : t) (UseDeferred : bool)
    (S : list MemAccessInfo) (Ptr : Value) (AC : MemAccessInfo)
    (p : ProcState) : option ProcState :=
  if bool_decide (AC.1 <> Ptr) then Some p else
  let IsWrite := AC.2 in
  (* If we're using the deferred access set, then it contains only reads. *)
  let IsReadOnlyPtr := bool_decide (Ptr ∈ ReadOnlyPtr A) && negb IsWrite in
  if UseDeferred && negb IsReadOnlyPtr then Some p else
  (* Otherwise, the pointer must be in the PtrAccessSet, either as a read or
     a write. *)
  if negb ((IsReadOnlyPtr && UseDeferred) || IsWrite
           || bool_decide ((Ptr, false) ∈ S))
  then None else
  let Access : MemAccessInfo := (Ptr, IsWrite) in
  let Cands := EC.insert Access (pDepCands p) in
  (* Memorize read-only pointers for later processing and skip them in the
     first round. *)
  if negb UseDeferred && IsReadOnlyPtr then
    Some {| pDepCands := Cands; pCheckDeps := pCheckDeps p;
            pIsRTCheckNeeded := pIsRTCheckNeeded p;
            SetHasWrite := SetHasWrite p;
            ObjToLastAccess := ObjToLastAccess p;
            DeferredAccesses :=
              setvector_insert Access (DeferredAccesses p) |}
  else
  let Check := (IsWrite || IsReadOnlyPtr) && SetHasWrite p in
  let p' :=
    {| pDepCands := Cands;
       pCheckDeps := if Check then {[Access]} ∪ pCheckDeps p
                     else pCheckDeps p;
       pIsRTCheckNeeded := if Check then true else pIsRTCheckNeeded p;
       SetHasWrite := if IsWrite then true else SetHasWrite p;
       ObjToLastAccess := ObjToLastAccess p;
       DeferredAccesses := DeferredAccesses p |} in
  for_each (linkUnderlyingObject Access) (GetUnderlyingObjects IR Ptr) p'.

(** One of the two iterations over an alias set. *)
Definition processSetIteration (A : t) (AS : list Value)
    (UseDeferred : bool) (p : ProcState) : option ProcState :=
  let S := if UseDeferred then DeferredAccesses p else Accesses A in
  for_each (fun Ptr p => for_each (processAccess A UseDeferred S Ptr) S p)
           AS p.

(** The body of the loop over the alias sets. *)
Definition processAliasSet (A : t) (AS : list Value) (p : ProcState)
    : option ProcState :=
  let p0 := {| pDepCands := pDepCands p; pCheckDeps := pCheckDeps p;
               pIsRTCheckNeeded := pIsRTCheckNeeded p;
               SetHasWrite := false; ObjToLastAccess := ∅;
               DeferredAccesses := [] |} in
  p1 ← processSetIteration A AS false p0;
  processSetIteration A AS true p1.

(** Go over all memory accesses, check whether runtime pointer checks are
    needed and build sets of dependency check candidates. *)
Definition processMemAccesses (A : t) : option t :=
  p ← for_each (processAliasSet A) (aliasSets AA (AST A))
        {| pDepCands := DepCands A; pCheckDeps := CheckDeps A;
           pIsRTCheckNeeded := IsRTCheckNeeded A;
           SetHasWrite := false; ObjToLastAccess := ∅;
           DeferredAccesses := [] |};
  Some {| Accesses := Accesses A; CheckDeps := pCheckDeps p;
          ReadOnlyPtr := ReadOnlyPtr A; AST := AST A;
          DepCands := pDepCands p;
          IsRTCheckNeeded := pIsRTCheckNeeded p |}.

Definition buildDependenceSets (A : t) : option t := processMemAccesses A.

End Builder.

End AccessAnalysis.

(** ** Instructions, loops and the dominator tree *)

Inductive InstKind :=
  | LoadInst (PointerOperand : Value) (isSimple : bool)
  | StoreInst (PointerOperand : Value) (isSimple : bool)
  (** [IntrinsicID] is the answer of [getIntrinsicIDForCall], zero for a
      call that is no recognised intrinsic. *)
  | CallInst (IntrinsicID : N)
  | OtherInst.

Record Instruction := {
  InstValue : Value;
  Kind : InstKind;
  mayReadFromMemory : bool;
  mayWriteToMemory : bool;
  getParent : BasicBlock
}.

Record Loop := {
  getLoopId : LoopId;
  (** [TheLoop->empty()]: the loop has no sub-loops. *)
  empty : bool;
  getNumBackEdges : Z;
  getExitingBlock : option BasicBlock;
  getLoopLatch : option BasicBlock;
  isAnnotatedParallel : bool;
  (** The instructions of the blocks of the loop, block by block. *)
  getBlocks : list (list Instruction)
}.

Record DominatorTree := {
  (** [DT->dominates(BB, Latch)], the latch as the loop gives it. *)
  dominates : BasicBlock -> option BasicBlock -> bool
}.

(** The diagnostics of the analysis. *)
Inductive LoopAccessReport :=
  | Message (text : string)
  (** [NumComparisons << " exceeds limit of " << RuntimeMemoryCheckThreshold
      << " dependent memory operations checked at runtime"] *)
  | ExceedsLimit (NumComparisons Threshold : Z).

(** ** Emitted code

    The values the runtime-check emission builds.  [Expanded S T] is the
    answer of the expression expander for the expression [S] at type [T]. *)
Inductive NewValue :=
  | Existing (V : Value)
  | Expanded (S : SCEV) (T : Ty)
  | BitCast (V : NewValue) (T : Ty)
  | ICmpULE (A B : NewValue)
  | And (A B : NewValue)
  | Or (A B : NewValue)
  | ConstTrue.

Record Emitter := {
  (** The instructions [SCEVExpander::expandCodeFor] inserts for an
      expression at a type. *)
  expandCodeFor : SCEV -> Ty -> list NewValue;
  (** Does the [IRBuilder] insert an instruction for the operation?  It does
      not when the operation folds. *)
  builderInserts : NewValue -> bool
}.

(** ** The driver *)

Module LoopAccessInfo.

Record t := {
  PtrRtCheck : RuntimePointerCheck;
  NumLoads : Z;
  NumStores : Z;
  MaxSafeDepDistBytes : Z;
  (** Cache the result of analyzeLoop. *)
  CanVecMem : bool;
  (** The diagnostics report generated for the analysis. *)
  Report : option LoopAccessReport
}.

(** The state the constructor sets up before the analysis. *)
Definition init : t :=
  {| PtrRtCheck := RtCheck.empty_check; NumLoads := 0; NumStores := 0;
     MaxSafeDepDistBytes := UINT_MAX; CanVecMem := false; Report := None |}.

Definition set_CanVecMem (b : bool) (LAI : t) : t :=
  {| PtrRtCheck := PtrRtCheck LAI; NumLoads := NumLoads LAI;
     NumStores := NumStores LAI; MaxSafeDepDistBytes := MaxSafeDepDistBytes LAI;
     CanVecMem := b; Report := Report LAI |}.

Definition set_PtrRtCheck (R : RuntimePointerCheck) (LAI : t) : t :=
  {| PtrRtCheck := R; NumLoads := NumLoads LAI;
     NumStores := NumStores LAI; MaxSafeDepDistBytes := MaxSafeDepDistBytes LAI;
     CanVecMem := CanVecMem LAI; Report := Report LAI |}.

Definition set_MaxSafeDepDistBytes (m : Z) (LAI : t) : t :=
  {| PtrRtCheck := PtrRtCheck LAI; NumLoads := NumLoads LAI;
     NumStores := NumStores LAI; MaxSafeDepDistBytes := m;
     CanVecMem := CanVecMem LAI; Report := Report LAI |}.

Definition incr_NumLoads (LAI : t) : t :=
  {| PtrRtCheck := PtrRtCheck LAI; NumLoads := u32 (NumLoads LAI + 1);
     NumStores := NumStores LAI; MaxSafeDepDistBytes := MaxSafeDepDistBytes LAI;
     CanVecMem := CanVecMem LAI; Report := Report LAI |}.

Definition incr_NumStores (LAI : t) : t :=
  {| PtrRtCheck := PtrRtCheck LAI; NumLoads := NumLoads LAI;
     NumStores := u32 (NumStores LAI + 1);
     MaxSafeDepDistBytes := MaxSafeDepDistBytes LAI;
     CanVecMem := CanVecMem LAI; Report := Report LAI |}.

(** [emitAnalysis] asserts that no report was generated before. *)
Definition emitAnalysis (M : LoopAccessReport) (LAI : t) : option t :=
  match Report LAI with
  | Some _ => None
  | None =>
      Some {| PtrRtCheck := PtrRtCheck LAI; NumLoads := NumLoads LAI;
              NumStores := NumStores LAI;
              MaxSafeDepDistBytes := MaxSafeDepDistBytes LAI;
              CanVecMem := CanVecMem LAI; Report := Some M |}
  end.

Section Driver.

Context (IR : IRContext) (SE : ScalarEvolution) (DL : DataLayout)
        (AA : AliasAnalysis) (DT : DominatorTree) (Params : VectorizerParams)
        (TheLoop : Loop).

Definition canAnalyzeLoop (LAI : t) : option (bool * t) :=
  (* We can only analyze innermost loops. *)
  if negb (empty TheLoop) then
    LAI ← emitAnalysis (Message "loop is not the innermost loop") LAI;
    Some (false, LAI)
  else
  (* We must have a single backedge. *)
  if negb (getNumBackEdges TheLoop =? 1) then
    LAI ← emitAnalysis
          (Message "loop control flow is not understood by analyzer") LAI;
    Some (false, LAI)
  else
  (* We must have a single exiting block. *)
  if bool_decide (getExitingBlock TheLoop = None) then
    LAI ← emitAnalysis
          (Message "loop control flow is not understood by analyzer") LAI;
    Some (false, LAI)
  else
  (* We only handle bottom-tested loops. *)
  if bool_decide (getExitingBlock TheLoop <> getLoopLatch TheLoop) then
    LAI ← emitAnalysis
          (Message "loop control flow is not understood by analyzer") LAI;
    Some (false, LAI)
  else
  (* ScalarEvolution needs to be able to find the exit count. *)
  match getBackedgeTakenCount SE (getLoopId TheLoop) with
  | SCEVCouldNotCompute =>
      LAI ← emitAnalysis
            (Message "could not determine number of loop iterations") LAI;
      Some (false, LAI)
  | _ => Some (true, LAI)
  end.

Definition blockNeedsPredication (BB : BasicBlock) : bool :=
  (* Blocks that do not dominate the latch need predication. *)
  negb (dominates DT BB (getLoopLatch TheLoop)).

Definition isUniform (V : Value) : bool :=
  isLoopInvariant SE (getSCEV SE V) (getLoopId TheLoop).

(** [AA->getLocation(LAI)], the TBAA tag dropped in a block that needs
    predication. *)
Definition getLocation (Inst : Instruction) (Ptr : Value) : Location :=
  {| LocPtr := Ptr;
     TBAA := if blockNeedsPredication (getParent Inst) then None
             else getTBAA AA (InstValue Inst) |}.

(** *** Collecting the loads and the stores *)

Record ScanState := {
  Loads : list Instruction;
  Stores : list Instruction;
  scanChecker : DepChecker.t;
  scanInfo : t
}.

(** Leave the analysis with a report: [CanVecMem = false; return]. *)
Definition reject {S : Type} (M : LoopAccessReport) (LAI : t)
    (k : t -> S) : option (bool * S) :=
  LAI ← emitAnalysis M LAI;
  Some (true, k (set_CanVecMem false LAI)).

Definition with_scanInfo (s : ScanState) (LAI : t) : ScanState :=
  {| Loads := Loads s; Stores := Stores s; scanChecker := scanChecker s;
     scanInfo := LAI |}.

(** The body of the loop over the instructions; [true] leaves the
    analysis. *)
Definition scanInstruction (IsAnnotatedParallel : bool) (it : Instruction)
    (s : ScanState) : option (bool * ScanState) :=
  (* If this is a load, save it. If this instruction can read from memory
     but is not a load, then we quit. *)
  if mayReadFromMemory it then
    match Kind it with
    | CallInst ID =>
        if negb (ID =? 0)%N then Some (false, s)
        else reject (Message "read with atomic ordering or volatile read")
               (scanInfo s) (with_scanInfo s)
    | LoadInst Ptr isSimple =>
        if negb isSimple && negb IsAnnotatedParallel
        then reject (Message "read with atomic ordering or volatile read")
               (scanInfo s) (with_scanInfo s)
        else
          Some (false,
                {| Loads := Loads s ++ [it]; Stores := Stores s;
                   scanChecker :=
                     DepChecker.addAccess (InstValue it) Ptr false
                       (scanChecker s);
                   scanInfo := incr_NumLoads (scanInfo s) |})
    | _ => reject (Message "read with atomic ordering or volatile read")
             (scanInfo s) (with_scanInfo s)
    end
  else
  (* Save 'store' instructions. Abort if other instructions write to
     memory. *)
  if mayWriteToMemory it then
    match Kind it with
    | StoreInst Ptr isSimple =>
        if negb isSimple && negb IsAnnotatedParallel
        then reject (Message "write with atomic ordering or volatile write")
               (scanInfo s) (with_scanInfo s)
        else
          Some (false,
                {| Loads := Loads s; Stores := Stores s ++ [it];
                   scanChecker :=
                     DepChecker.addAccess (InstValue it) Ptr true
                       (scanChecker s);
                   scanInfo := incr_NumStores (scanInfo s) |})
    | _ => reject (Message "instruction cannot be vectorized")
             (scanInfo s) (with_scanInfo s)
    end
  else Some (false, s).

(** *** Registering the stores *)

Record PtrState := {
  Seen : gset Value;
  NumReads : Z;
  NumReadWrites : Z;
  Accesses : AccessAnalysis.t;
  ptrInfo : t
}.

Definition with_ptrInfo (s : PtrState) (LAI : t) : PtrState :=
  {| Seen := Seen s; NumReads := NumReads s;
     NumReadWrites := NumReadWrites s; Accesses := Accesses s;
     ptrInfo := LAI |}.

(** [cast<StoreInst>] and [cast<LoadInst>] on the collected instructions. *)
Definition storePointer (ST : Instruction) : option Value :=
  match Kind ST with
  | StoreInst Ptr _ => Some Ptr
  | _ => None
  end.

Definition loadPointer (LD : Instruction) : option Value :=
  match Kind LD with
  | LoadInst Ptr _ => Some Ptr
  | _ => None
  end.

(** The body of the loop over the stores; [true] leaves the analysis. *)
Definition registerStore (ST : Instruction) (s : PtrState)
    : option (bool * PtrState) :=
  Ptr ← storePointer ST;
  if isUniform Ptr then
    reject
      (Message "write to a loop invariant address could not be vectorized")
      (ptrInfo s) (with_ptrInfo s)
  else
  (* If we did *not* see this pointer before, insert it to the read-write
     list. At this phase it is only a 'write' list. *)
  if bool_decide (Ptr ∉ Seen s) then
    Some (false,
          {| Seen := {[Ptr]} ∪ Seen s; NumReads := NumReads s;
             NumReadWrites := u32 (NumReadWrites s + 1);
             Accesses := AccessAnalysis.addStore (getLocation ST Ptr)
                           (Accesses s);
             ptrInfo := ptrInfo s |})
  else Some (false, s).

(** *** Registering the loads *)

(** The body of the loop over the loads. *)
Definition registerLoad (Strides : ValueToValueMap) (LD : Instruction)
    (s : PtrState) : option PtrState :=
  Ptr ← loadPointer LD;
  (* If we did *not* see this pointer before, insert it to the read list.
     If we *did* see it before, then it is already in the read-write
     list. *)
  match (if bool_decide (Ptr ∉ Seen s) then Some true
         else Stride ← isStridedPtr IR SE DL Ptr (getLoopId TheLoop) Strides;
              Some (Stride =? 0)) with
  | Some IsReadOnlyPtr =>
      Some {| Seen := {[Ptr]} ∪ Seen s;
              NumReads := if IsReadOnlyPtr : bool then u32 (NumReads s + 1)
                          else NumReads s;
              NumReadWrites := NumReadWrites s;
              Accesses := AccessAnalysis.addLoad (getLocation LD Ptr)
                            IsReadOnlyPtr (Accesses s);
              ptrInfo := ptrInfo s |}
  | None => None
  end.

(** *** Dependence sets, runtime checks and dependence checks *)

(** The two tests on the answer of the runtime-check builder. *)
Definition tooManyChecks (CanDoRT : bool) (NumComparisons : Z) : bool :=
  negb CanDoRT || (RuntimeMemoryCheckThreshold Params <? NumComparisons).

(** The retry after a failed dependence check that asked for it: the
    dependence checks are cleared and the runtime-check builder runs again,
    checking the strides. *)
Definition retryWithRuntimeCheck (Strides : ValueToValueMap)
    (Accesses : AccessAnalysis.t) (LAI : t) : option t :=
  (* Clear the dependency checks. We assume they are not needed. *)
  let Accesses := AccessAnalysis.resetDepChecks Accesses in
  let R := RtCheck.set_Need true (RtCheck.reset (PtrRtCheck LAI)) in
  '(CanDoRT, R, NumComparisons) ←
    AccessAnalysis.canCheckPtrAtRT IR SE DL AA Accesses R
      (getLoopId TheLoop) Strides true;
  let LAI := set_PtrRtCheck R LAI in
  (* Check that we did not collect too many pointers or found an unsizeable
     pointer. *)
  if tooManyChecks CanDoRT NumComparisons then
    LAI ← emitAnalysis
          (if negb CanDoRT && (0 <? NumComparisons)
           then Message "cannot check memory dependencies at runtime"
           else ExceedsLimit NumComparisons
                  (RuntimeMemoryCheckThreshold Params)) LAI;
    Some (set_CanVecMem false
            (set_PtrRtCheck (RtCheck.reset (PtrRtCheck LAI)) LAI))
  else Some (set_CanVecMem true LAI).

(** The dependence check of the analysis, with the retry. *)
Definition checkDependences (Strides : ValueToValueMap)
    (Accesses : AccessAnalysis.t) (Checker : DepChecker.t) (LAI : t)
    : option t :=
  if AccessAnalysis.isDependencyCheckNeeded Accesses then
    '(Safe, st) ←
      DepChecker.areDepsSafe IR SE DL Params (getLoopId TheLoop)
        (AccessAnalysis.DepCands Accesses)
        (AccessAnalysis.CheckDeps Accesses) Strides Checker;
    let Accesses := AccessAnalysis.set_CheckDeps st.1 Accesses in
    let Checker := st.2 in
    let LAI := set_CanVecMem Safe LAI in
    let LAI :=
      set_MaxSafeDepDistBytes (DepChecker.MaxSafeDepDistBytes Checker) LAI in
    if negb Safe && DepChecker.ShouldRetryWithRuntimeCheck Checker
    then retryWithRuntimeCheck Strides Accesses LAI
    else if negb (CanVecMem LAI)
    then emitAnalysis
           (Message "unsafe dependent memory operations in loop") LAI
    else Some LAI
  else Some LAI.

(** The analysis from [buildDependenceSets] on. *)
Definition checkMemory (Strides : ValueToValueMap)
    (Accesses : AccessAnalysis.t) (Checker : DepChecker.t) (LAI : t)
    : option t :=
  (* Build dependence sets and check whether we need a runtime pointer
     bounds check. *)
  Accesses ← AccessAnalysis.buildDependenceSets IR AA Accesses;
  let NeedRTCheck := AccessAnalysis.isRTCheckNeeded Accesses in
  (* Find pointers with computable bounds. *)
  '(CanDoRT, R, NumComparisons) ←
    (if NeedRTCheck
     then AccessAnalysis.canCheckPtrAtRT IR SE DL AA Accesses (PtrRtCheck LAI)
            (getLoopId TheLoop) Strides false
     else Some (false, PtrRtCheck LAI, 0));
  let LAI := set_PtrRtCheck R LAI in
  (* If we only have one set of dependences to check pointers among we
     don't need a runtime check. *)
  let NeedRTCheck :=
    if (NumComparisons =? 0) && NeedRTCheck then false else NeedRTCheck in
  (* Check that we did not collect too many pointers or found an unsizeable
     pointer. *)
  let '(LAI, CanDoRT) :=
    if tooManyChecks CanDoRT NumComparisons
    then (set_PtrRtCheck (RtCheck.reset (PtrRtCheck LAI)) LAI, false)
    else (LAI, CanDoRT) in
  if NeedRTCheck && negb CanDoRT then
    LAI ← emitAnalysis (Message "cannot identify array bounds") LAI;
    Some (set_CanVecMem false
            (set_PtrRtCheck (RtCheck.reset (PtrRtCheck LAI)) LAI))
  else
  let LAI :=
    set_PtrRtCheck (RtCheck.set_Need NeedRTCheck (PtrRtCheck LAI)) LAI in
  let LAI := set_CanVecMem true LAI in
  checkDependences Strides Accesses Checker LAI.

(** *** The analysis of the loop *)

(** For each block, scan the BB and collect legal loads and stores. *)
Definition collectAccesses (IsAnnotatedParallel : bool)
    (Checker : DepChecker.t) (LAI : t) : option (bool * ScanState) :=
  iterate_until (scanInstruction IsAnnotatedParallel)
    (concat (getBlocks TheLoop))
    {| Loads := []; Stores := []; scanChecker := Checker; scanInfo := LAI |}.

(** The loop over the stores, on a fresh access analysis. *)
Definition registerStores (Stores : list Instruction) (LAI : t)
    : option (bool * PtrState) :=
  iterate_until registerStore Stores
    {| Seen := ∅; NumReads := 0; NumReadWrites := 0;
       Accesses := AccessAnalysis.init []; ptrInfo := LAI |}.

(** The loop over the loads. *)
Definition registerLoads (Strides : ValueToValueMap)
    (Loads : list Instruction) (p : PtrState) : option PtrState :=
  for_each (registerLoad Strides) Loads p.

(** [indet] is the content of the uninitialised field of the dependence
    checker. *)
Definition analyzeLoop (indet : Z) (Strides : ValueToValueMap) (LAI : t)
    : option t :=
  let LAI :=
    set_PtrRtCheck
      (RtCheck.set_Need false (RtCheck.clear_Pointers (PtrRtCheck LAI))) LAI in
  let IsAnnotatedParallel := isAnnotatedParallel TheLoop in
  let DepChecker := DepChecker.init indet in
  '(Left, s) ← collectAccesses IsAnnotatedParallel DepChecker LAI;
  if Left : bool then Some (scanInfo s) else
  let LAI := scanInfo s in
  (* Check if we see any stores. If there are no stores, then we don't care
     if the pointers are *restrict*. *)
  if bool_decide (Stores s = []) then Some (set_CanVecMem true LAI) else
  '(Left, p) ← registerStores (Stores s) LAI;
  if Left : bool then Some (ptrInfo p) else
  if IsAnnotatedParallel then
    (* A loop annotated parallel, ignore memory dependency checks. *)
    Some (set_CanVecMem true (ptrInfo p))
  else
  p ← registerLoads Strides (Loads s) p;
  (* If we write (or read-write) to a single destination and there are no
     other reads in this loop then is it safe to vectorize. *)
  if (NumReadWrites p =? 1) && (NumReads p =? 0)
  then Some (set_CanVecMem true (ptrInfo p))
  else checkMemory Strides (Accesses p) (scanChecker s) (ptrInfo p).

(** The constructor: the analysis runs when the loop can be analysed. *)
Definition LoopAccessInfo (indet : Z) (Strides : ValueToValueMap)
    : option t :=
  '(CanAnalyze, LAI) ← canAnalyzeLoop init;
  if CanAnalyze : bool then analyzeLoop indet Strides LAI else Some LAI.

(** *** Emitting the runtime check *)

Definition typeOf (V : NewValue) : option Ty :=
  match V with
  | Existing v => Some (getType IR v)
  | Expanded _ T => Some T
  | BitCast _ T => Some T
  | _ => None
  end.

Definition getInt8PtrTy (AddressSpace : N) : Ty :=
  PointerTy (IntegerTy 8) AddressSpace.

(** The state of the emission: the instructions inserted so far, [FirstInst]
    and [MemoryRuntimeCheck]. *)
Record EmitState := {
  Inserted : list NewValue;
  FirstInst : option NewValue;
  MemoryRuntimeCheck : option NewValue
}.

(** An operation of the [IRBuilder] followed by
    [FirstInst = getFirstInst(FirstInst, V, Loc)]. *)
Definition build (E : Emitter) (V : NewValue) (e : EmitState) : EmitState :=
  if builderInserts E V
  then {| Inserted := Inserted e ++ [V];
          FirstInst := match FirstInst e with
                       | Some F => Some F
                       | None => Some V
                       end;
          MemoryRuntimeCheck := MemoryRuntimeCheck e |}
  else e.

(** An operation of the [IRBuilder] that [getFirstInst] does not see. *)
Definition buildCast (E : Emitter) (V : NewValue) (e : EmitState)
    : EmitState :=
  if builderInserts E V
  then {| Inserted := Inserted e ++ [V]; FirstInst := FirstInst e;
          MemoryRuntimeCheck := MemoryRuntimeCheck e |}
  else e.

(** The bounds of pointer [i]: the pointer itself when it is loop
    invariant, the expanded start and end otherwise. *)
Definition emitBounds (E : Emitter) (R : RuntimePointerCheck) (i : nat)
    (acc : list NewValue * list NewValue * list NewValue)
    : option (list NewValue * list NewValue * list NewValue) :=
  let '(StartsV, EndsV, Ins) := acc in
  Ptr ← Pointers R !! i;
  let Sc := getSCEV SE Ptr in
  if isLoopInvariant SE Sc (getLoopId TheLoop) then
    Some (StartsV ++ [Existing Ptr], EndsV ++ [Existing Ptr], Ins)
  else
    AddressSpace ← DepChecker.getPointerAddressSpace (getType IR Ptr);
    (* Use this type for pointer arithmetic. *)
    let PtrArithTy := getInt8PtrTy AddressSpace in
    StartS ← Starts R !! i;
    EndS ← Ends R !! i;
    Some (StartsV ++ [Expanded StartS PtrArithTy],
          EndsV ++ [Expanded EndS PtrArithTy],
          Ins ++ expandCodeFor E StartS PtrArithTy
              ++ expandCodeFor E EndS PtrArithTy).

(** The body of the loops over the pairs [i < j]. *)
Definition emitPair (E : Emitter) (R : RuntimePointerCheck)
    (StartsV EndsV : list NewValue) (i j : nat) (e : EmitState)
    : option EmitState :=
  Needs ← RtCheck.needsChecking R i j;
  if negb Needs then Some e else
  Si ← StartsV !! i; Sj ← StartsV !! j;
  Ei ← EndsV !! i; Ej ← EndsV !! j;
  AS0 ← typeOf Si ≫= DepChecker.getPointerAddressSpace;
  AS1 ← typeOf Sj ≫= DepChecker.getPointerAddressSpace;
  ASEj ← typeOf Ej ≫= DepChecker.getPointerAddressSpace;
  ASEi ← typeOf Ei ≫= DepChecker.getPointerAddressSpace;
  if negb ((AS0 =? ASEj)%N && (AS1 =? ASEi)%N) then None else
  let PtrArithTy0 := getInt8PtrTy AS0 in
  let PtrArithTy1 := getInt8PtrTy AS1 in
  let Start0 := BitCast Si PtrArithTy0 in
  let Start1 := BitCast Sj PtrArithTy1 in
  let End0 := BitCast Ei PtrArithTy1 in
  let End1 := BitCast Ej PtrArithTy0 in
  let e := buildCast E End1 (buildCast E End0
             (buildCast E Start1 (buildCast E Start0 e))) in
  let Cmp0 := ICmpULE Start0 End1 in
  let e := build E Cmp0 e in
  let Cmp1 := ICmpULE Start1 End0 in
  let e := build E Cmp1 e in
  let IsConflict := And Cmp0 Cmp1 in
  let e := build E IsConflict e in
  match MemoryRuntimeCheck e with
  | Some Check =>
      let IsConflict := Or Check IsConflict in
      let e := build E IsConflict e in
      Some {| Inserted := Inserted e; FirstInst := FirstInst e;
              MemoryRuntimeCheck := Some IsConflict |}
  | None =>
      Some {| Inserted := Inserted e; FirstInst := FirstInst e;
              MemoryRuntimeCheck := Some IsConflict |}
  end.

(** The answer is the pair [(FirstInst, Check)] and the instructions
    inserted before [Loc], in order. *)
Definition addRuntimeCheck (E : Emitter) (LAI : t)
    : option (option NewValue * option NewValue * list NewValue) :=
  let R := PtrRtCheck LAI in
  if negb (Need R) then Some (None, None, []) else
  let NumPointers := length (Pointers R) in
  '(StartsV, EndsV, Ins) ←
    for_each (emitBounds E R) (seq 0 NumPointers) ([], [], []);
  e ← for_each
        (fun i e =>
           for_each (emitPair E R StartsV EndsV i)
                    (seq (S i) (NumPointers - S i)) e)
        (seq 0 NumPointers)
        {| Inserted := Ins; FirstInst := None; MemoryRuntimeCheck := None |};
  (* The IRBuilder might fold the check to a constant expression: the final
     [and] with [true] is an instruction in any case. *)
  Conflict ← MemoryRuntimeCheck e;
  let Check := And Conflict ConstTrue in
  Some (match FirstInst e with
        | Some F => Some F
        | None => Some Check
        end,
        Some Check, Inserted e ++ [Check]).

End Driver.

End LoopAccessInfo.

(** ** The analysis pass

    The pass keeps the analysis of every loop it was asked for in the map
    [LoopAccessInfoMap], from the loop to its [LoopAccessInfo], which records
    (in a build with assertions) the number of symbolic strides it was
    computed with. *)

Module LoopAccessAnalysis.

Record t := {
  LoopAccessInfoMap : gmap LoopId (LoopAccessInfo.t * nat)
}.

Section Pass.

(** The analyses [runOnFunction] fetches. *)
Context (IR : IRContext) (SE : ScalarEvolution) (DL : DataLayout)
        (AA : AliasAnalysis) (DT : DominatorTree) (Params : VectorizerParams).

(** Query the result of the loop access information for the loop [L]; if
    the result for this loop is not available, it is computed and cached.
    [indet] is the content of the uninitialised field of the dependence
    checker of a new analysis.  The assertion fails when the cached analysis
    was computed with another number of symbolic strides. *)
Definition getInfo (indet : Z) (L : Loop) (Strides : ValueToValueMap)
    (P : t) : option (LoopAccessInfo.t * t) :=
  match LoopAccessInfoMap P !! getLoopId L with
  | Some (LAI, NumSymbolicStrides) =>
      if bool_decide (NumSymbolicStrides = size Strides)
      then Some (LAI, P) else None
  | None =>
      LAI ← LoopAccessInfo.LoopAccessInfo IR SE DL AA DT Params L indet
              Strides;
      Some (LAI,
            {| LoopAccessInfoMap :=
                 <[getLoopId L := (LAI, size Strides)]>
                   (LoopAccessInfoMap P) |})
  end.

End Pass.

End LoopAccessAnalysis.

(** ** A concrete environment

    A small instance of the collaborators, on which the analysis runs:
    pointers into arrays with constant byte offsets and steps, all in one
    alias set and with one underlying object. *)

Module Example.

Definition c64 (z : Z) : SCEV := SCEVConstant (mkAPInt 64 (z mod 2 ^ 64)).

(** [{base + off,+,step}<L>] *)
Definition affine (base : Value) (off step : Z) (L : LoopId) (flags : Z)
    : SCEV :=
  SCEVAddRecExpr [SCEVAddExpr (SCEVUnknown base) (c64 off); c64 step] L flags.

(** The difference of two such recurrences over one base with one step is a
    constant; any other difference stays symbolic. *)
Definition minus (a b : SCEV) : SCEV :=
  match a, b with
  | SCEVAddRecExpr
      [SCEVAddExpr (SCEVUnknown x) (SCEVConstant ca); SCEVConstant sa] la _,
    SCEVAddRecExpr
      [SCEVAddExpr (SCEVUnknown y) (SCEVConstant cb); SCEVConstant sb] lb _ =>
      if bool_decide (x = y) && (UVal sa =? UVal sb) && bool_decide (la = lb)
      then c64 (UVal ca - UVal cb)
      else SCEVAddExpr a (SCEVMulExpr (c64 (-1)) b)
  | _, _ => SCEVAddExpr a (SCEVMulExpr (c64 (-1)) b)
  end.

Definition mkSE (tbl : list (Value * SCEV)) : ScalarEvolution :=
  {| getSCEV := fun v =>
       default (SCEVUnknown v)
               (snd <$> find (fun e => bool_decide (fst e = v)) tbl);
     rewriteByOne := fun s _ => s;
     getMinusSCEV := minus;
     getBackedgeTakenCount := fun _ => SCEVUnknown 99%positive;
     evaluateAtIteration := fun ops _ it =>
       SCEVAddExpr (default SCEVCouldNotCompute (head ops))
         (SCEVMulExpr it (default SCEVCouldNotCompute (ops !! 1%nat)));
     isLoopInvariant := fun s l =>
       match s with
       | SCEVAddRecExpr _ l' _ => negb (bool_decide (l = l'))
       | SCEVCouldNotCompute => false
       | _ => true
       end |}.

Definition sizes : DataLayout :=
  {| getTypeAllocSize := fun t =>
       match t with
       | IntegerTy b => (Z.of_N b + 7) / 8
       | FloatTy => 4
       | DoubleTy => 8
       | PointerTy _ _ => 8
       | _ => 0
       end |}.

(** The tags are visited as [processMemAccesses] inserts those of one alias
    set whose pointers are numbered in the order of their first access: the
    writes, then the reads. *)
Definition insertionRank (a : Value * bool) : N :=
  if a.2 then N.pos a.1 else (N.pos a.1 + 2 ^ 32)%N.

Definition mkIR (ty : Value -> Ty) : IRContext :=
  {| getType := ty;
     asGEP := fun _ => Some true;
     asCast := fun _ => None;
     GetUnderlyingObjects := fun _ => [1%positive];
     visitRank := insertionRank |}.

Definition oneSet : AliasAnalysis :=
  {| getTBAA := fun _ => None;
     aliasSets := fun locs => [remove_dups (LocPtr <$> locs)] |}.

Definition DTall : DominatorTree := {| dominates := fun _ _ => true |}.

Definition ld (id p : Value) : Instruction :=
  {| InstValue := id; Kind := LoadInst p true; mayReadFromMemory := true;
     mayWriteToMemory := false; getParent := 1%positive |}.

Definition st (id p : Value) : Instruction :=
  {| InstValue := id; Kind := StoreInst p true; mayReadFromMemory := false;
     mayWriteToMemory := true; getParent := 1%positive |}.

Definition mkLoop (parallel : bool) (insts : list Instruction) : Loop :=
  {| getLoopId := 1%positive; empty := true; getNumBackEdges := 1;
     getExitingBlock := Some 1%positive; getLoopLatch := Some 1%positive;
     isAnnotatedParallel := parallel; getBlocks := [insts] |}.

Definition i32p : Ty := PointerTy (IntegerTy 32) 0.
Definition floatp : Ty := PointerTy FloatTy 0.

(** A descriptor of three pointers: a write and a read of one alias set in
    two dependence sets, and a read of another alias set. *)
Definition descriptor3 : RuntimePointerCheck :=
  {| Need := true;
     Pointers := [10%positive; 11%positive; 12%positive];
     Starts := [c64 0; c64 0; c64 0];
     Ends := [c64 4; c64 4; c64 4];
     IsWritePtr := [true; false; false];
     DependencySetId := [1; 2; 1];
     AliasSetId := [1; 1; 2] |}.

(** The checker at the start of a run of [areDepsSafe]. *)
Definition checker0 : DepChecker.t :=
  DepChecker.set_MaxSafeDepDistBytes UINT_MAX (DepChecker.init 0).

(** [a[i+2] = a[i]] on 32-bit elements: the load through pointer 10, the
    store through pointer 11, eight bytes further. *)
Definition IR_i32 : IRContext := mkIR (fun _ => i32p).

Definition SE_dist8 : ScalarEvolution :=
  mkSE [(10%positive, affine 1%positive 0 4 1%positive 1);
        (11%positive, affine 1%positive 8 4 1%positive 1)].

(** A store through an [i32*] and a load through a [float*] four bytes
    further: two types of one size. *)
Definition IR_i32_float : IRContext :=
  mkIR (fun v => if bool_decide (v = 10%positive) then i32p else floatp).

Definition SE_dist4 : ScalarEvolution :=
  mkSE [(10%positive, affine 1%positive 0 4 1%positive 1);
        (11%positive, affine 1%positive 4 4 1%positive 1)].

(** Two pointers into different arrays: the distance is no constant. *)
Definition SE_two_bases : ScalarEvolution :=
  mkSE [(10%positive, affine 1%positive 0 4 1%positive 1);
        (11%positive, affine 2%positive 0 4 1%positive 1)].

(** The loop [b[i] = a[i]] of two arrays the alias oracle cannot tell
    apart: the store through pointer 11 and the load through pointer 10 as
    the driver registers them, the dependence sets built, and the run of the
    dependence checker. *)
Definition accesses0 : AccessAnalysis.t :=
  AccessAnalysis.addLoad {| LocPtr := 10%positive; TBAA := None |} true
    (AccessAnalysis.addStore {| LocPtr := 11%positive; TBAA := None |}
       (AccessAnalysis.init [])).

Definition accesses1 : AccessAnalysis.t :=
  default accesses0
    (AccessAnalysis.buildDependenceSets IR_i32 oneSet accesses0).

Definition checker2 : DepChecker.t :=
  DepChecker.addAccess 21%positive 11%positive true
    (DepChecker.addAccess 20%positive 10%positive false (DepChecker.init 0)).

Definition loop2 : Loop :=
  mkLoop false [ld 20%positive 10%positive; st 21%positive 11%positive].

Definition deps_two_bases : option (bool * DepChecker.DepState) :=
  DepChecker.areDepsSafe IR_i32 SE_two_bases sizes defaultParams 1%positive
    (AccessAnalysis.DepCands accesses1) (AccessAnalysis.CheckDeps accesses1)
    ∅ checker2.

Definition state_two_bases : DepChecker.DepState :=
  default (∅, checker2) (snd <$> deps_two_bases).

(** The run of the dependence checker on [a[i+2] = a[i]]. *)
Definition deps_dist8 : option (bool * DepChecker.DepState) :=
  DepChecker.areDepsSafe IR_i32 SE_dist8 sizes defaultParams 1%positive
    (AccessAnalysis.DepCands accesses1) (AccessAnalysis.CheckDeps accesses1)
    ∅ checker2.

Definition state_dist8 : DepChecker.DepState :=
  default (∅, checker2) (snd <$> deps_dist8).

(** A loop annotated parallel whose one instruction stores to a
    loop-invariant address. *)
Definition SE_uniform : ScalarEvolution :=
  mkSE [(10%positive, SCEVUnknown 1%positive)].

Definition loop_uniform_store : Loop :=
  mkLoop true [st 21%positive 10%positive].

(** A loop annotated parallel with the accesses of [a[i+2] = a[i]]. *)
Definition loop_parallel : Loop :=
  mkLoop true [ld 20%positive 10%positive; st 21%positive 11%positive].

(** No instruction of the emitted check folds. *)
Definition emitAll : Emitter :=
  {| expandCodeFor := fun S T => [Expanded S T];
     builderInserts := fun _ => true |}.

(** [a[i*i]]: a recurrence of degree two, which has no constant stride. *)
Definition quadratic (base : Value) (L : LoopId) : SCEV :=
  SCEVAddRecExpr [SCEVUnknown base; c64 4; c64 8] L 1.

(** The load through pointer 10 has no constant stride; the store goes
    through pointer 11. *)
Definition SE_quadratic_load : ScalarEvolution :=
  mkSE [(10%positive, quadratic 1%positive 1%positive);
        (11%positive, affine 1%positive 0 4 1%positive 1)].

(** The state of the driver after the store of [loop2] is registered. *)
Definition stored11 : LoopAccessInfo.PtrState :=
  default
    {| LoopAccessInfo.Seen := ∅; LoopAccessInfo.NumReads := 0;
       LoopAccessInfo.NumReadWrites := 0;
       LoopAccessInfo.Accesses := AccessAnalysis.init [];
       LoopAccessInfo.ptrInfo := LoopAccessInfo.init |}
    (snd <$> LoopAccessInfo.registerStores SE_dist8 oneSet DTall loop2
               [st 21%positive 11%positive] LoopAccessInfo.init).

(** The load through pointer 10 has no symbolic bounds. *)
Definition SE_unknown_load : ScalarEvolution :=
  mkSE [(11%positive, affine 1%positive 0 4 1%positive 1)].

(** The state of the runtime-check builder before the first alias set. *)
Definition build0 : AccessAnalysis.BuildState :=
  {| AccessAnalysis.bCanDoRT := true;
     AccessAnalysis.bRtCheck := RtCheck.empty_check;
     AccessAnalysis.bNumComparisons := 0;
     AccessAnalysis.bASId := 1 |}.

(** The runtime-check builder on the one alias set of [accesses1], with the
    dependence check needed. *)
Definition built_two_bases : AccessAnalysis.BuildState :=
  default build0
    (AccessAnalysis.checkAliasSet IR_i32 SE_two_bases sizes accesses1
       1%positive ∅ false true [11%positive; 10%positive] build0).

(** The store [a[i] = ..] through pointer 11 and the load of [a[i]] through
    pointer 10: the distance is zero. *)
Definition SE_dist0 : ScalarEvolution :=
  mkSE [(10%positive, affine 1%positive 0 4 1%positive 1);
        (11%positive, affine 1%positive 0 4 1%positive 1)].

(** A loop with a sub-loop. *)
Definition loop_nested : Loop :=
  {| getLoopId := 1%positive; empty := false; getNumBackEdges := 1;
     getExitingBlock := Some 1%positive; getLoopLatch := Some 1%positive;
     isAnnotatedParallel := false; getBlocks := [] |}.

(** A volatile load. *)
Definition volatile_ld (id p : Value) : Instruction :=
  {| InstValue := id; Kind := LoadInst p false; mayReadFromMemory := true;
     mayWriteToMemory := false; getParent := 1%positive |}.

Definition loop_volatile : Loop :=
  mkLoop false [volatile_ld 20%positive 10%positive;
                st 21%positive 11%positive].

(** A loop that only loads, and a loop that only stores through one
    pointer. *)
Definition loop_loads : Loop :=
  mkLoop false [ld 20%positive 10%positive; ld 21%positive 11%positive].

Definition loop_one_store : Loop :=
  mkLoop false [st 21%positive 11%positive; st 22%positive 11%positive].

(** The analysis of [a[i+2] = a[i]] and of [b[i] = a[i]]. *)
Definition analysed_dist8 : LoopAccessInfo.t :=
  default LoopAccessInfo.init
    (LoopAccessInfo.LoopAccessInfo IR_i32 SE_dist8 sizes oneSet DTall
       defaultParams loop2 0 ∅).

Definition analysed_two_bases : LoopAccessInfo.t :=
  default LoopAccessInfo.init
    (LoopAccessInfo.LoopAccessInfo IR_i32 SE_two_bases sizes oneSet DTall
       defaultParams loop2 0 ∅).

(** The runtime check emitted for [b[i] = a[i]]. *)
Definition emitted_two_bases
    : option NewValue * option NewValue * list NewValue :=
  default (None, None, [])
    (LoopAccessInfo.addRuntimeCheck IR_i32 SE_two_bases loop2 emitAll
       analysed_two_bases).

(** The descriptor with the pointer 10 of [a[i]]. *)
Definition inserted10 : RuntimePointerCheck :=
  default RtCheck.empty_check
    (RtCheck.insert IR_i32 SE_dist8 1%positive 10%positive false 1 1 ∅
       RtCheck.empty_check).

(** The runtime-check builder on [b[i] = a[i]]: with the dependence check
    needed, and in the retry, where the strides are checked. *)
Definition checked_two_bases : bool * RuntimePointerCheck * Z :=
  default (false, RtCheck.empty_check, 0)
    (AccessAnalysis.canCheckPtrAtRT IR_i32 SE_two_bases sizes oneSet
       accesses1 RtCheck.empty_check 1%positive ∅ false).

Definition retry_two_bases : bool * RuntimePointerCheck * Z :=
  default (false, RtCheck.empty_check, 0)
    (AccessAnalysis.canCheckPtrAtRT IR_i32 SE_two_bases sizes oneSet
       (AccessAnalysis.resetDepChecks accesses1)
       (RtCheck.set_Need true RtCheck.empty_check) 1%positive ∅ true).

Definition retried_two_bases : LoopAccessInfo.t :=
  default LoopAccessInfo.init
    (LoopAccessInfo.retryWithRuntimeCheck IR_i32 SE_two_bases sizes oneSet
       defaultParams loop2 ∅ accesses1 LoopAccessInfo.init).

(** A store and a load through one pointer: no dependence candidate. *)
Definition accesses_one_pointer : AccessAnalysis.t :=
  AccessAnalysis.addLoad {| LocPtr := 11%positive; TBAA := None |} false
    (AccessAnalysis.addStore {| LocPtr := 11%positive; TBAA := None |}
       (AccessAnalysis.init [])).

Definition candidates_one_pointer : AccessAnalysis.t :=
  default accesses_one_pointer
    (AccessAnalysis.buildDependenceSets IR_i32 oneSet accesses_one_pointer).

(** The pass after a first query for the loop [a[i+2] = a[i]]. *)
Definition pass0 : LoopAccessAnalysis.t :=
  {| LoopAccessAnalysis.LoopAccessInfoMap := ∅ |}.

Definition pass1 : LoopAccessAnalysis.t :=
  default pass0
    (snd <$> LoopAccessAnalysis.getInfo IR_i32 SE_dist8 sizes oneSet DTall
               defaultParams 0 loop2 ∅ pass0).

End Example.

(** ** Store-to-load forwarding in the words of the specification

    The candidate widths [2T, 4T, 8T, ...] up to the limit, the first broken
    one, the effective maximum and the verdict, on unbounded integers.  The
    limit is below [2 ^ 32], so the 32 first widths are all there are. *)

Module ForwardingSpec.

Definition limit (T MaxSafe : Z) : Z := Z.min MaxSafe (MaxVectorWidth * T).

Definition width (T : Z) (k : nat) : Z := 2 ^ Z.of_nat (S k) * T.

Definition candidates (T MaxSafe : Z) : list Z :=
  filter (fun vf => vf <= limit T MaxSafe) (width T <$> seq 0 32).

(** Forwarding is broken at width [vf]. *)
Definition broken (d T vf : Z) : bool :=
  negb (d mod vf =? 0) && (d / vf <? 8 * T).

Definition max_width (d T MaxSafe : Z) : Z :=
  match find (broken d T) (candidates T MaxSafe) with
  | Some vf => vf / 2
  | None => limit T MaxSafe
  end.

Definition unsafe (d T MaxSafe : Z) : bool :=
  max_width d T MaxSafe <? 2 * T.

End ForwardingSpec.

(** ** The roles of a pair after the inversion for a negative stride *)

(** A forced value of zero stands for one. *)
Definition effective (forced : Z) : Z := if forced =? 0 then 1 else forced.

(** [isDependent] exchanges the two accesses when the stride of the first is
    negative: the source of the dependence is then the second access. *)
Definition inverted (StrideAPtr : Z) : bool := StrideAPtr <? 0.

Definition sourceOf {X : Type} (StrideAPtr : Z) (a b : X) : X :=
  if inverted StrideAPtr then b else a.

Definition sinkOf {X : Type} (StrideAPtr : Z) (a b : X) : X :=
  if inverted StrideAPtr then a else b.

(** [dyn_cast<SCEVConstant>] succeeds. *)
Definition isConstant (S : SCEV) : bool :=
  match S with
  | SCEVConstant _ => true
  | _ => false
  end.

(** The order of the states of the checker along a run: the maximum safe
    distance does not grow. *)
Definition shrinks (D D' : DepChecker.t) : Prop :=
  DepChecker.MaxSafeDepDistBytes D' <= DepChecker.MaxSafeDepDistBytes D.

(** ** The loops the analysis accepts when annotated parallel *)

(** An instruction that may read memory is a load or a call of a recognised
    intrinsic, and any other instruction that may write memory is a
    store. *)
Definition isPlainAccess (it : Instruction) : bool :=
  if mayReadFromMemory it then
    match Kind it with
    | LoadInst _ _ => true
    | CallInst ID => negb (ID =? 0)%N
    | _ => false
    end
  else if mayWriteToMemory it then
    match Kind it with
    | StoreInst _ _ => true
    | _ => false
    end
  else true.

(** The instruction is collected as a store: it may write memory, does not
    read it, and is a store. *)
Definition isCollectedStore (it : Instruction) : bool :=
  negb (mayReadFromMemory it) && mayWriteToMemory it
  && match Kind it with
     | StoreInst _ _ => true
     | _ => false
     end.

(** No collected store of the loop writes to a loop-invariant address. *)
Definition noUniformStore (SE : ScalarEvolution) (TheLoop : Loop) : bool :=
  forallb
    (fun it =>
       negb (isCollectedStore it)
       || match Kind it with
          | StoreInst Ptr _ =>
              negb (LoopAccessInfo.isUniform SE TheLoop Ptr)
          | _ => true
          end)
    (concat (getBlocks TheLoop)).

(** What the scan of the instructions keeps of the state of the analysis. *)
Definition sameVerdict (LAI LAI' : LoopAccessInfo.t) : Prop :=
  LoopAccessInfo.PtrRtCheck LAI' = LoopAccessInfo.PtrRtCheck LAI /\
  LoopAccessInfo.CanVecMem LAI' = LoopAccessInfo.CanVecMem LAI /\
  LoopAccessInfo.Report LAI' = LoopAccessInfo.Report LAI.

(** ** The pointers of the loads and of the stores *)

Definition isLoadOf (Loads : list Instruction) (x : Value) : Prop :=
  exists LD, LD ∈ Loads /\ LoopAccessInfo.loadPointer LD = Some x.

Definition isStoreOf (Stores : list Instruction) (x : Value) : Prop :=
  exists ST, ST ∈ Stores /\ LoopAccessInfo.storePointer ST = Some x.

(** ** The pointers of an alias set *)

(** The pointer is written through in the loop. *)
Definition isWritten (A : AccessAnalysis.t) (Ptr : Value) : bool :=
  bool_decide ((Ptr, true) ∈ AccessAnalysis.Accesses A).

(** The numbers of written and of other pointers of an alias set. *)
Definition writes (A : AccessAnalysis.t) (AS : list Value) : Z :=
  Z.of_nat (length (filter (fun Ptr => isWritten A Ptr = true) AS)).

Definition reads (A : AccessAnalysis.t) (AS : list Value) : Z :=
  Z.of_nat (length (filter (fun Ptr => isWritten A Ptr = false) AS)).

(** The variables of the loop over the pointers of an alias set when it is
    entered. *)
Definition enterSet (b : AccessAnalysis.BuildState) : AccessAnalysis.SetState :=
  {| AccessAnalysis.NumReadPtrChecks := 0;
     AccessAnalysis.NumWritePtrChecks := 0;
     AccessAnalysis.RunningDepId := 1;
     AccessAnalysis.DepSetId := ∅;
     AccessAnalysis.CanDoRT := AccessAnalysis.bCanDoRT b;
     AccessAnalysis.sRtCheck := AccessAnalysis.bRtCheck b |}.

(** ** Inputs on which the dependence checker is defined *)

(** The access can be checked: its pointer has a pointer type, the stride
    analyzer is defined on it, and the allocation size of its element type
    is positive and small enough for the 32-bit arithmetic of the
    forwarding check. *)
Definition checkable (IR : IRContext) (SE : ScalarEvolution)
    (DL : DataLayout) (L : LoopId) (Strides : ValueToValueMap)
    (a : MemAccessInfo) : Prop :=
  exists ElementType AddressSpace s,
    getType IR a.1 = PointerTy ElementType AddressSpace /\
    isStridedPtr IR SE DL a.1 L Strides = Some s /\
    0 < u32 (getTypeAllocSize DL ElementType) < 2 ^ 25.

(** The constant distances of the oracle are integers of at most 64 bits. *)
Definition constantsFit (SE : ScalarEvolution) : Prop :=
  forall a b Val,
    getMinusSCEV SE a b = SCEVConstant Val ->
    0 < BitWidth Val <= 64 /\ 0 <= UVal Val < 2 ^ BitWidth Val.

(** The classes are disjoint. *)
Definition disjointClasses (E : EC.t) : Prop :=
  forall c1 c2 x, c1 ∈ E -> c2 ∈ E -> x ∈ c1 -> x ∈ c2 -> c1 = c2.

(** The running dependence-set id counts the ids given so far: one more than
    the number of leaders that have an id, none of which is zero. *)
Definition countsIds (s : AccessAnalysis.SetState) : Prop :=
  AccessAnalysis.RunningDepId s
  = 1 + Z.of_nat (size (AccessAnalysis.DepSetId s)) /\
  forall Leader id,
    AccessAnalysis.DepSetId s !! Leader = Some id -> id <> 0.

(** * Further notions

    The notions in which the further properties of the code are stated. *)

(** The checker keeps its log of the accesses. *)
Definition sameLog (D D' : DepChecker.t) : Prop :=
  DepChecker.Accesses D' = DepChecker.Accesses D /\
  DepChecker.InstMap D' = DepChecker.InstMap D /\
  DepChecker.AccessIdx D' = DepChecker.AccessIdx D.

(** What a check of pairs does to the retry flag: it is never cleared, and
    it is kept when the answer is safe ([unsafe = false]). *)
Definition keepsFlag (unsafe : bool) (D D' : DepChecker.t) : Prop :=
  (DepChecker.ShouldRetryWithRuntimeCheck D = true ->
   DepChecker.ShouldRetryWithRuntimeCheck D' = true) /\
  (unsafe = false ->
   DepChecker.ShouldRetryWithRuntimeCheck D'
   = DepChecker.ShouldRetryWithRuntimeCheck D).

(** What a check of pairs keeps of the checker. *)
Definition checked (unsafe : bool) (D D' : DepChecker.t) : Prop :=
  sameLog D D' /\ keepsFlag unsafe D D'.

(** The indices of a list grow along it. *)
Definition increasing (l : list Z) : Prop :=
  forall (i j : nat) a b,
    (i < j)%nat -> l !! i = Some a -> l !! j = Some b -> a < b.

(** The log of the dependence checker is in program order: the instructions
    logged so far have the indices below [AccessIdx]; the indices of a
    location grow, and no index belongs to two locations. *)
Definition logged (D : DepChecker.t) : Prop :=
  Z.of_nat (length (DepChecker.InstMap D)) = DepChecker.AccessIdx D /\
  (forall key l, DepChecker.Accesses D !! key = Some l ->
     l <> [] /\ increasing l /\
     Forall (fun i => 0 <= i < DepChecker.AccessIdx D) l) /\
  (forall key1 key2 l1 l2 i,
     DepChecker.Accesses D !! key1 = Some l1 ->
     DepChecker.Accesses D !! key2 = Some l2 ->
     i ∈ l1 -> i ∈ l2 -> key1 = key2).

(** ** The instructions the scan of the loop accepts *)

(** An instruction that may read memory is a load, simple unless the loop
    is annotated parallel, or a call of a recognised intrinsic; any other
    instruction that may write memory is a store, simple unless the loop is
    annotated parallel. *)
Definition isAcceptedAccess (parallel : bool) (it : Instruction) : bool :=
  if mayReadFromMemory it then
    match Kind it with
    | LoadInst _ isSimple => isSimple || parallel
    | CallInst ID => negb (ID =? 0)%N
    | _ => false
    end
  else if mayWriteToMemory it then
    match Kind it with
    | StoreInst _ isSimple => isSimple || parallel
    | _ => false
    end
  else true.

(** The instruction is collected as a load: it may read memory and is a
    load. *)
Definition isCollectedLoad (it : Instruction) : bool :=
  mayReadFromMemory it
  && match Kind it with
     | LoadInst _ _ => true
     | _ => false
     end.

Definition isCollected (it : Instruction) : bool :=
  isCollectedLoad it || isCollectedStore it.

(** The reports of the scan. *)
Definition scanReports : list string :=
  ["read with atomic ordering or volatile read";
   "write with atomic ordering or volatile write";
   "instruction cannot be vectorized"]%string.

(** What the scan of instructions it accepts leaves: the loads and the
    stores in program order, their numbers, and the log of the dependence
    checker. *)
Definition scanned (insts : list Instruction)
    (s s' : LoopAccessInfo.ScanState) : Prop :=
  sameVerdict (LoopAccessInfo.scanInfo s) (LoopAccessInfo.scanInfo s') /\
  LoopAccessInfo.Loads s'
  = LoopAccessInfo.Loads s
    ++ filter (fun it => isCollectedLoad it = true) insts /\
  LoopAccessInfo.Stores s'
  = LoopAccessInfo.Stores s
    ++ filter (fun it => isCollectedStore it = true) insts /\
  LoopAccessInfo.NumLoads (LoopAccessInfo.scanInfo s')
  = u32 (LoopAccessInfo.NumLoads (LoopAccessInfo.scanInfo s)
         + Z.of_nat (length (filter (fun it => isCollectedLoad it = true)
                                    insts))) /\
  LoopAccessInfo.NumStores (LoopAccessInfo.scanInfo s')
  = u32 (LoopAccessInfo.NumStores (LoopAccessInfo.scanInfo s)
         + Z.of_nat (length (filter (fun it => isCollectedStore it = true)
                                    insts))) /\
  DepChecker.InstMap (LoopAccessInfo.scanChecker s')
  = DepChecker.InstMap (LoopAccessInfo.scanChecker s)
    ++ (InstValue <$> filter (fun it => isCollected it = true) insts) /\
  DepChecker.MaxSafeDepDistBytes (LoopAccessInfo.scanChecker s')
  = DepChecker.MaxSafeDepDistBytes (LoopAccessInfo.scanChecker s) /\
  DepChecker.ShouldRetryWithRuntimeCheck (LoopAccessInfo.scanChecker s')
  = DepChecker.ShouldRetryWithRuntimeCheck (LoopAccessInfo.scanChecker s) /\
  LoopAccessInfo.MaxSafeDepDistBytes (LoopAccessInfo.scanInfo s')
  = LoopAccessInfo.MaxSafeDepDistBytes (LoopAccessInfo.scanInfo s) /\
  (logged (LoopAccessInfo.scanChecker s) ->
   DepChecker.AccessIdx (LoopAccessInfo.scanChecker s)
   + Z.of_nat (length (filter (fun it => isCollected it = true) insts))
   < 2 ^ 32 ->
   logged (LoopAccessInfo.scanChecker s') /\
   DepChecker.AccessIdx (LoopAccessInfo.scanChecker s')
   = DepChecker.AccessIdx (LoopAccessInfo.scanChecker s)
     + Z.of_nat (length (filter (fun it => isCollected it = true) insts))).

(** The counters of the scan are 32-bit values. *)
Definition countersFit (LAI : LoopAccessInfo.t) : Prop :=
  0 <= LoopAccessInfo.NumLoads LAI < 2 ^ 32 /\
  0 <= LoopAccessInfo.NumStores LAI < 2 ^ 32.

(** ** The loops the analysis looks into *)

(** The shape of the loop: innermost, one backedge, one exiting block which
    is the latch, and a backedge-taken count the scalar evolution can
    compute. *)
Definition shapeOk (SE : ScalarEvolution) (TheLoop : Loop) : bool :=
  empty TheLoop
  && (getNumBackEdges TheLoop =? 1)
  && negb (bool_decide (getExitingBlock TheLoop = None))
  && bool_decide (getExitingBlock TheLoop = getLoopLatch TheLoop)
  && match getBackedgeTakenCount SE (getLoopId TheLoop) with
     | SCEVCouldNotCompute => false
     | _ => true
     end.

(** The reports on the shape of the loop. *)
Definition shapeReports : list string :=
  ["loop is not the innermost loop";
   "loop control flow is not understood by analyzer";
   "could not determine number of loop iterations"]%string.

(** The analysis has come to a verdict: the loop can be vectorized and there
    is no report, or it cannot and a report tells why. *)
Definition decided (LAI : LoopAccessInfo.t) : Prop :=
  (LoopAccessInfo.CanVecMem LAI = true /\ LoopAccessInfo.Report LAI = None) \/
  (LoopAccessInfo.CanVecMem LAI = false /\
   is_Some (LoopAccessInfo.Report LAI)).

(** The pointer of the store is loop invariant. *)
Definition isUniformStore (SE : ScalarEvolution) (TheLoop : Loop)
    (it : Instruction) : bool :=
  match Kind it with
  | StoreInst Ptr _ => LoopAccessInfo.isUniform SE TheLoop Ptr
  | _ => false
  end.

(** ** What the runtime-check builder adds to a descriptor *)

(** The pointers [added] extend the descriptor [R] to [R']: they are
    appended in order with their write flags, each has computable bounds
    and, when the strides are checked, the stride 1. *)
Definition extends (IR : IRContext) (SE : ScalarEvolution) (DL : DataLayout)
    (A : AccessAnalysis.t) (TheLoop : LoopId) (Strides : ValueToValueMap)
    (ShouldCheckStride : bool) (added : list Value)
    (R R' : RuntimePointerCheck) : Prop :=
  Need R' = Need R /\
  Pointers R' = Pointers R ++ added /\
  IsWritePtr R' = IsWritePtr R ++ (isWritten A <$> added) /\
  Forall (fun Ptr =>
            hasComputableBounds IR SE Strides Ptr = true /\
            (ShouldCheckStride = true ->
             isStridedPtr IR SE DL Ptr TheLoop Strides = Some 1))
         added.

(** ** The dependence candidates *)

(** What the loop over the alias sets keeps true of its state, for an
    access analysis that starts without candidates: the flag of the runtime
    check is set exactly when there is a candidate; the candidates and the
    deferred accesses are registered accesses; a candidate is a write or a
    read of a read-only pointer; and a write was seen when there is a
    candidate or the flag of the alias set is up. *)
Definition candidatesOf (A : AccessAnalysis.t) (p : AccessAnalysis.ProcState)
    : Prop :=
  (AccessAnalysis.pIsRTCheckNeeded p = true <->
   AccessAnalysis.pCheckDeps p <> ∅) /\
  (forall x, x ∈ AccessAnalysis.DeferredAccesses p ->
     x ∈ AccessAnalysis.Accesses A) /\
  (forall Ptr W, (Ptr, W) ∈ AccessAnalysis.pCheckDeps p ->
     (Ptr, W) ∈ AccessAnalysis.Accesses A /\
     (W = true \/ Ptr ∈ AccessAnalysis.ReadOnlyPtr A)) /\
  (AccessAnalysis.SetHasWrite p = true \/ AccessAnalysis.pCheckDeps p <> ∅ ->
   exists Q, (Q, true) ∈ AccessAnalysis.Accesses A).

(** ** The emitted runtime check *)

(** What the emission keeps true of its state: the instructions inserted
    before are still there, in order; the first instruction, when there is
    one, is one of the inserted instructions; and a conflict was computed
    only for a pair of pointers that needs a check. *)
Definition emitted (R : RuntimePointerCheck) (Ins : list NewValue)
    (e : LoopAccessInfo.EmitState) : Prop :=
  Ins `prefix_of` LoopAccessInfo.Inserted e /\
  (forall F, LoopAccessInfo.FirstInst e = Some F ->
     F ∈ LoopAccessInfo.Inserted e) /\
  (is_Some (LoopAccessInfo.MemoryRuntimeCheck e) ->
   exists i j, (i < j)%nat /\ RtCheck.needsChecking R i j = Some true).

(** * Verification *)

(** ** Machine integers *)

Lemma u32_range z : 0 <= u32 z < 2 ^ 32.
Proof. unfold u32. apply Z.mod_pos_bound. lia. Qed.

Lemma u32_id z : 0 <= z < 2 ^ 32 -> u32 z = z.
Proof. intros H. unfold u32. apply Z.mod_small. exact H. Qed.

(** ** The runtime-check descriptor *)

Lemma wf_empty_check : RtCheck.wf RtCheck.empty_check.
Proof. repeat split. Qed.

(** Every descriptor the builder makes is well formed: [insert] extends the
    six vectors together. *)
Lemma wf_insert IR SE Lp Ptr W D A Strides R R' :
  RtCheck.wf R ->
  RtCheck.insert IR SE Lp Ptr W D A Strides R = Some R' ->
  RtCheck.wf R' /\ length (Pointers R') = S (length (Pointers R)).
Proof.
  intros (H1 & H2 & H3 & H4 & H5) Hins. unfold RtCheck.insert in Hins.
  destruct (replaceSymbolicStrideSCEV _ _ _ _ _); try discriminate.
  destruct (head Operands) eqn:Hh; simpl in Hins; [|discriminate].
  injection Hins as <-. unfold RtCheck.wf; simpl.
  rewrite !length_app; simpl. lia.
Qed.

Lemma lookup_of_wf {A} (l : list A) (n i : nat) :
  length l = n -> (i < n)%nat -> exists x, l !! i = Some x.
Proof.
  intros Hl Hi. destruct (lookup_lt_is_Some_2 l i) as [x Hx]; [lia|]. eauto.
Qed.

(** The answer of [needsChecking] from the entries of the two indices. *)
Lemma needsChecking_entries R i j wi wj di dj ai aj :
  IsWritePtr R !! i = Some wi -> IsWritePtr R !! j = Some wj ->
  DependencySetId R !! i = Some di -> DependencySetId R !! j = Some dj ->
  AliasSetId R !! i = Some ai -> AliasSetId R !! j = Some aj ->
  RtCheck.needsChecking R i j
  = Some (bool_decide ((wi = true \/ wj = true) /\ di <> dj /\ ai = aj)).
Proof.
  intros Hwi Hwj Hdi Hdj Hai Haj. unfold RtCheck.needsChecking.
  rewrite Hwi, Hwj; simpl.
  destruct wi, wj; simpl; rewrite ?Hdi, ?Hdj; simpl;
    try (f_equal; symmetry; apply bool_decide_eq_false; intros [[?|?] _];
         discriminate);
    (destruct (Z.eqb_spec di dj);
     [f_equal; symmetry; apply bool_decide_eq_false; intros (_ & ? & _);
      done|]);
    rewrite Hai, Haj; simpl;
    (destruct (Z.eqb_spec ai aj); simpl; f_equal; symmetry;
     [apply bool_decide_eq_true; auto
     |apply bool_decide_eq_false; intros (_ & _ & ?); done]).
Qed.

(** C3: for every pair of indices into a runtime-check descriptor,
    [needsChecking] answers, and it answers [true] if and only if at least
    one of the two entries is a write, their dependence-set ids differ and
    their alias-set ids are equal. *)
Theorem needsChecking_iff (R : RuntimePointerCheck) (i j : nat) :
  RtCheck.wf R ->
  (i < length (Pointers R))%nat -> (j < length (Pointers R))%nat ->
  exists wi wj di dj ai aj b,
    IsWritePtr R !! i = Some wi /\ IsWritePtr R !! j = Some wj /\
    DependencySetId R !! i = Some di /\ DependencySetId R !! j = Some dj /\
    AliasSetId R !! i = Some ai /\ AliasSetId R !! j = Some aj /\
    RtCheck.needsChecking R i j = Some b /\
    (b = true <-> (wi = true \/ wj = true) /\ di <> dj /\ ai = aj).
Proof.
  intros (_ & _ & Hw & Hd & Ha) Hi Hj.
  destruct (lookup_of_wf _ _ i Hw Hi) as [wi Hwi].
  destruct (lookup_of_wf _ _ j Hw Hj) as [wj Hwj].
  destruct (lookup_of_wf _ _ i Hd Hi) as [di Hdi].
  destruct (lookup_of_wf _ _ j Hd Hj) as [dj Hdj].
  destruct (lookup_of_wf _ _ i Ha Hi) as [ai Hai].
  destruct (lookup_of_wf _ _ j Ha Hj) as [aj Haj].
  exists wi, wj, di, dj, ai, aj.
  eexists. repeat (split; [eassumption|]).
  split; [eapply needsChecking_entries; eassumption|].
  apply bool_decide_eq_true.
Qed.

Lemma needsChecking_iff_witness :
  exists wi wj di dj ai aj b,
    IsWritePtr Example.descriptor3 !! 0%nat = Some wi /\
    IsWritePtr Example.descriptor3 !! 1%nat = Some wj /\
    DependencySetId Example.descriptor3 !! 0%nat = Some di /\
    DependencySetId Example.descriptor3 !! 1%nat = Some dj /\
    AliasSetId Example.descriptor3 !! 0%nat = Some ai /\
    AliasSetId Example.descriptor3 !! 1%nat = Some aj /\
    RtCheck.needsChecking Example.descriptor3 0 1 = Some b /\
    (b = true <-> (wi = true \/ wj = true) /\ di <> dj /\ ai = aj).
Proof.
  apply (needsChecking_iff Example.descriptor3 0 1).
  - repeat split.
  - simpl. lia.
  - simpl. lia.
Defined.

(** ** The stride analyzer *)

(** The step of a recurrence is a constant only when the recurrence is
    affine. *)
Lemma getStepRecurrence_constant Ops L C :
  getStepRecurrence Ops L = SCEVConstant C ->
  isAffine Ops = true /\ exists Start, Ops = [Start; SCEVConstant C].
Proof.
  unfold getStepRecurrence. destruct (isAffine Ops) eqn:Haff; [|discriminate].
  destruct Ops as [|Start [|Step [|]]]; try discriminate.
  intros ->. eauto.
Qed.

(** What a non-zero stride tells about the pointer: everything the stride
    analyzer requires, which is all of the specification but the loop of the
    recurrence. *)
Lemma isStridedPtr_nonzero IR SE DL Ptr Lp StridesMap k :
  isStridedPtr IR SE DL Ptr Lp StridesMap = Some k -> k <> 0 ->
  exists ElementType AddressSpace Start C ARLoop Flags,
    getType IR Ptr = PointerTy ElementType AddressSpace /\
    isAggregateType ElementType = false /\
    replaceSymbolicStrideSCEV IR SE StridesMap Ptr None
    = SCEVAddRecExpr [Start; SCEVConstant C] ARLoop Flags /\
    BitWidth C <= 64 /\
    let Size := s64 (getTypeAllocSize DL ElementType) in
    let StepVal := AP.getSExtValue C in
    Size <> 0 /\ Z.rem StepVal Size = 0 /\ k = s32 (Z.quot StepVal Size) /\
    (getNoWrapFlags Flags NoWrapMask = 0 ->
     (isInBoundsGep IR Ptr = true \/ AddressSpace = 0%N) /\
     Z.abs (Z.quot StepVal Size) = 1 /\ Z.abs k = 1).
Proof.
  unfold isStridedPtr. intros H Hk.
  destruct (getType IR Ptr) as [| | |ElementType AddressSpace| | |] eqn:HT;
    try discriminate.
  destruct (isAggregateType ElementType) eqn:Hagg; [naive_solver|].
  destruct (replaceSymbolicStrideSCEV _ _ _ _ _) as [| | | |Ops ARLoop Flags|]
    eqn:HS; try naive_solver.
  destruct (negb (negb (getNoWrapFlags Flags NoWrapMask =? 0))
            && negb (isInBoundsGep IR Ptr) && negb (AddressSpace =? 0)%N)
    eqn:Hwrap; [naive_solver|].
  destruct (getStepRecurrence Ops ARLoop) as [C| | | | |] eqn:Hstep;
    try naive_solver.
  apply getStepRecurrence_constant in Hstep as (_ & Start & ->).
  destruct (64 <? BitWidth C) eqn:Hbw; [naive_solver|].
  apply Z.ltb_ge in Hbw.
  destruct ((s64 (getTypeAllocSize DL ElementType) =? 0)
            || ((AP.getSExtValue C =? - 2 ^ 63)
                && (s64 (getTypeAllocSize DL ElementType) =? -1)))
    eqn:Hdiv; [discriminate|].
  apply orb_false_iff in Hdiv as [Hz _]. apply Z.eqb_neq in Hz.
  destruct (negb (Z.rem _ _ =? 0)) eqn:Hrem; [naive_solver|].
  apply negb_false_iff, Z.eqb_eq in Hrem.
  match type of H with (if ?c then _ else _) = _ => destruct c eqn:Hunit end;
    [naive_solver|].
  injection H as <-.
  exists ElementType, AddressSpace, Start, C, ARLoop, Flags.
  repeat (split; [done|]). simpl. repeat (split; [done|]).
  intros Hnw. rewrite Hnw in Hwrap, Hunit. simpl in Hwrap, Hunit.
  assert (Hfall : isInBoundsGep IR Ptr || (AddressSpace =? 0)%N = true).
  { destruct (isInBoundsGep IR Ptr), (AddressSpace =? 0)%N; done. }
  rewrite Hfall in Hunit. simpl in Hunit.
  split.
  { apply orb_true_iff in Hfall as [?|?%N.eqb_eq]; auto. }
  set (q := Z.quot _ _) in *.
  assert (Hq : q = 1 \/ q = -1).
  { destruct (Z.eqb_spec q 1); [auto|]. destruct (Z.eqb_spec q (-1)); [auto|].
    discriminate. }
  destruct Hq as [-> | ->]; done.
Qed.

(** C2: the stride analyzer returns the stride 1 for a pointer whose
    recurrence runs over another loop than the analysed one: the test of the
    loop of the recurrence has no effect on the result. *)
Theorem isStridedPtr_other_loop :
  let IR := Example.mkIR (fun _ => Example.i32p) in
  let SE := Example.mkSE
              [(10%positive, Example.affine 1%positive 0 4 2%positive 1)] in
  replaceSymbolicStrideSCEV IR SE ∅ 10%positive None
  = Example.affine 1%positive 0 4 2%positive 1 /\
  isStridedPtr IR SE Example.sizes 10%positive 1%positive ∅ = Some 1.
Proof. split; reflexivity. Qed.

(** ** Store-to-load forwarding *)

Section Forwarding.

Variables d T lim : Z.
Hypothesis T_pos : 0 < T.
Hypothesis lim_range : 0 <= lim < 2 ^ 31.

Lemma width_pos k : 0 < ForwardingSpec.width T k.
Proof. unfold ForwardingSpec.width. apply Z.mul_pos_pos; lia. Qed.

Lemma width_succ k :
  ForwardingSpec.width T (S k) = ForwardingSpec.width T k * 2.
Proof.
  unfold ForwardingSpec.width.
  rewrite (Nat2Z.inj_succ (S k)), Z.pow_succ_r by lia. lia.
Qed.

(** Past a width above the limit there is no candidate. *)
Lemma no_candidate_above k n :
  lim < ForwardingSpec.width T k ->
  filter (fun vf => vf <= lim) (ForwardingSpec.width T <$> seq k n) = [].
Proof.
  intros Hk. revert k Hk. induction n as [|n IH]; intros k Hk; [done|].
  simpl. rewrite filter_cons_False by lia.
  apply IH. rewrite width_succ. pose proof (width_pos k). lia.
Qed.

(** The loop finds the first broken candidate. *)
Lemma forward_scan_find n : forall (k fuel : nat),
  (n < fuel)%nat -> (k + n = 32)%nat ->
  DepChecker.forward_scan fuel d (8 * T) (ForwardingSpec.width T k) lim
  = Some match find (ForwardingSpec.broken d T)
                 (filter (fun vf => vf <= lim)
                         (ForwardingSpec.width T <$> seq k n)) with
         | Some vf => vf / 2
         | None => lim
         end.
Proof.
  induction n as [|n IH]; intros k fuel Hfuel Hk.
  - destruct fuel as [|fuel]; [lia|]. simpl.
    assert (Hbig : lim < ForwardingSpec.width T k).
    { replace k with 32%nat by lia. unfold ForwardingSpec.width.
      change (2 ^ Z.of_nat 33) with 8589934592. lia. }
    destruct (Z.leb_spec (ForwardingSpec.width T k) lim); [lia|done].
  - destruct fuel as [|fuel]; [lia|]. simpl.
    pose proof (width_pos k) as Hpos.
    destruct (Z.leb_spec (ForwardingSpec.width T k) lim) as [Hle|Hgt].
    + rewrite filter_cons_True by done. simpl.
      destruct (Z.eqb_spec (ForwardingSpec.width T k) 0); [lia|].
      fold (ForwardingSpec.broken d T (ForwardingSpec.width T k)).
      destruct (ForwardingSpec.broken d T (ForwardingSpec.width T k)).
      * rewrite Z.shiftr_div_pow2 by lia. done.
      * rewrite u32_id by lia. rewrite <- width_succ.
        apply IH; lia.
    + rewrite filter_cons_False by lia.
      rewrite no_candidate_above; [done|].
      rewrite width_succ. lia.
Qed.

End Forwarding.

(** C4: the store-to-load forwarding check scans the widths
    [2T, 4T, 8T, ...] up to [min(MaxSafeDepDistBytes, 64 T)], stops at the
    first width [vf] with [d mod vf <> 0] and [d / vf < 8 T], where the
    maximum becomes [vf / 2], and answers unsafe exactly when the resulting
    maximum is below [2 T]. *)
Theorem couldPreventStoreLoadForward_spec (d T : Z) (D : DepChecker.t) :
  0 < T < 2 ^ 25 -> 0 <= d < 2 ^ 32 ->
  0 <= DepChecker.MaxSafeDepDistBytes D < 2 ^ 32 ->
  let MaxSafe := DepChecker.MaxSafeDepDistBytes D in
  DepChecker.forward_scan DepChecker.scan_fuel d (u32 (8 * T)) (u32 (2 * T))
    (if MaxSafe <? u32 (MaxVectorWidth * T) then MaxSafe
     else u32 (MaxVectorWidth * T))
  = Some (ForwardingSpec.max_width d T MaxSafe) /\
  exists D',
    DepChecker.couldPreventStoreLoadForward d T D
    = Some (ForwardingSpec.unsafe d T MaxSafe, D').
Proof.
  intros HT Hd HM MaxSafe. unfold MaxVectorWidth in *.
  assert (Hlim : (if MaxSafe <? u32 (64 * T) then MaxSafe else u32 (64 * T))
                 = ForwardingSpec.limit T MaxSafe).
  { unfold ForwardingSpec.limit, MaxVectorWidth. rewrite u32_id by lia.
    destruct (Z.ltb_spec MaxSafe (64 * T)); lia. }
  assert (Hscan :
    DepChecker.forward_scan DepChecker.scan_fuel d (u32 (8 * T)) (u32 (2 * T))
      (if MaxSafe <? u32 (64 * T) then MaxSafe else u32 (64 * T))
    = Some (ForwardingSpec.max_width d T MaxSafe)).
  { rewrite Hlim, !u32_id by lia.
    change (2 * T) with (ForwardingSpec.width T 0).
    unfold ForwardingSpec.max_width, ForwardingSpec.candidates.
    apply forward_scan_find; unfold DepChecker.scan_fuel; try lia.
    unfold ForwardingSpec.limit, MaxVectorWidth. lia. }
  split; [exact Hscan|].
  unfold DepChecker.couldPreventStoreLoadForward, MaxVectorWidth.
  fold MaxSafe. rewrite Hscan. simpl.
  unfold ForwardingSpec.unsafe. rewrite (u32_id (2 * T)) by lia.
  destruct (ForwardingSpec.max_width d T MaxSafe <? 2 * T); [eauto|].
  match goal with |- context [if ?c then _ else _] => destruct c end; eauto.
Qed.

Lemma couldPreventStoreLoadForward_spec_witness :
  let D := DepChecker.set_MaxSafeDepDistBytes 12 (DepChecker.init 0) in
  DepChecker.forward_scan DepChecker.scan_fuel 12 (u32 (8 * 4)) (u32 (2 * 4))
    (if 12 <? u32 (MaxVectorWidth * 4) then 12 else u32 (MaxVectorWidth * 4))
  = Some (ForwardingSpec.max_width 12 4 12) /\
  exists D',
    DepChecker.couldPreventStoreLoadForward 12 4 D
    = Some (ForwardingSpec.unsafe 12 4 12, D').
Proof.
  apply (couldPreventStoreLoadForward_spec 12 4
           (DepChecker.set_MaxSafeDepDistBytes 12 (DepChecker.init 0)));
    simpl; lia.
Defined.

(** [scan_fuel] rounds are enough on every input: [vf] is a multiple of
    [2 ^ j] after [j] doublings, hence zero after 32, where the loop is
    left or the remainder is undefined.  More fuel changes nothing. *)
Lemma forward_scan_enough_fuel d nc lim (m : nat) : forall vf f1 f2,
  (m <= 32)%nat -> 0 <= vf < 2 ^ 32 -> (2 ^ Z.of_nat (32 - m) | vf) ->
  (m < f1)%nat -> (m < f2)%nat ->
  DepChecker.forward_scan f1 d nc vf lim
  = DepChecker.forward_scan f2 d nc vf lim.
Proof.
  induction m as [|m IH]; intros vf f1 f2 Hm Hvf Hdiv H1 H2;
    (destruct f1 as [|f1]; [lia|]); (destruct f2 as [|f2]; [lia|]); simpl.
  - assert (vf = 0) as ->.
    { destruct Hdiv as [c Hc].
      change (2 ^ Z.of_nat (32 - 0)) with (2 ^ 32) in Hc.
      assert (c = 0) by nia. lia. }
    done.
  - destruct (vf <=? lim); [|done]. destruct (vf =? 0); [done|].
    match goal with |- context [if ?c then _ else _] => destruct c end;
      [done|].
    apply IH; try lia.
    + apply u32_range.
    + replace (32 - m)%nat with (S (32 - S m)) by lia.
      rewrite Nat2Z.inj_succ, Z.pow_succ_r by lia.
      destruct Hdiv as [c ->]. unfold u32.
      rewrite Z.mod_eq by lia.
      apply Z.divide_sub_r.
      * exists c. lia.
      * apply Z.divide_mul_l.
        exists (2 ^ Z.of_nat m).
        rewrite <- Z.pow_succ_r, <- Z.pow_add_r by lia. f_equal. lia.
Qed.

(** ** The dependence checker: one pair *)

Lemma isStrictlyPositive_spec Val :
  AP.isStrictlyPositive Val = true ->
  AP.isNegative Val = false /\ AP.isZero Val = false.
Proof.
  unfold AP.isStrictlyPositive. intros [H1 H2]%andb_true_iff.
  split; by apply negb_true_iff.
Qed.

(** C1 (amended): for every ordered access pair with at least one write, both
    pointers in one address space, equal non-zero strides and a constant
    positive byte distance [d] from the source to the sink (the two accesses
    exchanged when the stride is negative), all quantities fitting 32 bits:
    the dependence checker answers safe when the two pointee types are not
    the same type; otherwise it answers safe only if [d >= 2 T],
    [2 T <= MaxSafeDepDistBytes], [d >= T * forced_interleave *
    forced_vector_factor], and, when the source is the read and the sink
    the write, only if store-to-load forwarding is not broken at [d]. *)
Theorem isDependent_positive_distance
    IR SE DL Params L Strides APtr AW BPtr BW AIdx BIdx D TA TB AS s Val :
  AIdx < BIdx ->
  AW || BW = true ->
  getType IR APtr = PointerTy TA AS -> getType IR BPtr = PointerTy TB AS ->
  isStridedPtr IR SE DL APtr L Strides = Some s ->
  isStridedPtr IR SE DL BPtr L Strides = Some s ->
  s <> 0 ->
  let SrcW := sourceOf s AW BW in
  let SinkW := sinkOf s AW BW in
  let SrcTy := sourceOf s TA TB in
  let SinkTy := sinkOf s TA TB in
  getMinusSCEV SE
    (replaceSymbolicStrideSCEV IR SE Strides (sinkOf s APtr BPtr) None)
    (replaceSymbolicStrideSCEV IR SE Strides (sourceOf s APtr BPtr) None)
  = SCEVConstant Val ->
  AP.isStrictlyPositive Val = true ->
  let d := UVal Val in
  let T := getTypeAllocSize DL SrcTy in
  let FI := effective (VectorizationInterleave Params) in
  let FVF := effective (VectorizationFactor Params) in
  0 < d < 2 ^ 32 -> 0 <= T -> 2 * T < 2 ^ 32 ->
  0 <= VectorizationInterleave Params -> 0 <= VectorizationFactor Params ->
  T * FI * FVF < 2 ^ 32 ->
  let result :=
    DepChecker.isDependent IR SE DL Params L (APtr, AW) AIdx (BPtr, BW) BIdx
      Strides D in
  (SrcTy <> SinkTy -> result = Some (false, D)) /\
  (SrcTy = SinkTy -> forall D', result = Some (false, D') ->
     d >= 2 * T /\
     2 * T <= DepChecker.MaxSafeDepDistBytes D /\
     d >= T * FI * FVF /\
     (SrcW = false -> SinkW = true ->
      DepChecker.couldPreventStoreLoadForward d T
        (DepChecker.set_MaxSafeDepDistBytes
           (Z.min d (DepChecker.MaxSafeDepDistBytes D)) D)
      = Some (false, D'))).
Proof.
  intros Hidx Hw HTA HTB HsA HsB Hs SrcW SinkW SrcTy SinkTy HDist Hpos d T FI
    FVF Hd HT0 HT HFI HFVF Hprod result.
  apply isStrictlyPositive_spec in Hpos as [Hneg Hzero].
  assert (Hprod0 : 0 <= T * FI * FVF).
  { unfold FI, FVF, effective.
    destruct (_ =? 0), (_ =? 0); nia. }
  assert (Hhead :
    result =
    if bool_decide (SrcTy <> SinkTy) then Some (false, D) else
    if (u32 d <? u32 (2 * u32 T))
       || (DepChecker.MaxSafeDepDistBytes D <? u32 (2 * u32 T))
       || (u32 d <? u32 (u32 T * FI * FVF))
    then Some (true, D) else
    let D1 := DepChecker.set_MaxSafeDepDistBytes
                (if u32 d <? DepChecker.MaxSafeDepDistBytes D then u32 d
                 else DepChecker.MaxSafeDepDistBytes D) D in
    if negb SrcW && SinkW then
      match DepChecker.couldPreventStoreLoadForward (u32 d) (u32 T) D1 with
      | Some (true, D') => Some (true, D')
      | Some (false, D') => Some (false, D')
      | None => None
      end
    else Some (false, D1)).
  { unfold result, DepChecker.isDependent. simpl.
    destruct (Z.ltb_spec AIdx BIdx); [simpl|lia].
    replace (negb AW && negb BW) with false by (destruct AW, BW; done).
    rewrite HTA, HTB. simpl. rewrite N.eqb_refl. simpl.
    rewrite HsA, HsB. simpl.
    unfold SrcW, SinkW, SrcTy, SinkTy, T, sourceOf, sinkOf, inverted in *.
    destruct (s <? 0); simpl;
      (destruct (Z.eqb_spec s 0); [done|]); rewrite Z.eqb_refl; simpl;
      rewrite HDist, ?HTA, ?HTB; simpl; rewrite Hneg, Hzero;
      (case_bool_decide; [done|]);
      unfold AP.getZExtValue; fold d;
      (destruct (Z.ltb_spec d (2 ^ 64)); [|lia]); simpl;
      unfold FI, FVF, effective; reflexivity. }
  rewrite Hhead. clear Hhead.
  rewrite !(u32_id d), !(u32_id T), !u32_id by lia.
  split.
  - intros Hne. rewrite bool_decide_eq_true_2; done.
  - intros Heq D'. rewrite bool_decide_eq_false_2 by auto.
    destruct (Z.ltb_spec d (2 * T)); simpl; [done|].
    destruct (Z.ltb_spec (DepChecker.MaxSafeDepDistBytes D) (2 * T)); simpl;
      [done|].
    destruct (Z.ltb_spec d (T * FI * FVF)); simpl; [done|].
    intros Hres. repeat (split; [lia|]).
    intros -> ->. simpl in Hres.
    replace (Z.min d (DepChecker.MaxSafeDepDistBytes D))
      with (if d <? DepChecker.MaxSafeDepDistBytes D then d
            else DepChecker.MaxSafeDepDistBytes D)
      by (destruct (Z.ltb_spec d (DepChecker.MaxSafeDepDistBytes D)); lia).
    destruct (DepChecker.couldPreventStoreLoadForward _ _ _)
      as [[[] ?]|]; congruence.
Qed.

Lemma isDependent_positive_distance_witness :
  let result :=
    DepChecker.isDependent Example.IR_i32 Example.SE_dist8 Example.sizes
      defaultParams 1%positive
      (10%positive, false) 0 (11%positive, true) 1 ∅ Example.checker0 in
  (IntegerTy 32 <> IntegerTy 32 -> result = Some (false, Example.checker0)) /\
  (IntegerTy 32 = IntegerTy 32 -> forall D', result = Some (false, D') ->
     8 >= 2 * 4 /\
     2 * 4 <= DepChecker.MaxSafeDepDistBytes Example.checker0 /\
     8 >= 4 * 1 * 1 /\
     (false = false -> true = true ->
      DepChecker.couldPreventStoreLoadForward 8 4
        (DepChecker.set_MaxSafeDepDistBytes
           (Z.min 8 (DepChecker.MaxSafeDepDistBytes Example.checker0))
           Example.checker0)
      = Some (false, D'))).
Proof.
  apply (isDependent_positive_distance Example.IR_i32 Example.SE_dist8
           Example.sizes defaultParams 1%positive ∅ 10%positive false
           11%positive true 0 1 Example.checker0
           (IntegerTy 32) (IntegerTy 32) 0%N 1 (mkAPInt 64 8));
    try reflexivity; try done.
Defined.

(** The claim C1 as it is written fails on a store through an [i32*]
    followed by a load through a [float*] four bytes further: the two types
    have the same size, the distance is below twice that size, and the
    checker answers safe. *)
Lemma isDependent_same_size_counterexample :
  isStridedPtr Example.IR_i32_float Example.SE_dist4 Example.sizes
    10%positive 1%positive ∅ = Some 1 /\
  isStridedPtr Example.IR_i32_float Example.SE_dist4 Example.sizes
    11%positive 1%positive ∅ = Some 1 /\
  getMinusSCEV Example.SE_dist4 (getSCEV Example.SE_dist4 11%positive)
    (getSCEV Example.SE_dist4 10%positive)
  = Example.c64 4 /\
  getTypeAllocSize Example.sizes (IntegerTy 32) = 4 /\
  getTypeAllocSize Example.sizes FloatTy = 4 /\
  DepChecker.isDependent Example.IR_i32_float Example.SE_dist4 Example.sizes
    defaultParams 1%positive
    (10%positive, true) 0 (11%positive, false) 1 ∅ Example.checker0
  = Some (false, Example.checker0) /\
  ~ (4 >= 2 * 4).
Proof. repeat split; try reflexivity. lia. Qed.

(** ** Non-constant distances and the retry *)

Lemma isDependent_nonconstant
    IR SE DL Params L Strides APtr AW BPtr BW AIdx BIdx D TA TB AS s :
  AIdx < BIdx ->
  AW || BW = true ->
  getType IR APtr = PointerTy TA AS -> getType IR BPtr = PointerTy TB AS ->
  isStridedPtr IR SE DL APtr L Strides = Some s ->
  isStridedPtr IR SE DL BPtr L Strides = Some s ->
  s <> 0 ->
  isConstant
    (getMinusSCEV SE
       (replaceSymbolicStrideSCEV IR SE Strides (sinkOf s APtr BPtr) None)
       (replaceSymbolicStrideSCEV IR SE Strides (sourceOf s APtr BPtr) None))
  = false ->
  DepChecker.isDependent IR SE DL Params L (APtr, AW) AIdx (BPtr, BW) BIdx
    Strides D
  = Some (true, DepChecker.set_ShouldRetryWithRuntimeCheck true D).
Proof.
  intros Hidx Hw HTA HTB HsA HsB Hs HDist.
  unfold DepChecker.isDependent. simpl.
  destruct (Z.ltb_spec AIdx BIdx); [simpl|lia].
  replace (negb AW && negb BW) with false by (destruct AW, BW; done).
  rewrite HTA, HTB. simpl. rewrite N.eqb_refl. simpl.
  rewrite HsA, HsB. simpl.
  unfold sourceOf, sinkOf, inverted in *.
  destruct (s <? 0); simpl;
    (destruct (Z.eqb_spec s 0); [done|]); rewrite Z.eqb_refl; simpl;
    destruct (getMinusSCEV SE _ _); done.
Qed.

Section Retry.

Context (IR : IRContext) (SE : ScalarEvolution) (DL : DataLayout)
        (AA : AliasAnalysis) (DT : DominatorTree) (Params : VectorizerParams)
        (TheLoop : Loop) (Strides : ValueToValueMap).

Lemma checkDependences_retry Accesses Checker LAI st :
  AccessAnalysis.isDependencyCheckNeeded Accesses = true ->
  DepChecker.areDepsSafe IR SE DL Params (getLoopId TheLoop)
    (AccessAnalysis.DepCands Accesses) (AccessAnalysis.CheckDeps Accesses)
    Strides Checker = Some (false, st) ->
  DepChecker.ShouldRetryWithRuntimeCheck st.2 = true ->
  LoopAccessInfo.Report LAI = None ->
  let Cleared :=
    AccessAnalysis.resetDepChecks
      (AccessAnalysis.set_CheckDeps st.1 Accesses) in
  let rebuilt :=
    AccessAnalysis.canCheckPtrAtRT IR SE DL AA Cleared
      (RtCheck.set_Need true RtCheck.empty_check) (getLoopId TheLoop) Strides
      true in
  let result :=
    LoopAccessInfo.checkDependences IR SE DL AA Params TheLoop Strides
      Accesses Checker LAI in
  AccessAnalysis.CheckDeps Cleared = ∅ /\
  AccessAnalysis.isDependencyCheckNeeded Cleared = false /\
  (rebuilt = None -> result = None) /\
  (forall CanDoRT R N, rebuilt = Some (CanDoRT, R, N) ->
   exists LAI',
     result = Some LAI' /\
     LoopAccessInfo.CanVecMem LAI'
     = negb (LoopAccessInfo.tooManyChecks Params CanDoRT N) /\
     LoopAccessInfo.PtrRtCheck LAI'
     = if LoopAccessInfo.tooManyChecks Params CanDoRT N
       then RtCheck.empty_check else R).
Proof.
  intros Hneeded Hdeps Hretry Hrep Cleared rebuilt result.
  split; [done|]. split; [done|].
  assert (Hres : result =
    LoopAccessInfo.retryWithRuntimeCheck IR SE DL AA Params TheLoop Strides
      (AccessAnalysis.set_CheckDeps st.1 Accesses)
      (LoopAccessInfo.set_MaxSafeDepDistBytes
         (DepChecker.MaxSafeDepDistBytes st.2)
         (LoopAccessInfo.set_CanVecMem false LAI))).
  { unfold result, LoopAccessInfo.checkDependences.
    rewrite Hneeded, Hdeps. simpl. rewrite Hretry. done. }
  rewrite Hres. unfold LoopAccessInfo.retryWithRuntimeCheck.
  fold Cleared. simpl. unfold RtCheck.reset. fold rebuilt.
  split.
  - intros ->. done.
  - intros CanDoRT R N ->. simpl.
    destruct (LoopAccessInfo.tooManyChecks Params CanDoRT N); simpl.
    + unfold LoopAccessInfo.emitAnalysis. simpl. rewrite Hrep. simpl. eauto.
    + eauto.
Qed.
End Retry.




(** ** The first tag of a set *)

Lemma foldl_earlier (IR : IRContext) l : forall x,
  foldl (SmallPtrSet.earlier IR) x l ∈ x :: l /\
  forall y, y ∈ x :: l ->
    (visitRank IR (foldl (SmallPtrSet.earlier IR) x l) <= visitRank IR y)%N.
Proof.
  induction l as [|z l IH]; intros x; simpl.
  - split; [left|]. intros y ->%list_elem_of_singleton. lia.
  - destruct (IH (SmallPtrSet.earlier IR x z)) as [Hin Hle]. split.
    + apply elem_of_cons in Hin as [->|Hin]; [|by do 2 right].
      unfold SmallPtrSet.earlier. destruct (_ <? _)%N; [right|]; left.
    + intros y Hy.
      assert (Hxz : (visitRank IR (SmallPtrSet.earlier IR x z)
                     <= visitRank IR x)%N /\
                    (visitRank IR (SmallPtrSet.earlier IR x z)
                     <= visitRank IR z)%N).
      { unfold SmallPtrSet.earlier.
        destruct (N.ltb_spec (visitRank IR z) (visitRank IR x)); lia. }
      apply elem_of_cons in Hy as [->|[->|Hy]%elem_of_cons].
      * etrans; [apply Hle; left|apply Hxz].
      * etrans; [apply Hle; left|apply Hxz].
      * apply Hle. by right.
Qed.

(** [begin] yields a tag exactly when the set is not empty. *)
Lemma begin_None (IR : IRContext) (S : gset MemAccessInfo) :
  SmallPtrSet.begin IR S = None <-> S = ∅.
Proof.
  unfold SmallPtrSet.begin. split.
  - destruct (elements S) eqn:Hel; [|discriminate]. intros _.
    apply leibniz_equiv, elements_empty_inv. by rewrite Hel.
  - intros ->. by rewrite elements_empty.
Qed.

(** The tag is an element of the set, and none of the set has a lesser
    rank. *)
Lemma begin_Some (IR : IRContext) (S : gset MemAccessInfo) x :
  SmallPtrSet.begin IR S = Some x ->
  x ∈ S /\ forall y, y ∈ S -> (visitRank IR x <= visitRank IR y)%N.
Proof.
  unfold SmallPtrSet.begin.
  destruct (elements S) as [|z l] eqn:Hel; [discriminate|].
  intros [= <-]. destruct (foldl_earlier IR l z) as [Hin Hle]. split.
  - apply elem_of_elements. by rewrite Hel.
  - intros y Hy. apply Hle. rewrite <- Hel. by apply elem_of_elements.
Qed.

(** ** The maximum safe distance along a run *)

Lemma couldPreventStoreLoadForward_monotone d T D r D' :
  DepChecker.couldPreventStoreLoadForward d T D = Some (r, D') ->
  DepChecker.MaxSafeDepDistBytes D' <= DepChecker.MaxSafeDepDistBytes D.
Proof.
  unfold DepChecker.couldPreventStoreLoadForward. intros H.
  destruct (DepChecker.forward_scan _ _ _ _ _) as [m|]; [|discriminate].
  simpl in H.
  destruct (m <? u32 (2 * T)); [injection H as _ <-; lia|].
  destruct (Z.ltb_spec m (DepChecker.MaxSafeDepDistBytes D)); simpl in H;
    [destruct (negb _)|]; injection H as _ <-; simpl; lia.
Qed.

Lemma isDependent_monotone IR SE DL Params L A AIdx B BIdx Strides D r D' :
  DepChecker.isDependent IR SE DL Params L A AIdx B BIdx Strides D
  = Some (r, D') ->
  DepChecker.MaxSafeDepDistBytes D' <= DepChecker.MaxSafeDepDistBytes D.
Proof.
  unfold DepChecker.isDependent. intros H.
  repeat (match type of H with
          | context [if ?c then _ else _] => destruct c eqn:?
          | context [match ?x with _ => _ end] => destruct x eqn:?
          | context [mbind _ ?x] => destruct x eqn:?; simpl in H
          end; simpl in H; try discriminate);
  try (injection H as _ <-; simpl; lia).
  all: try (repeat match goal with
       | Hc : DepChecker.couldPreventStoreLoadForward _ _ _ = Some _ |- _ =>
           apply couldPreventStoreLoadForward_monotone in Hc; simpl in Hc
       end; simplify_eq; simpl in *; try lia).
Qed.

(** A relation every round of a loop keeps is kept by the loop. *)
Lemma iterate_until_preserves {A S : Type} (f : A -> S -> option (bool * S))
    (R : S -> S -> Prop) :
  (forall s, R s s) -> (forall s1 s2 s3, R s1 s2 -> R s2 s3 -> R s1 s3) ->
  (forall x s r s', f x s = Some (r, s') -> R s s') ->
  forall l s r s', iterate_until f l s = Some (r, s') -> R s s'.
Proof.
  intros Hrefl Htrans Hf l. induction l as [|x l IH]; intros s r s' H.
  - injection H as _ <-. apply Hrefl.
  - simpl in H. destruct (f x s) as [[[] s1]|] eqn:Hx; [| |discriminate].
    + injection H as _ <-. eapply Hf, Hx.
    + eapply Htrans; [eapply Hf, Hx|eapply IH, H].
Qed.

Lemma shrinks_refl D : shrinks D D.
Proof. unfold shrinks. lia. Qed.

Lemma shrinks_trans D1 D2 D3 : shrinks D1 D2 -> shrinks D2 D3 -> shrinks D1 D3.
Proof. unfold shrinks. lia. Qed.

Section Monotone.

Context (IR : IRContext) (SE : ScalarEvolution) (DL : DataLayout)
        (Params : VectorizerParams) (L : LoopId) (Strides : ValueToValueMap).

Lemma checkIndexPair_monotone AI OI I1 I2 D r D' :
  DepChecker.checkIndexPair IR SE DL Params L Strides AI OI I1 I2 D
  = Some (r, D') -> shrinks D D'.
Proof.
  unfold DepChecker.checkIndexPair. intros H.
  destruct (I1 <? I2).
  - destruct (DepChecker.isDependent _ _ _ _ _ _ _ _ _ _ D)
      as [[[] D1]|] eqn:H1; [| |discriminate].
    + injection H as _ <-. eapply isDependent_monotone, H1.
    + apply isDependent_monotone in H1.
      destruct (I2 <? I1).
      * apply isDependent_monotone in H. unfold shrinks. lia.
      * injection H as _ <-. exact H1.
  - destruct (I2 <? I1).
    + eapply isDependent_monotone, H.
    + injection H as _ <-. apply shrinks_refl.
Qed.

Lemma checkAccessPair_monotone AI OI D r D' :
  DepChecker.checkAccessPair IR SE DL Params L Strides AI OI D = Some (r, D') ->
  shrinks D D'.
Proof.
  unfold DepChecker.checkAccessPair.
  apply iterate_until_preserves;
    [apply shrinks_refl|apply shrinks_trans|].
  intros I1 s r1 s1.
  apply iterate_until_preserves;
    [apply shrinks_refl|apply shrinks_trans|].
  intros I2 s2 r2 s3. apply checkIndexPair_monotone.
Qed.

Lemma checkMembers_monotone members : forall st r st',
  DepChecker.checkMembers IR SE DL Params L Strides members st
  = Some (r, st') ->
  shrinks st.2 st'.2.
Proof.
  induction members as [|AI rest IH]; intros st r st' H; simpl in H.
  - injection H as _ <-. apply shrinks_refl.
  - destruct (iterate_until _ rest st.2) as [[[] D1]|] eqn:Hit;
      [| |discriminate];
      (eapply iterate_until_preserves in Hit;
       [|apply shrinks_refl|apply shrinks_trans
        |intros ? ? ? ?; apply checkAccessPair_monotone]).
    + injection H as _ <-. exact Hit.
    + apply IH in H. simpl in H. eapply shrinks_trans; eassumption.
Qed.

Lemma checkAll_monotone AccessSets fuel : forall st r st',
  DepChecker.checkAll IR SE DL Params L fuel AccessSets Strides st
  = Some (r, st') ->
  shrinks st.2 st'.2.
Proof.
  induction fuel as [|fuel IH]; intros st r st' H; simpl in H.
  - destruct (SmallPtrSet.begin IR st.1); [discriminate|].
    injection H as _ <-. apply shrinks_refl.
  - destruct (SmallPtrSet.begin IR st.1) as [Cur|]; cycle 1.
    { injection H as _ <-. apply shrinks_refl. }
    destruct (EC.getLeaderValue AccessSets Cur) as [Leader|]; [|discriminate].
    simpl in H.
    destruct (EC.members AccessSets Leader) as [members|]; [|discriminate].
    simpl in H.
    destruct (DepChecker.checkMembers _ _ _ _ _ _ members st)
      as [[[] st1]|] eqn:Hm; [| |discriminate];
      apply checkMembers_monotone in Hm.
    + injection H as _ <-. exact Hm.
    + apply IH in H. eapply shrinks_trans; eassumption.
Qed.

Lemma areDepsSafe_bound AccessSets CheckDeps D r st :
  DepChecker.areDepsSafe IR SE DL Params L AccessSets CheckDeps Strides D
  = Some (r, st) ->
  DepChecker.MaxSafeDepDistBytes st.2 <= UINT_MAX.
Proof.
  unfold DepChecker.areDepsSafe. intros H.
  destruct (DepChecker.checkAll _ _ _ _ _ _ _ _ _) as [[u st1]|] eqn:Hall;
    [|discriminate].
  injection H as _ <-. apply checkAll_monotone in Hall. exact Hall.
Qed.

End Monotone.

(** *** The checker answers *)

Lemma forward_scan_exit fuel d nc vf lim :
  lim < vf -> DepChecker.forward_scan (S fuel) d nc vf lim = Some lim.
Proof. intros H. simpl. destruct (Z.leb_spec vf lim); [lia|done]. Qed.

Lemma couldPreventStoreLoadForward_total d T D :
  0 < T < 2 ^ 25 ->
  is_Some (DepChecker.couldPreventStoreLoadForward d T D).
Proof.
  intros HT. unfold DepChecker.couldPreventStoreLoadForward, MaxVectorWidth.
  rewrite !u32_id by lia.
  set (lim := if DepChecker.MaxSafeDepDistBytes D <? 64 * T
              then DepChecker.MaxSafeDepDistBytes D else 64 * T).
  assert (Hlim : lim < 2 ^ 31).
  { unfold lim.
    destruct (Z.ltb_spec (DepChecker.MaxSafeDepDistBytes D) (64 * T)); lia. }
  assert (Hscan : is_Some (DepChecker.forward_scan DepChecker.scan_fuel d
                             (8 * T) (2 * T) lim)).
  { destruct (Z.lt_ge_cases lim 0) as [Hneg|Hpos].
    - unfold DepChecker.scan_fuel. rewrite forward_scan_exit by lia.
      by eexists.
    - change (2 * T) with (ForwardingSpec.width T 0).
      rewrite (forward_scan_find d T lim) with (n := 32%nat);
        unfold DepChecker.scan_fuel; try lia. by eexists. }
  destruct Hscan as [m ->]. simpl.
  repeat match goal with |- context [if ?c then _ else _] => destruct c end;
    by eexists.
Qed.

Lemma iterate_until_total {A S : Type} (f : A -> S -> option (bool * S)) l :
  (forall x s, x ∈ l -> is_Some (f x s)) ->
  forall s, is_Some (iterate_until f l s).
Proof.
  induction l as [|x l IH]; intros Hf s; [by eexists|].
  simpl. destruct (Hf x s) as [[[] s'] ->]; [left| |].
  - by eexists.
  - apply IH. intros y s0 Hy. apply Hf. by right.
Qed.

Section Total.

Context (IR : IRContext) (SE : ScalarEvolution) (DL : DataLayout)
        (Params : VectorizerParams) (L : LoopId) (Strides : ValueToValueMap).
Hypothesis Hfit : constantsFit SE.

Lemma isDependent_total A AIdx B BIdx D :
  checkable IR SE DL L Strides A -> checkable IR SE DL L Strides B ->
  AIdx < BIdx ->
  is_Some (DepChecker.isDependent IR SE DL Params L A AIdx B BIdx Strides D).
Proof.
  intros (TA & ASA & sA & HTA & HsA & HszA) (TB & ASB & sB & HTB & HsB & HszB)
    Hidx.
  unfold DepChecker.isDependent.
  destruct (Z.ltb_spec AIdx BIdx); [simpl|lia].
  destruct (negb A.2 && negb B.2); [by eexists|].
  rewrite HTA, HTB. simpl.
  destruct (negb (ASA =? ASB)%N); [by eexists|].
  rewrite HsA, HsB. simpl.
  destruct (sA <? 0);
    (match goal with |- context [if ?c then _ else _] => destruct c end;
     [by eexists|]);
    (match goal with |- context [match ?x with _ => _ end] =>
       destruct x as [Val| | | | |] eqn:HDist end; try by eexists);
    rewrite ?HTA, ?HTB; simpl;
    apply Hfit in HDist as [Hbw Hval];
    assert (2 ^ BitWidth Val <= 2 ^ 64) by (apply Z.pow_le_mono_r; lia).
  all: destruct (AP.isNegative Val) eqn:Hneg.
  all: try (destruct (_ && negb _); [|by eexists];
            unfold AP.getZExtValue, AP.abs; rewrite Hneg; simpl;
            match goal with |- context [?a mod ?b] =>
              pose proof (Z.mod_pos_bound a b ltac:(lia)) end;
            match goal with |- context [if ?c then _ else _] =>
              destruct c eqn:Hc; [|apply Z.ltb_ge in Hc; lia] end; simpl;
            match goal with
              |- context [DepChecker.couldPreventStoreLoadForward ?d ?T ?D] =>
                destruct (couldPreventStoreLoadForward_total d T D)
                  as [[? ?] ->]; [done|]
            end;
            match goal with |- context [if ?c then _ else _] => destruct c end;
            by eexists).
  all: destruct (AP.isZero Val);
       [match goal with |- context [if ?c then _ else _] => destruct c end;
        by eexists|].
  all: match goal with |- context [if ?c then _ else _] => destruct c end;
       [by eexists|].
  all: unfold AP.getZExtValue;
       match goal with |- context [if ?c then _ else _] =>
         destruct c eqn:Hc; [|apply Z.ltb_ge in Hc; lia] end; simpl.
  all: match goal with |- context [if ?c then _ else _] => destruct c end;
       [by eexists|].
  all: match goal with |- context [if ?c then _ else _] => destruct c end;
       [|by eexists].
  all: match goal with
         |- context [DepChecker.couldPreventStoreLoadForward ?d ?T ?D] =>
           destruct (couldPreventStoreLoadForward_total d T D) as [[[] ?] ->];
             [done|by eexists..]
       end.
Qed.

Lemma checkIndexPair_total AI OI I1 I2 D :
  checkable IR SE DL L Strides AI -> checkable IR SE DL L Strides OI ->
  is_Some (DepChecker.checkIndexPair IR SE DL Params L Strides AI OI I1 I2 D).
Proof.
  intros HA HO. unfold DepChecker.checkIndexPair.
  destruct (Z.ltb_spec I1 I2).
  - destruct (isDependent_total AI I1 OI I2 D HA HO) as [[[] D1] ->];
      [done|by eexists|].
    destruct (Z.ltb_spec I2 I1); [lia|by eexists].
  - destruct (Z.ltb_spec I2 I1); [|by eexists].
    by apply isDependent_total.
Qed.

Lemma checkAccessPair_total AI OI D :
  checkable IR SE DL L Strides AI -> checkable IR SE DL L Strides OI ->
  is_Some (DepChecker.checkAccessPair IR SE DL Params L Strides AI OI D).
Proof.
  intros HA HO. unfold DepChecker.checkAccessPair.
  apply iterate_until_total. intros I1 D1 _.
  apply iterate_until_total. intros I2 D2 _.
  by apply checkIndexPair_total.
Qed.

(** A class is traversed to its end or to the first unsafe pair; the
    members visited are erased from [CheckDeps]. *)
Lemma checkMembers_total members : forall st,
  Forall (checkable IR SE DL L Strides) members ->
  exists r st',
    DepChecker.checkMembers IR SE DL Params L Strides members st
    = Some (r, st') /\
    st'.1 ⊆ st.1 /\
    (r = false -> forall a, a ∈ members -> a ∉ st'.1).
Proof.
  induction members as [|AI rest IH]; intros st Hall.
  - exists false, st. split; [done|]. split; [done|].
    intros _ a []%elem_of_nil.
  - apply Forall_cons in Hall as [HA Hrest]. simpl.
    destruct (iterate_until_total
                (fun OI D => DepChecker.checkAccessPair IR SE DL Params L
                               Strides AI OI D) rest) with (s := st.2)
      as [[[] D1] ->].
    { intros OI D Hin. apply checkAccessPair_total; [done|].
      by eapply Forall_forall in Hrest. }
    + eexists _, _. split; [done|]. simpl.
      split; [by apply subseteq_difference_l|done].
    + destruct (IH (st.1 ∖ {[AI]}, D1) Hrest)
        as (r & st' & -> & Hsub & Hgone).
      exists r, st'. split; [done|]. simpl in Hsub.
      split; [etrans; [exact Hsub|by apply subseteq_difference_l]|].
      intros Hr a [->|Hin]%elem_of_cons; [|by apply Hgone].
      intros [_ Hn]%Hsub%elem_of_difference.
      by apply Hn, elem_of_singleton.
Qed.

Lemma find_is_Some {A} (f : A -> bool) (l : list A) x :
  x ∈ l -> f x = true -> is_Some (find f l).
Proof.
  intros Hin Hx. destruct (find f l) eqn:Hf; [by eexists|].
  apply list_elem_of_In in Hin.
  pose proof (find_none f l Hf x Hin). congruence.
Qed.

(** The class of the leader of an access is the class of the access. *)
Lemma members_of_leader E Cur Leader :
  disjointClasses E ->
  EC.getLeaderValue E Cur = Some Leader ->
  exists c, EC.members E Leader = Some c /\ Cur ∈ c /\ c ∈ E.
Proof.
  intros Hdis. unfold EC.getLeaderValue, EC.members, EC.findClass.
  destruct (find _ E) as [c|] eqn:Hc; [|discriminate]. simpl. intros Hhead.
  apply find_some in Hc as [HcE HCur].
  apply list_elem_of_In in HcE. apply bool_decide_eq_true in HCur.
  assert (HL : Leader ∈ c).
  { destruct c; [discriminate|]. injection Hhead as ->. left. }
  destruct (find_is_Some (fun c => bool_decide (Leader ∈ c)) E c HcE)
    as [c' Hc']; [by apply bool_decide_eq_true|].
  rewrite Hc'. apply find_some in Hc' as [Hc'E HL'].
  apply list_elem_of_In in Hc'E. apply bool_decide_eq_true in HL'.
  rewrite (Hdis c' c Leader Hc'E HcE HL' HL). eauto.
Qed.

Lemma checkAll_total E fuel : forall st,
  disjointClasses E ->
  (forall c, c ∈ E -> Forall (checkable IR SE DL L Strides) c) ->
  (forall a, a ∈ st.1 -> is_Some (EC.getLeaderValue E a)) ->
  (size st.1 <= fuel)%nat ->
  is_Some (DepChecker.checkAll IR SE DL Params L fuel E Strides st).
Proof.
  induction fuel as [|fuel IH]; intros st Hdis Hchk Hin Hsize.
  - apply Nat.le_0_r, size_empty_inv, leibniz_equiv in Hsize.
    simpl. rewrite (proj2 (begin_None IR st.1) Hsize). by eexists.
  - simpl. destruct (SmallPtrSet.begin IR st.1) as [Cur|] eqn:Hel;
      [|by eexists].
    assert (HCur : Cur ∈ st.1) by (by apply begin_Some in Hel as [? _]).
    destruct (Hin Cur HCur) as [Leader HL]. rewrite HL. simpl.
    destruct (members_of_leader E Cur Leader Hdis HL) as (c & -> & HCc & HcE).
    simpl.
    destruct (checkMembers_total c st (Hchk c HcE))
      as ([] & st' & -> & Hsub & Hgone); [by eexists|].
    apply IH; [done..| |].
    + intros a Ha. apply Hin, Hsub, Ha.
    + assert (st'.1 ⊂ st.1).
      { split; [done|]. intros Hsup. by apply (Hgone eq_refl Cur HCc), Hsup. }
      apply subset_size in H. lia.
Qed.

(** The dependence checker answers on every well-formed input: the fuel of
    the model is enough and nothing undefined is evaluated. *)
Lemma areDepsSafe_total E CheckDeps D :
  disjointClasses E ->
  (forall c, c ∈ E -> Forall (checkable IR SE DL L Strides) c) ->
  (forall a, a ∈ CheckDeps -> is_Some (EC.getLeaderValue E a)) ->
  is_Some (DepChecker.areDepsSafe IR SE DL Params L E CheckDeps Strides D).
Proof.
  intros Hdis Hchk Hin. unfold DepChecker.areDepsSafe.
  destruct (checkAll_total E (size CheckDeps)
              (CheckDeps, DepChecker.set_MaxSafeDepDistBytes UINT_MAX D))
    as [[u st] ->]; try done.
Qed.

End Total.


(** The concrete environment meets the conditions under which the checker
    answers. *)
Lemma constantsFit_mkSE tbl : constantsFit (Example.mkSE tbl).
Proof.
  intros a b Val H. simpl in H. unfold Example.minus in H.
  repeat (match type of H with
          | context [match ?x with _ => _ end] => destruct x
          end; try discriminate);
    injection H as <-; simpl;
    (split; [lia|apply Z.mod_pos_bound; lia]).
Qed.

Lemma checkDeps_accesses1 :
  AccessAnalysis.CheckDeps Example.accesses1 = {[(10%positive, false)]} /\
  AccessAnalysis.DepCands Example.accesses1
  = [[(10%positive, false); (11%positive, true)]].
Proof. split; vm_compute; reflexivity. Qed.


(** ** Emitting the runtime check *)

(** C10: when the analysis needs no runtime check, the emission of the
    runtime check returns the pair of two null instructions and inserts no
    instruction. *)
Theorem addRuntimeCheck_not_needed
    (IR : IRContext) (SE : ScalarEvolution) (TheLoop : Loop) (E : Emitter)
    (LAI : LoopAccessInfo.t) :
  Need (LoopAccessInfo.PtrRtCheck LAI) = false ->
  LoopAccessInfo.addRuntimeCheck IR SE TheLoop E LAI = Some (None, None, []).
Proof.
  intros H. unfold LoopAccessInfo.addRuntimeCheck. rewrite H. reflexivity.
Qed.

Lemma addRuntimeCheck_not_needed_witness :
  LoopAccessInfo.addRuntimeCheck Example.IR_i32 Example.SE_dist8
    Example.loop2 Example.emitAll LoopAccessInfo.init
  = Some (None, None, []).
Proof.
  apply (addRuntimeCheck_not_needed Example.IR_i32 Example.SE_dist8
           Example.loop2 Example.emitAll LoopAccessInfo.init).
  reflexivity.
Defined.

(** When a runtime check is needed, as for the two arrays of [loop2], the
    emission inserts the bounds, the casts, the two comparisons and their
    conjunction, and the final [and] it returns. *)
Lemma addRuntimeCheck_needed_example :
  exists LAI F C Ins,
    LoopAccessInfo.LoopAccessInfo Example.IR_i32 Example.SE_two_bases
      Example.sizes Example.oneSet Example.DTall defaultParams Example.loop2
      0 ∅ = Some LAI /\
    LoopAccessInfo.CanVecMem LAI = true /\
    Need (LoopAccessInfo.PtrRtCheck LAI) = true /\
    LoopAccessInfo.addRuntimeCheck Example.IR_i32 Example.SE_two_bases
      Example.loop2 Example.emitAll LAI = Some (Some F, Some C, Ins) /\
    length Ins = 12%nat /\
    last Ins = Some C.
Proof.
  eexists _, _, _, _. split; [vm_compute; reflexivity|].
  split; [reflexivity|]. split; [reflexivity|].
  split; [vm_compute; reflexivity|]. split; reflexivity.
Qed.

(** ** Loops annotated parallel *)

Section Parallel.
Context (IR : IRContext) (SE : ScalarEvolution) (DL : DataLayout)
        (AA : AliasAnalysis) (DT : DominatorTree) (Params : VectorizerParams)
        (TheLoop : Loop).

Lemma sameVerdict_refl LAI : sameVerdict LAI LAI.
Proof. repeat split. Qed.

Lemma sameVerdict_trans LAI1 LAI2 LAI3 :
  sameVerdict LAI1 LAI2 -> sameVerdict LAI2 LAI3 -> sameVerdict LAI1 LAI3.
Proof. intros (? & ? & ?) (? & ? & ?). repeat split; congruence. Qed.

(** The scan accepts a plain access of a loop annotated parallel. *)
Lemma scan_plain_step (it : Instruction) s :
  isPlainAccess it = true ->
  exists s',
    LoopAccessInfo.scanInstruction true it s = Some (false, s') /\
    sameVerdict (LoopAccessInfo.scanInfo s) (LoopAccessInfo.scanInfo s') /\
    LoopAccessInfo.Stores s'
    = LoopAccessInfo.Stores s ++ (if isCollectedStore it then [it] else []).
Proof.
  unfold LoopAccessInfo.scanInstruction, isPlainAccess, isCollectedStore.
  intros Hit.
  destruct (mayReadFromMemory it); simpl.
  - destruct (Kind it) as [Ptr simple|Ptr simple|ID|]; try discriminate.
    + rewrite andb_false_r. eexists. split; [reflexivity|]. simpl.
      rewrite app_nil_r. repeat split.
    + rewrite Hit. exists s. rewrite app_nil_r. repeat split.
  - destruct (mayWriteToMemory it); simpl.
    + destruct (Kind it) as [Ptr simple|Ptr simple|ID|]; try discriminate.
      rewrite andb_false_r. eexists. split; [reflexivity|]. repeat split.
    + exists s. rewrite app_nil_r. repeat split.
Qed.

Lemma scan_plain (insts : list Instruction) : forall s,
  forallb isPlainAccess insts = true ->
  exists s',
    iterate_until (LoopAccessInfo.scanInstruction true) insts s
    = Some (false, s') /\
    sameVerdict (LoopAccessInfo.scanInfo s) (LoopAccessInfo.scanInfo s') /\
    LoopAccessInfo.Stores s'
    = LoopAccessInfo.Stores s
      ++ filter (fun it => isCollectedStore it = true) insts.
Proof.
  induction insts as [|it insts IH]; intros s Hall.
  - exists s. simpl. rewrite app_nil_r. repeat split.
  - simpl in Hall. apply andb_true_iff in Hall as [Hit Hall].
    destruct (scan_plain_step it s Hit) as (s1 & Hstep & Hsame1 & Hst1).
    destruct (IH s1 Hall) as (s' & Hrun & Hsame & Hst).
    exists s'. simpl. rewrite Hstep. split; [exact Hrun|].
    split; [eapply sameVerdict_trans; eassumption|].
    rewrite Hst, Hst1, <- app_assoc. f_equal.
    destruct (isCollectedStore it) eqn:Hc.
    + rewrite filter_cons_True by done. done.
    + rewrite filter_cons_False by (rewrite Hc; done). done.
Qed.

(** The stores loop on stores to addresses that vary in the loop. *)
Lemma registerStores_plain (stores : list Instruction) : forall p,
  Forall (fun it => exists Ptr simple,
            Kind it = StoreInst Ptr simple /\
            LoopAccessInfo.isUniform SE TheLoop Ptr = false) stores ->
  exists p',
    iterate_until (LoopAccessInfo.registerStore SE AA DT TheLoop) stores p
    = Some (false, p') /\
    LoopAccessInfo.ptrInfo p' = LoopAccessInfo.ptrInfo p.
Proof.
  induction stores as [|it stores IH]; intros p Hall.
  - exists p. done.
  - apply Forall_cons in Hall as [(Ptr & simple & Hk & Hu) Hall].
    simpl. unfold LoopAccessInfo.registerStore at 1.
    unfold LoopAccessInfo.storePointer. rewrite Hk. simpl. rewrite Hu.
    case_bool_decide.
    + edestruct IH as (p' & Hrun & Hinfo); [exact Hall|].
      exists p'. split; [exact Hrun|]. rewrite Hinfo. done.
    + apply IH, Hall.
Qed.

Lemma canAnalyzeLoop_true LAI LAI' :
  LoopAccessInfo.canAnalyzeLoop SE TheLoop LAI = Some (true, LAI') ->
  LAI' = LAI.
Proof.
  unfold LoopAccessInfo.canAnalyzeLoop, LoopAccessInfo.emitAnalysis.
  intros H.
  repeat (match type of H with
          | context [if ?c then _ else _] => destruct c
          | context [match ?x with _ => _ end] => destruct x
          end; simpl in H; try discriminate);
    by injection H as <-.
Qed.

End Parallel.

(** C7 (amended): for every loop annotated parallel that passes the
    loop-shape preconditions, whose instructions that may read memory are
    loads or calls of recognised intrinsics, whose other instructions that
    may write memory are stores, and none of whose stores writes to a
    loop-invariant address, the analysis answers that the loop can be
    vectorized, without a runtime check and without a report, whatever the
    pointers of its accesses are. *)
Theorem parallel_loop_accepted
    (IR : IRContext) (SE : ScalarEvolution) (DL : DataLayout)
    (AA : AliasAnalysis) (DT : DominatorTree) (Params : VectorizerParams)
    (TheLoop : Loop) (indet : Z) (Strides : ValueToValueMap) :
  isAnnotatedParallel TheLoop = true ->
  fst <$> LoopAccessInfo.canAnalyzeLoop SE TheLoop LoopAccessInfo.init
  = Some true ->
  forallb isPlainAccess (concat (getBlocks TheLoop)) = true ->
  noUniformStore SE TheLoop = true ->
  exists LAI,
    LoopAccessInfo.LoopAccessInfo IR SE DL AA DT Params TheLoop indet Strides
    = Some LAI /\
    LoopAccessInfo.CanVecMem LAI = true /\
    Need (LoopAccessInfo.PtrRtCheck LAI) = false /\
    LoopAccessInfo.Report LAI = None.
Proof.
  intros Hpar Hshape Hplain Hunif.
  unfold LoopAccessInfo.LoopAccessInfo.
  destruct (LoopAccessInfo.canAnalyzeLoop SE TheLoop LoopAccessInfo.init)
    as [[ok LAI0]|] eqn:Hcan; [|discriminate].
  injection Hshape as ->. apply canAnalyzeLoop_true in Hcan as ->. simpl.
  unfold LoopAccessInfo.analyzeLoop, LoopAccessInfo.collectAccesses.
  rewrite Hpar.
  edestruct (scan_plain (concat (getBlocks TheLoop))) as (s & -> & Hsame & Hst);
    [exact Hplain|].
  simpl in Hsame, Hst. simpl.
  destruct Hsame as (HR & HC & HRep).
  case_bool_decide as Hnil.
  { eexists. split; [reflexivity|]. simpl. rewrite HR, HRep. done. }
  unfold LoopAccessInfo.registerStores.
  edestruct (registerStores_plain SE AA DT TheLoop (LoopAccessInfo.Stores s))
    as (p & -> & Hinfo).
  { rewrite Hst. apply Forall_forall. intros it [Hc Hin]%list_elem_of_filter.
    unfold noUniformStore in Hunif. rewrite forallb_forall in Hunif.
    apply list_elem_of_In, Hunif in Hin. rewrite Hc in Hin. simpl in Hin.
    unfold isCollectedStore in Hc.
    destruct (Kind it) as [|Ptr simple| |]; try (by rewrite andb_false_r in Hc).
    exists Ptr, simple. split; [done|]. by apply negb_true_iff. }
  simpl. eexists. split; [reflexivity|]. simpl in *. rewrite Hinfo. simpl.
  rewrite HR, HRep. done.
Qed.

Lemma parallel_loop_accepted_witness :
  exists LAI,
    LoopAccessInfo.LoopAccessInfo Example.IR_i32 Example.SE_dist8
      Example.sizes Example.oneSet Example.DTall defaultParams
      Example.loop_parallel 0 ∅ = Some LAI /\
    LoopAccessInfo.CanVecMem LAI = true /\
    Need (LoopAccessInfo.PtrRtCheck LAI) = false /\
    LoopAccessInfo.Report LAI = None.
Proof.
  apply (parallel_loop_accepted Example.IR_i32 Example.SE_dist8
           Example.sizes Example.oneSet Example.DTall defaultParams
           Example.loop_parallel 0 ∅); reflexivity.
Defined.

(** The claim C7 as it is written fails on a loop annotated parallel that
    passes the loop-shape preconditions and stores to a loop-invariant
    address: the analysis answers that it cannot be vectorized. *)
Lemma parallel_uniform_store_counterexample :
  isAnnotatedParallel Example.loop_uniform_store = true /\
  LoopAccessInfo.canAnalyzeLoop Example.SE_uniform Example.loop_uniform_store
    LoopAccessInfo.init = Some (true, LoopAccessInfo.init) /\
  exists LAI,
    LoopAccessInfo.LoopAccessInfo Example.IR_i32 Example.SE_uniform
      Example.sizes Example.oneSet Example.DTall defaultParams
      Example.loop_uniform_store 0 ∅ = Some LAI /\
    LoopAccessInfo.CanVecMem LAI = false.
Proof.
  split; [reflexivity|]. split; [reflexivity|].
  eexists. split; [reflexivity|]. reflexivity.
Qed.

(** ** Read-only pointers *)

Section ReadOnly.

Context (IR : IRContext) (SE : ScalarEvolution) (DL : DataLayout)
        (AA : AliasAnalysis) (DT : DominatorTree) (TheLoop : Loop)
        (Strides : ValueToValueMap).

Lemma registerStores_seen (stores : list Instruction) : forall p p',
  iterate_until (LoopAccessInfo.registerStore SE AA DT TheLoop) stores p
  = Some (false, p') ->
  AccessAnalysis.ReadOnlyPtr (LoopAccessInfo.Accesses p')
  = AccessAnalysis.ReadOnlyPtr (LoopAccessInfo.Accesses p) /\
  forall x, x ∈ LoopAccessInfo.Seen p' <->
            x ∈ LoopAccessInfo.Seen p \/ isStoreOf stores x.
Proof.
  induction stores as [|ST stores IH]; intros p p' H.
  - injection H as <-. split; [done|]. intros x. split; [auto|].
    intros [?|(? & []%elem_of_nil & _)]. done.
  - simpl in H.
    destruct (LoopAccessInfo.registerStore SE AA DT TheLoop ST p)
      as [[[] p1]|] eqn:Hst; try discriminate.
    apply IH in H as [HRO Hseen].
    unfold LoopAccessInfo.registerStore in Hst.
    destruct (LoopAccessInfo.storePointer ST) as [Ptr|] eqn:HPtr;
      [|discriminate].
    simpl in Hst.
    destruct (LoopAccessInfo.isUniform SE TheLoop Ptr).
    { unfold LoopAccessInfo.reject in Hst.
      destruct (LoopAccessInfo.emitAnalysis _ _); discriminate. }
    assert (Hp1 :
      AccessAnalysis.ReadOnlyPtr (LoopAccessInfo.Accesses p1)
      = AccessAnalysis.ReadOnlyPtr (LoopAccessInfo.Accesses p) /\
      forall x, x ∈ LoopAccessInfo.Seen p1 <->
                x ∈ LoopAccessInfo.Seen p \/ x = Ptr).
    { case_bool_decide as Hin; injection Hst as <-; simpl.
      - split; [done|]. intros x.
        rewrite elem_of_union, elem_of_singleton. tauto.
      - split; [done|]. intros x. split; [auto|].
        intros [?| ->]; done. }
    destruct Hp1 as [HRO1 Hseen1]. split; [congruence|].
    intros x. rewrite Hseen, Hseen1. unfold isStoreOf. split.
    + intros [[?| ->]|(ST' & Hin & HST')]; [auto| |].
      * right. exists ST. split; [left|done].
      * right. exists ST'. split; [by right|done].
    + intros [?|(ST' & Hin & HST')]; [auto|].
      apply elem_of_cons in Hin as [->|Hin].
      * left. right. congruence.
      * right. exists ST'. done.
Qed.

Lemma registerLoads_readonly (loads : list Instruction) : forall p p',
  LoopAccessInfo.registerLoads IR SE DL AA DT TheLoop Strides loads p
  = Some p' ->
  forall x,
    x ∈ AccessAnalysis.ReadOnlyPtr (LoopAccessInfo.Accesses p') <->
    x ∈ AccessAnalysis.ReadOnlyPtr (LoopAccessInfo.Accesses p) \/
    (isLoadOf loads x /\
     (x ∉ LoopAccessInfo.Seen p \/
      isStridedPtr IR SE DL x (getLoopId TheLoop) Strides = Some 0)).
Proof.
  unfold LoopAccessInfo.registerLoads.
  induction loads as [|LD loads IH]; intros p p' H x.
  - injection H as <-. split; [auto|].
    intros [?|[(? & []%elem_of_nil & _) _]]. done.
  - simpl in H.
    destruct (LoopAccessInfo.registerLoad IR SE DL AA DT TheLoop Strides LD p)
      as [p1|] eqn:Hld; [|discriminate].
    rewrite (IH _ _ H x). clear IH H.
    unfold LoopAccessInfo.registerLoad in Hld.
    destruct (LoopAccessInfo.loadPointer LD) as [Ptr|] eqn:HPtr;
      [|discriminate].
    simpl in Hld.
    assert (Hp1 : exists ro : bool,
      (ro = true <-> Ptr ∉ LoopAccessInfo.Seen p \/
         isStridedPtr IR SE DL Ptr (getLoopId TheLoop) Strides = Some 0) /\
      (forall y, y ∈ AccessAnalysis.ReadOnlyPtr (LoopAccessInfo.Accesses p1)
         <-> y ∈ AccessAnalysis.ReadOnlyPtr (LoopAccessInfo.Accesses p)
             \/ (ro = true /\ y = Ptr)) /\
      (forall y, y ∈ LoopAccessInfo.Seen p1
         <-> y ∈ LoopAccessInfo.Seen p \/ y = Ptr)).
    { case_bool_decide as Hin.
      - injection Hld as <-. exists true. simpl.
        split; [tauto|].
        split; intros y; rewrite elem_of_union, elem_of_singleton; tauto.
      - destruct (isStridedPtr IR SE DL Ptr (getLoopId TheLoop) Strides)
          as [s|] eqn:Hs; [|discriminate].
        simpl in Hld. injection Hld as <-. exists (s =? 0). simpl.
        split; [|split].
        + rewrite Z.eqb_eq. split; [intros ->; auto|].
          intros [?|[= ->]]; done.
        + intros y. destruct (s =? 0);
            rewrite ?elem_of_union, ?elem_of_singleton; intuition congruence.
        + intros y. rewrite elem_of_union, elem_of_singleton.
          intuition congruence. }
    destruct Hp1 as (ro & Hro & HRO1 & Hseen1).
    rewrite HRO1, Hseen1. unfold isLoadOf. split.
    + intros [[?|[Hr ->]]|[(LD' & Hin & HLD') Hx]]; [auto| |].
      * right. split; [exists LD; split; [left|done]|]. by apply Hro.
      * right. split; [exists LD'; split; [by right|done]|].
        destruct Hx as [Hx|Hx]; [left|by right]. tauto.
    + intros [?|[(LD' & Hin & HLD') Hx]]; [auto|].
      destruct (decide (x = Ptr)) as [->|Hne].
      * left. right. split; [|done]. by apply Hro.
      * right. apply elem_of_cons in Hin as [->|Hin]; [congruence|].
        split; [by exists LD'|]. destruct Hx as [Hx|Hx]; [left|by right].
        tauto.
Qed.

Lemma registerLoads_total (loads : list Instruction) : forall p,
  Forall (fun LD => exists Ptr,
            LoopAccessInfo.loadPointer LD = Some Ptr /\
            is_Some (isStridedPtr IR SE DL Ptr (getLoopId TheLoop) Strides))
         loads ->
  is_Some (LoopAccessInfo.registerLoads IR SE DL AA DT TheLoop Strides loads p).
Proof.
  unfold LoopAccessInfo.registerLoads.
  induction loads as [|LD loads IH]; intros p Hall; [by eexists|].
  apply Forall_cons in Hall as [(Ptr & HPtr & [s Hs]) Hall]. simpl.
  unfold LoopAccessInfo.registerLoad at 1. rewrite HPtr. simpl. rewrite Hs.
  simpl. case_bool_decide; apply IH, Hall.
Qed.

End ReadOnly.

(** C6 (amended): after the driver has registered the stores and the loads
    of the loop, a pointer is in the read-only set if and only if a load
    goes through it and either no store goes through it or the stride
    analyzer finds no constant stride for it (stride 0); a load through a
    pointer that is stored through and has a non-zero stride is treated as
    read-write. *)
Theorem readOnlyPtr_classification
    (IR : IRContext) (SE : ScalarEvolution) (DL : DataLayout)
    (AA : AliasAnalysis) (DT : DominatorTree) (TheLoop : Loop)
    (Strides : ValueToValueMap) (Stores Loads : list Instruction)
    (LAI : LoopAccessInfo.t) (p : LoopAccessInfo.PtrState) :
  LoopAccessInfo.registerStores SE AA DT TheLoop Stores LAI = Some (false, p) ->
  Forall (fun LD => exists Ptr,
            LoopAccessInfo.loadPointer LD = Some Ptr /\
            is_Some (isStridedPtr IR SE DL Ptr (getLoopId TheLoop) Strides))
         Loads ->
  exists p',
    LoopAccessInfo.registerLoads IR SE DL AA DT TheLoop Strides Loads p
    = Some p' /\
    forall x,
      x ∈ AccessAnalysis.ReadOnlyPtr (LoopAccessInfo.Accesses p') <->
      isLoadOf Loads x /\
      (~ isStoreOf Stores x \/
       isStridedPtr IR SE DL x (getLoopId TheLoop) Strides = Some 0).
Proof.
  intros Hst Hloads.
  destruct (registerLoads_total IR SE DL AA DT TheLoop Strides Loads p Hloads)
    as [p' Hld].
  exists p'. split; [exact Hld|]. intros x.
  rewrite (registerLoads_readonly _ _ _ _ _ _ _ _ _ _ Hld x).
  apply registerStores_seen in Hst as [HRO Hseen]. simpl in HRO, Hseen.
  rewrite HRO, Hseen.
  pose proof (not_elem_of_empty (C:=gset Value) x). tauto.
Qed.

Lemma readOnlyPtr_classification_witness :
  exists p',
    LoopAccessInfo.registerLoads Example.IR_i32 Example.SE_dist8 Example.sizes
      Example.oneSet Example.DTall Example.loop2 ∅
      [Example.ld 20%positive 10%positive] Example.stored11 = Some p' /\
    forall x,
      x ∈ AccessAnalysis.ReadOnlyPtr (LoopAccessInfo.Accesses p') <->
      isLoadOf [Example.ld 20%positive 10%positive] x /\
      (~ isStoreOf [Example.st 21%positive 11%positive] x \/
       isStridedPtr Example.IR_i32 Example.SE_dist8 Example.sizes x
         (getLoopId Example.loop2) ∅ = Some 0).
Proof.
  apply (readOnlyPtr_classification Example.IR_i32 Example.SE_dist8
           Example.sizes Example.oneSet Example.DTall Example.loop2 ∅
           [Example.st 21%positive 11%positive]
           [Example.ld 20%positive 10%positive] LoopAccessInfo.init
           Example.stored11).
  - vm_compute. reflexivity.
  - repeat constructor. exists 10%positive. split; [reflexivity|].
    exists 1. reflexivity.
Defined.

(** The claim C6 as it is written fails on a load whose pointer has no
    constant stride and is not stored through: the access is not
    consecutive and the pointer is classified read-only. *)
Lemma readOnlyPtr_counterexample :
  exists p p',
    LoopAccessInfo.registerStores Example.SE_quadratic_load Example.oneSet
      Example.DTall Example.loop2 [Example.st 21%positive 11%positive]
      LoopAccessInfo.init = Some (false, p) /\
    LoopAccessInfo.registerLoads Example.IR_i32 Example.SE_quadratic_load
      Example.sizes Example.oneSet Example.DTall Example.loop2 ∅
      [Example.ld 20%positive 10%positive] p = Some p' /\
    10%positive ∈ AccessAnalysis.ReadOnlyPtr (LoopAccessInfo.Accesses p') /\
    isStridedPtr Example.IR_i32 Example.SE_quadratic_load Example.sizes
      10%positive (getLoopId Example.loop2) ∅ = Some 0.
Proof.
  eexists _, _. split; [reflexivity|]. split; [reflexivity|].
  split; [|reflexivity]. simpl. by apply elem_of_union_l, elem_of_singleton.
Qed.

(** ** The number of comparisons *)

Lemma u32_add_r a b : u32 (a + u32 b) = u32 (a + b).
Proof. unfold u32. apply Zplus_mod_idemp_r. Qed.

Lemma u32_product w r :
  u32 (u32 w * u32 (u32 (u32 r + u32 w) - 1)) = u32 (w * (r + w - 1)).
Proof.
  unfold u32.
  rewrite <- Zplus_mod, <- Zminus_mod_idemp_l, Z.mod_mod by lia.
  rewrite Zminus_mod_idemp_l.
  rewrite Zmult_mod_idemp_l, Zmult_mod_idemp_r. done.
Qed.

Section Comparisons.

Context (IR : IRContext) (SE : ScalarEvolution) (DL : DataLayout)
        (AA : AliasAnalysis) (A : AccessAnalysis.t) (TheLoop : LoopId)
        (StridesMap : ValueToValueMap)
        (ShouldCheckStride IsDepCheckNeeded : bool).

Lemma checkPointer_counts ASId Ptr s s' :
  AccessAnalysis.checkPointer IR SE DL A TheLoop StridesMap ShouldCheckStride
    IsDepCheckNeeded ASId Ptr s = Some s' ->
  AccessAnalysis.NumWritePtrChecks s'
  = (if isWritten A Ptr then u32 (AccessAnalysis.NumWritePtrChecks s + 1)
     else AccessAnalysis.NumWritePtrChecks s) /\
  AccessAnalysis.NumReadPtrChecks s'
  = (if isWritten A Ptr then AccessAnalysis.NumReadPtrChecks s
     else u32 (AccessAnalysis.NumReadPtrChecks s + 1)).
Proof.
  unfold AccessAnalysis.checkPointer, isWritten. intros H.
  repeat (match type of H with
          | context [mbind _ ?x] => destruct x eqn:?; simpl in H
          | context [if ?c then _ else _] =>
              lazymatch c with
              | bool_decide _ => fail
              | _ => destruct c eqn:?
              end
          | context [let '(_, _) := ?x in _] => destruct x eqn:?
          end; simpl in H; try discriminate);
    injection H as <-; simpl; done.
Qed.

Lemma checkPointers_counts ASId (AS : list Value) : forall s s',
  u32 (AccessAnalysis.NumWritePtrChecks s)
  = AccessAnalysis.NumWritePtrChecks s ->
  u32 (AccessAnalysis.NumReadPtrChecks s)
  = AccessAnalysis.NumReadPtrChecks s ->
  for_each (AccessAnalysis.checkPointer IR SE DL A TheLoop StridesMap
              ShouldCheckStride IsDepCheckNeeded ASId) AS s = Some s' ->
  AccessAnalysis.NumWritePtrChecks s'
  = u32 (AccessAnalysis.NumWritePtrChecks s + writes A AS) /\
  AccessAnalysis.NumReadPtrChecks s'
  = u32 (AccessAnalysis.NumReadPtrChecks s + reads A AS).
Proof.
  induction AS as [|Ptr AS IH]; intros s s' HW HR H.
  - injection H as <-. unfold writes, reads. simpl. rewrite !Z.add_0_r. done.
  - simpl in H.
    destruct (AccessAnalysis.checkPointer _ _ _ _ _ _ _ _ _ Ptr s)
      as [s1|] eqn:Hstep; [|discriminate].
    apply checkPointer_counts in Hstep as [HW1 HR1].
    assert (HWin : u32 (AccessAnalysis.NumWritePtrChecks s1)
                   = AccessAnalysis.NumWritePtrChecks s1).
    { rewrite HW1. destruct (isWritten A Ptr); [|done].
      unfold u32. by rewrite Z.mod_mod. }
    assert (HRin : u32 (AccessAnalysis.NumReadPtrChecks s1)
                   = AccessAnalysis.NumReadPtrChecks s1).
    { rewrite HR1. destruct (isWritten A Ptr); [done|].
      unfold u32. by rewrite Z.mod_mod. }
    destruct (IH s1 s' HWin HRin H) as [-> ->].
    rewrite HW1, HR1. unfold writes, reads.
    destruct (isWritten A Ptr) eqn:Hw.
    + rewrite filter_cons_True by done.
      rewrite (filter_cons_False _ Ptr) by (rewrite Hw; done).
      simpl length. rewrite Nat2Z.inj_succ.
      split; [|done]. unfold u32. rewrite Zplus_mod_idemp_l. f_equal. lia.
    + rewrite filter_cons_False by (rewrite Hw; done).
      rewrite (filter_cons_True _ Ptr) by done.
      simpl length. rewrite Nat2Z.inj_succ.
      split; [done|]. unfold u32. rewrite Zplus_mod_idemp_l. f_equal. lia.
Qed.

Lemma checkAliasSet_comparisons (AS : list Value) b b' :
  AccessAnalysis.checkAliasSet IR SE DL A TheLoop StridesMap ShouldCheckStride
    IsDepCheckNeeded AS b = Some b' ->
  exists s,
    for_each (AccessAnalysis.checkPointer IR SE DL A TheLoop StridesMap
                ShouldCheckStride IsDepCheckNeeded (AccessAnalysis.bASId b))
             AS (enterSet b) = Some s /\
    AccessAnalysis.bCanDoRT b' = AccessAnalysis.CanDoRT s /\
    AccessAnalysis.bNumComparisons b'
    = u32 (AccessAnalysis.bNumComparisons b
           + if IsDepCheckNeeded && AccessAnalysis.bCanDoRT b'
                && (AccessAnalysis.RunningDepId s =? 2)
             then 0
             else writes A AS * (reads A AS + writes A AS - 1)).
Proof.
  unfold AccessAnalysis.checkAliasSet. fold (enterSet b). intros H.
  destruct (for_each _ AS (enterSet b)) as [s|] eqn:Hs; [|discriminate].
  injection H as <-. exists s. split; [done|]. split; [done|]. simpl.
  unfold AccessAnalysis.setComparisons.
  destruct (IsDepCheckNeeded && AccessAnalysis.CanDoRT s
            && (AccessAnalysis.RunningDepId s =? 2)); [done|].
  apply checkPointers_counts in Hs as [-> ->]; [|done..].
  simpl. rewrite !Z.add_0_l, u32_product, u32_add_r. done.
Qed.

End Comparisons.

Section Threshold.

Context (IR : IRContext) (SE : ScalarEvolution) (DL : DataLayout)
        (AA : AliasAnalysis) (Params : VectorizerParams) (TheLoop : Loop)
        (Strides : ValueToValueMap).

Lemma checkMemory_threshold Accesses Accesses' Checker LAI CanDoRT R N :
  AccessAnalysis.buildDependenceSets IR AA Accesses = Some Accesses' ->
  AccessAnalysis.isRTCheckNeeded Accesses' = true ->
  AccessAnalysis.canCheckPtrAtRT IR SE DL AA Accesses'
    (LoopAccessInfo.PtrRtCheck LAI) (getLoopId TheLoop) Strides false
  = Some (CanDoRT, R, N) ->
  0 <= RuntimeMemoryCheckThreshold Params < N ->
  LoopAccessInfo.Report LAI = None ->
  exists LAI',
    LoopAccessInfo.checkMemory IR SE DL AA Params TheLoop Strides Accesses
      Checker LAI = Some LAI' /\
    LoopAccessInfo.CanVecMem LAI' = false /\
    LoopAccessInfo.PtrRtCheck LAI' = RtCheck.empty_check /\
    LoopAccessInfo.Report LAI'
    = Some (Message "cannot identify array bounds").
Proof.
  intros Hbuild Hneed Hcan HN Hrep.
  unfold LoopAccessInfo.checkMemory. rewrite Hbuild. simpl.
  rewrite Hneed, Hcan. simpl.
  destruct (Z.eqb_spec N 0); [lia|]. simpl.
  unfold LoopAccessInfo.tooManyChecks.
  destruct (Z.ltb_spec (RuntimeMemoryCheckThreshold Params) N); [|lia].
  rewrite orb_true_r. simpl.
  unfold LoopAccessInfo.emitAnalysis. simpl. rewrite Hrep. simpl.
  eexists. split; [reflexivity|]. done.
Qed.

Lemma retryWithRuntimeCheck_threshold Accesses LAI CanDoRT R N :
  AccessAnalysis.canCheckPtrAtRT IR SE DL AA
    (AccessAnalysis.resetDepChecks Accesses)
    (RtCheck.set_Need true RtCheck.empty_check) (getLoopId TheLoop) Strides
    true = Some (CanDoRT, R, N) ->
  RuntimeMemoryCheckThreshold Params < N ->
  LoopAccessInfo.Report LAI = None ->
  exists LAI',
    LoopAccessInfo.retryWithRuntimeCheck IR SE DL AA Params TheLoop Strides
      Accesses LAI = Some LAI' /\
    LoopAccessInfo.CanVecMem LAI' = false /\
    LoopAccessInfo.PtrRtCheck LAI' = RtCheck.empty_check.
Proof.
  intros Hcan HN Hrep.
  unfold LoopAccessInfo.retryWithRuntimeCheck, RtCheck.reset.
  rewrite Hcan. simpl.
  unfold LoopAccessInfo.tooManyChecks.
  destruct (Z.ltb_spec (RuntimeMemoryCheckThreshold Params) N); [|lia].
  rewrite orb_true_r. simpl.
  unfold LoopAccessInfo.emitAnalysis. simpl. rewrite Hrep. simpl.
  eexists. split; [reflexivity|]. done.
Qed.

End Threshold.

(** *** The running dependence-set id *)

Section Ids.

Context (IR : IRContext) (SE : ScalarEvolution) (DL : DataLayout)
        (A : AccessAnalysis.t) (TheLoop : LoopId)
        (StridesMap : ValueToValueMap) (ShouldCheckStride : bool).

Lemma checkPointer_countsIds ASId Ptr s s' :
  AccessAnalysis.checkPointer IR SE DL A TheLoop StridesMap ShouldCheckStride
    true ASId Ptr s = Some s' ->
  countsIds s -> AccessAnalysis.RunningDepId s + 1 < 2 ^ 32 ->
  countsIds s' /\
  AccessAnalysis.RunningDepId s' <= AccessAnalysis.RunningDepId s + 1.
Proof.
  unfold AccessAnalysis.checkPointer. intros H [Hrun Hnz] Hsmall.
  assert (Hpos : 0 <= AccessAnalysis.RunningDepId s) by lia.
  destruct (_ : option bool) as [Strided|]; [|discriminate]. simpl in H.
  destruct (hasComputableBounds IR SE StridesMap Ptr && Strided).
  2: { injection H as <-. simpl. split; [split; assumption|lia]. }
  destruct (EC.getLeaderValue _ _) as [Leader|]; [|discriminate].
  simpl in H.
  destruct (AccessAnalysis.DepSetId s !! Leader.1) as [id|] eqn:Hid; simpl in H.
  - destruct (Z.eqb_spec id 0) as [->|Hne]; [by apply Hnz in Hid|].
    simpl in H. destruct (RtCheck.insert _ _ _ _ _ _ _ _ _); [|discriminate].
    simpl in H. injection H as <-. simpl. split; [split; assumption|lia].
  - simpl in H. destruct (RtCheck.insert _ _ _ _ _ _ _ _ _); [|discriminate].
    simpl in H. injection H as <-. simpl.
    rewrite (u32_id (AccessAnalysis.RunningDepId s + 1)) by lia.
    split; [|lia]. unfold countsIds. simpl. split.
    + rewrite map_size_insert_None by done. lia.
    + intros k v. rewrite lookup_insert. case_decide.
      * intros [= <-]. lia.
      * apply Hnz.
Qed.

Lemma checkPointers_countsIds ASId (AS : list Value) : forall s s',
  for_each (AccessAnalysis.checkPointer IR SE DL A TheLoop StridesMap
              ShouldCheckStride true ASId) AS s = Some s' ->
  countsIds s ->
  AccessAnalysis.RunningDepId s + Z.of_nat (length AS) < 2 ^ 32 ->
  countsIds s'.
Proof.
  induction AS as [|Ptr AS IH]; intros s s' H Hinv Hsmall.
  - by injection H as <-.
  - simpl in H, Hsmall.
    destruct (AccessAnalysis.checkPointer _ _ _ _ _ _ _ _ _ Ptr s)
      as [s1|] eqn:Hstep; [|discriminate].
    apply checkPointer_countsIds in Hstep as [Hinv1 Hle]; [|done|lia].
    eapply IH; [exact H|exact Hinv1|lia].
Qed.

End Ids.

(** C9 (amended): for every alias set the runtime-check builder processes,
    the number of comparisons added is zero when the dependence check is
    needed, every pointer seen so far has computable bounds and exactly one
    dependence-set id was given in the set (the running id, one more than
    the number of leaders with an id, is 2); otherwise it is
    [writes * (reads + writes - 1)], in 32-bit arithmetic.  The
    analysis fails with an empty descriptor when the total exceeds
    [RuntimeMemoryCheckThreshold], on the first run of the builder as well
    as on the retry; the default threshold is 8. *)
Theorem comparisons_per_alias_set
    (IR : IRContext) (SE : ScalarEvolution) (DL : DataLayout)
    (AA : AliasAnalysis) (Params : VectorizerParams) :
  (forall A L Strides ShouldCheckStride IsDepCheckNeeded AS b b',
     AccessAnalysis.checkAliasSet IR SE DL A L Strides ShouldCheckStride
       IsDepCheckNeeded AS b = Some b' ->
     exists s,
       for_each (AccessAnalysis.checkPointer IR SE DL A L Strides
                   ShouldCheckStride IsDepCheckNeeded
                   (AccessAnalysis.bASId b))
                AS (enterSet b) = Some s /\
       AccessAnalysis.bCanDoRT b' = AccessAnalysis.CanDoRT s /\
       AccessAnalysis.bNumComparisons b'
       = u32 (AccessAnalysis.bNumComparisons b
              + if IsDepCheckNeeded && AccessAnalysis.bCanDoRT b'
                   && (AccessAnalysis.RunningDepId s =? 2)
                then 0
                else writes A AS * (reads A AS + writes A AS - 1))) /\
  (forall A L Strides ShouldCheckStride AS b s,
     1 + Z.of_nat (length AS) < 2 ^ 32 ->
     for_each (AccessAnalysis.checkPointer IR SE DL A L Strides
                 ShouldCheckStride true (AccessAnalysis.bASId b))
              AS (enterSet b) = Some s ->
     AccessAnalysis.RunningDepId s
     = 1 + Z.of_nat (size (AccessAnalysis.DepSetId s))) /\
  (forall TheLoop Strides Accesses Accesses' Checker LAI CanDoRT R N,
     AccessAnalysis.buildDependenceSets IR AA Accesses = Some Accesses' ->
     AccessAnalysis.isRTCheckNeeded Accesses' = true ->
     AccessAnalysis.canCheckPtrAtRT IR SE DL AA Accesses'
       (LoopAccessInfo.PtrRtCheck LAI) (getLoopId TheLoop) Strides false
     = Some (CanDoRT, R, N) ->
     0 <= RuntimeMemoryCheckThreshold Params < N ->
     LoopAccessInfo.Report LAI = None ->
     exists LAI',
       LoopAccessInfo.checkMemory IR SE DL AA Params TheLoop Strides Accesses
         Checker LAI = Some LAI' /\
       LoopAccessInfo.CanVecMem LAI' = false /\
       LoopAccessInfo.PtrRtCheck LAI' = RtCheck.empty_check /\
       LoopAccessInfo.Report LAI'
       = Some (Message "cannot identify array bounds")) /\
  (forall TheLoop Strides Accesses LAI CanDoRT R N,
     AccessAnalysis.canCheckPtrAtRT IR SE DL AA
       (AccessAnalysis.resetDepChecks Accesses)
       (RtCheck.set_Need true RtCheck.empty_check) (getLoopId TheLoop) Strides
       true = Some (CanDoRT, R, N) ->
     RuntimeMemoryCheckThreshold Params < N ->
     LoopAccessInfo.Report LAI = None ->
     exists LAI',
       LoopAccessInfo.retryWithRuntimeCheck IR SE DL AA Params TheLoop Strides
         Accesses LAI = Some LAI' /\
       LoopAccessInfo.CanVecMem LAI' = false /\
       LoopAccessInfo.PtrRtCheck LAI' = RtCheck.empty_check) /\
  RuntimeMemoryCheckThreshold defaultParams = 8.
Proof.
  split; [|split; [|split; [|split]]].
  - intros *. apply checkAliasSet_comparisons.
  - intros * Hlen Hrun.
    eapply checkPointers_countsIds in Hrun as [Hcount _]; [exact Hcount| |].
    + split; [reflexivity|]. intros Leader id. simpl.
      by rewrite lookup_empty.
    + simpl. lia.
  - intros *. apply checkMemory_threshold.
  - intros *. apply retryWithRuntimeCheck_threshold.
  - reflexivity.
Qed.

Lemma comparisons_per_alias_set_witness :
  exists s,
    for_each (AccessAnalysis.checkPointer Example.IR_i32 Example.SE_two_bases
                Example.sizes Example.accesses1 1%positive ∅ false true
                (AccessAnalysis.bASId Example.build0))
             [11%positive; 10%positive] (enterSet Example.build0) = Some s /\
    AccessAnalysis.bCanDoRT Example.built_two_bases
    = AccessAnalysis.CanDoRT s /\
    AccessAnalysis.bNumComparisons Example.built_two_bases
    = u32 (AccessAnalysis.bNumComparisons Example.build0
           + if true && AccessAnalysis.bCanDoRT Example.built_two_bases
                && (AccessAnalysis.RunningDepId s =? 2)
             then 0
             else writes Example.accesses1 [11%positive; 10%positive]
                  * (reads Example.accesses1 [11%positive; 10%positive]
                     + writes Example.accesses1 [11%positive; 10%positive]
                     - 1)).
Proof.
  pose proof (comparisons_per_alias_set Example.IR_i32 Example.SE_two_bases
                Example.sizes Example.oneSet defaultParams) as [Hset _].
  apply (Hset Example.accesses1 1%positive ∅ false true
           [11%positive; 10%positive] Example.build0 Example.built_two_bases).
  vm_compute. reflexivity.
Defined.

(** The claim C9 as it is written fails on an alias set of a written and a
    read pointer of one dependence set, the read one without computable
    bounds: the builder adds one comparison, not zero. *)
Lemma single_dependence_set_counterexample :
  AccessAnalysis.DepCands Example.accesses1
  = [[(10%positive, false); (11%positive, true)]] /\
  AccessAnalysis.isDependencyCheckNeeded Example.accesses1 = true /\
  exists b',
    AccessAnalysis.checkAliasSet Example.IR_i32 Example.SE_unknown_load
      Example.sizes Example.accesses1 1%positive ∅ false true
      [11%positive; 10%positive] Example.build0 = Some b' /\
    AccessAnalysis.bNumComparisons b' = 1.
Proof.
  split; [vm_compute; reflexivity|]. split; [vm_compute; reflexivity|].
  eexists. split; [vm_compute; reflexivity|]. reflexivity.
Qed.

(** * Further properties of the code *)

(** ** Further properties of the runtime-check descriptor *)

(** What [insert] appends. *)
Lemma insert_fields IR SE Lp Ptr W D A Strides R R' :
  RtCheck.insert IR SE Lp Ptr W D A Strides R = Some R' ->
  Need R' = Need R /\
  Pointers R' = Pointers R ++ [Ptr] /\
  IsWritePtr R' = IsWritePtr R ++ [W] /\
  DependencySetId R' = DependencySetId R ++ [D] /\
  AliasSetId R' = AliasSetId R ++ [A] /\
  exists Ops L Flags Start,
    replaceSymbolicStrideSCEV IR SE Strides Ptr None
    = SCEVAddRecExpr Ops L Flags /\
    head Ops = Some Start /\
    Starts R' = Starts R ++ [Start] /\
    Ends R' = Ends R
              ++ [evaluateAtIteration SE Ops L (getBackedgeTakenCount SE Lp)].
Proof.
  unfold RtCheck.insert.
  destruct (replaceSymbolicStrideSCEV _ _ _ _ _) as [| | | |Ops L Flags|];
    try discriminate.
  destruct (head Ops) as [Start|] eqn:Hhead; [|discriminate]. simpl.
  intros [= <-]. simpl. split_and!; try done.
  by exists Ops, L, Flags, Start.
Qed.

(** The verdict on a pair depends on the entries of the two pointers
    only. *)
Lemma needsChecking_ext R R' i j :
  IsWritePtr R' !! i = IsWritePtr R !! i ->
  IsWritePtr R' !! j = IsWritePtr R !! j ->
  DependencySetId R' !! i = DependencySetId R !! i ->
  DependencySetId R' !! j = DependencySetId R !! j ->
  AliasSetId R' !! i = AliasSetId R !! i ->
  AliasSetId R' !! j = AliasSetId R !! j ->
  RtCheck.needsChecking R' i j = RtCheck.needsChecking R i j.
Proof.
  unfold RtCheck.needsChecking. by intros -> -> -> -> -> ->.
Qed.


(** X2: on the pointers of a well-formed descriptor, the test whether a pair
    needs a check answers, does not depend on the order of the pair, and
    never asks to check a pointer against itself. *)
Theorem needsChecking_symmetric R i j :
  RtCheck.wf R ->
  (i < length (Pointers R))%nat -> (j < length (Pointers R))%nat ->
  is_Some (RtCheck.needsChecking R i j) /\
  RtCheck.needsChecking R i j = RtCheck.needsChecking R j i /\
  RtCheck.needsChecking R i i = Some false.
Proof.
  intros (_ & _ & HW & HD & HA) Hi Hj.
  destruct (lookup_of_wf (IsWritePtr R) _ i HW Hi) as [wi Hwi].
  destruct (lookup_of_wf (IsWritePtr R) _ j HW Hj) as [wj Hwj].
  destruct (lookup_of_wf (DependencySetId R) _ i HD Hi) as [di Hdi].
  destruct (lookup_of_wf (DependencySetId R) _ j HD Hj) as [dj Hdj].
  destruct (lookup_of_wf (AliasSetId R) _ i HA Hi) as [ai Hai].
  destruct (lookup_of_wf (AliasSetId R) _ j HA Hj) as [aj Haj].
  unfold RtCheck.needsChecking.
  rewrite Hwi, Hwj, Hdi, Hdj, Hai, Haj. simpl.
  rewrite (Z.eqb_sym dj di), (Z.eqb_sym aj ai), !Z.eqb_refl.
  split_and!.
  - destruct wi, wj; simpl; try (by eexists);
      destruct (di =? dj); try (by eexists);
      destruct (ai =? aj); by eexists.
  - by destruct wi, wj.
  - by destruct wi.
Qed.

(** ** Pointers with a constant stride *)

(** X3: a pointer for which the stride analyzer finds a non-zero stride can
    take part in a runtime check: its bounds are computable and it can be
    inserted into every descriptor.  The stride is the quotient of the
    constant step by the allocation size of the element, which divides the
    step; it is exact when the quotient fits 32 bits. *)
Theorem strided_pointer_checkable
    IR SE DL Ptr Lp Strides k W D A (R : RuntimePointerCheck)
    ElementType AddressSpace :
  isStridedPtr IR SE DL Ptr Lp Strides = Some k -> k <> 0 ->
  getType IR Ptr = PointerTy ElementType AddressSpace ->
  hasComputableBounds IR SE Strides Ptr = true /\
  is_Some (RtCheck.insert IR SE Lp Ptr W D A Strides R) /\
  exists Start C ARLoop Flags,
    replaceSymbolicStrideSCEV IR SE Strides Ptr None
    = SCEVAddRecExpr [Start; SCEVConstant C] ARLoop Flags /\
    let Size := s64 (getTypeAllocSize DL ElementType) in
    let StepVal := AP.getSExtValue C in
    Size <> 0 /\ k = s32 (Z.quot StepVal Size) /\
    (- 2 ^ 31 <= Z.quot StepVal Size < 2 ^ 31 -> StepVal = k * Size).
Proof.
  intros Hs Hk HT.
  destruct (isStridedPtr_nonzero _ _ _ _ _ _ _ Hs Hk)
    as (ET & AS & Start & C & ARLoop & Flags & HT' & _ & HSc & _ & Hsz & Hrem
        & Hq & _).
  rewrite HT in HT'. injection HT' as <- <-.
  split_and!.
  - unfold hasComputableBounds. by rewrite HSc.
  - unfold RtCheck.insert. rewrite HSc. simpl. by eexists.
  - exists Start, C, ARLoop, Flags. split; [done|]. simpl.
    split; [done|]. split; [done|]. intros Hfit.
    rewrite Hq. unfold s32. rewrite Z.mod_small by lia.
    pose proof (Z.quot_rem' (AP.getSExtValue C)
                  (s64 (getTypeAllocSize DL ElementType))) as Hqr.
    rewrite Hrem in Hqr. lia.
Qed.

(** ** Further properties of the store-to-load forwarding check *)

Lemma forward_scan_step fuel d nc vf lim :
  DepChecker.forward_scan (S fuel) d nc vf lim
  = if vf <=? lim then
      if vf =? 0 then None else
      if negb (d mod vf =? 0) && (d / vf <? nc)
      then Some (Z.shiftr vf 1)
      else DepChecker.forward_scan fuel d nc (u32 (vf * 2)) lim
    else Some lim.
Proof. reflexivity. Qed.

(** The loop never leaves a maximum above the limit it started with. *)
Lemma forward_scan_upper d nc lim fuel : forall vf m,
  0 <= vf ->
  DepChecker.forward_scan fuel d nc vf lim = Some m -> m <= lim.
Proof.
  induction fuel as [|fuel IH]; intros vf m Hvf H; [discriminate|].
  rewrite forward_scan_step in H.
  destruct (Z.leb_spec vf lim); [|injection H as <-; lia].
  destruct (vf =? 0); [discriminate|].
  destruct (negb _ && _).
  - injection H as <-. rewrite Z.shiftr_div_pow2 by lia.
    change (2 ^ 1) with 2. pose proof (Z.div_le_upper_bound vf 2 vf).
    assert (vf / 2 <= vf) by (apply Z.div_le_upper_bound; lia). lia.
  - eapply IH; [|exact H]. pose proof (u32_range (vf * 2)). lia.
Qed.

(** Past the first width, the loop leaves a maximum of at least half the
    width it continues with. *)
Lemma forward_scan_lower d nc lim lo fuel : forall vf m,
  lim < 2 ^ 31 -> lo <= lim -> 0 < vf -> 2 * lo <= vf ->
  DepChecker.forward_scan fuel d nc vf lim = Some m -> lo <= m.
Proof.
  induction fuel as [|fuel IH]; intros vf m Hlim Hlo Hvf Hle H; [discriminate|].
  rewrite forward_scan_step in H.
  destruct (Z.leb_spec vf lim); [|injection H as <-; lia].
  destruct (vf =? 0); [discriminate|].
  destruct (negb _ && _).
  - injection H as <-. rewrite Z.shiftr_div_pow2 by lia.
    change (2 ^ 1) with 2. apply Z.div_le_lower_bound; lia.
  - eapply IH; [done|done| | |exact H]; rewrite u32_id by lia; lia.
Qed.

(** A safe answer of the forwarding check leaves the maximum safe distance
    at two elements or more, and no answer raises it. *)
Lemma forwarding_safe_bounds d T D D' :
  DepChecker.couldPreventStoreLoadForward d T D = Some (false, D') ->
  u32 (2 * T) <= DepChecker.MaxSafeDepDistBytes D'
  <= DepChecker.MaxSafeDepDistBytes D.
Proof.
  unfold DepChecker.couldPreventStoreLoadForward. intros H.
  destruct (DepChecker.forward_scan _ _ _ _ _) as [m|] eqn:Hscan;
    [|discriminate].
  simpl in H.
  apply forward_scan_upper in Hscan; [|apply u32_range].
  assert (Hm : m <= DepChecker.MaxSafeDepDistBytes D).
  { destruct (Z.ltb_spec (DepChecker.MaxSafeDepDistBytes D)
                (u32 (MaxVectorWidth * T))); lia. }
  set (t2 := u32 (2 * T)) in *.
  destruct (Z.ltb_spec m t2); [discriminate|].
  destruct (_ && _); injection H as <-; simpl; lia.
Qed.

(** The forwarding check touches nothing of the checker but the maximum
    safe distance. *)
Lemma couldPreventStoreLoadForward_frame d T D r D' :
  DepChecker.couldPreventStoreLoadForward d T D = Some (r, D') ->
  DepChecker.Accesses D' = DepChecker.Accesses D /\
  DepChecker.InstMap D' = DepChecker.InstMap D /\
  DepChecker.AccessIdx D' = DepChecker.AccessIdx D /\
  DepChecker.ShouldRetryWithRuntimeCheck D'
  = DepChecker.ShouldRetryWithRuntimeCheck D.
Proof.
  unfold DepChecker.couldPreventStoreLoadForward.
  destruct (DepChecker.forward_scan _ _ _ _ _) as [m|]; [|discriminate].
  simpl. destruct (m <? _); [by intros [= <- <-]|].
  destruct (_ && _); by intros [= <- <-].
Qed.

(** X4: the forwarding check touches nothing of the checker but the maximum
    safe distance: an unsafe answer leaves the checker as it was, a safe
    answer leaves the maximum at two elements or more and does not raise
    it. *)
Theorem couldPreventStoreLoadForward_result d T D r D' :
  DepChecker.couldPreventStoreLoadForward d T D = Some (r, D') ->
  DepChecker.Accesses D' = DepChecker.Accesses D /\
  DepChecker.InstMap D' = DepChecker.InstMap D /\
  DepChecker.AccessIdx D' = DepChecker.AccessIdx D /\
  DepChecker.ShouldRetryWithRuntimeCheck D'
  = DepChecker.ShouldRetryWithRuntimeCheck D /\
  (r = true -> D' = D) /\
  (r = false ->
   u32 (2 * T) <= DepChecker.MaxSafeDepDistBytes D'
   <= DepChecker.MaxSafeDepDistBytes D).
Proof.
  intros H.
  assert (Hsafe := forwarding_safe_bounds d T D D').
  revert H Hsafe. unfold DepChecker.couldPreventStoreLoadForward.
  destruct (DepChecker.forward_scan _ _ _ _ _) as [m|]; [|discriminate].
  simpl. destruct (m <? _); [intros [= <- <-] _; by split_and!|].
  destruct (_ && _); intros [= <- <-] Hsafe; simpl; split_and!; try done;
    intros _; by apply Hsafe.
Qed.

(** X5: only the first width decides the verdict of the forwarding check: it
    answers unsafe exactly when the maximum safe distance is below two
    elements, or forwarding is broken at the width of two elements. *)
Theorem couldPreventStoreLoadForward_first_width d T D :
  0 < T < 2 ^ 25 ->
  exists D',
    DepChecker.couldPreventStoreLoadForward d T D
    = Some ((DepChecker.MaxSafeDepDistBytes D <? 2 * T)
            || negb (d mod (2 * T) =? 0) && (d / (2 * T) <? 8 * T), D').
Proof.
  intros HT.
  destruct (couldPreventStoreLoadForward_total d T D HT) as [[r D'] Hres].
  exists D'. rewrite Hres. f_equal. f_equal.
  revert Hres. unfold DepChecker.couldPreventStoreLoadForward, MaxVectorWidth.
  rewrite !u32_id by lia.
  set (M := DepChecker.MaxSafeDepDistBytes D).
  set (lim := if M <? 64 * T then M else 64 * T).
  assert (Hlim : lim <= M /\ lim <= 64 * T /\ (lim < 2 * T -> M < 2 * T)).
  { unfold lim. destruct (Z.ltb_spec M (64 * T)); lia. }
  unfold DepChecker.scan_fuel. rewrite forward_scan_step.
  generalize 32%nat. intros fuel.
  destruct (Z.leb_spec (2 * T) lim) as [Hle|Hgt]; simpl.
  - destruct (Z.eqb_spec (2 * T) 0); [lia|].
    replace (M <? 2 * T) with false by (symmetry; apply Z.ltb_ge; lia).
    simpl. destruct (negb _ && _) eqn:Hbroken; simpl.
    + rewrite Z.shiftr_div_pow2 by lia. change (2 ^ 1) with 2.
      replace (2 * T / 2) with T 
        by (rewrite (Z.mul_comm 2 T), Z.div_mul; lia).
      destruct (Z.ltb_spec T (2 * T)); [|lia].
      congruence.
    + destruct (DepChecker.forward_scan _ _ _ _ _) as [m|] eqn:Hscan;
        [|discriminate].
      simpl.
      apply (forward_scan_lower _ _ _ (2 * T)) in Hscan;
        rewrite ?u32_id by lia; try lia.
      destruct (Z.ltb_spec m (2 * T)); [lia|].
      destruct ((m <? M) && _); congruence.
  - destruct (Z.ltb_spec lim (2 * T)); [|lia].
    destruct (Z.ltb_spec M (2 * T)); [|lia].
    simpl. congruence.
Qed.

(** ** The dependence checker on a constant distance *)

(** The checker on a pair it can compare: at least one write, one address
    space, equal non-zero strides and a constant distance. *)
Lemma isDependent_constant_distance
    IR SE DL Params L Strides APtr AW BPtr BW AIdx BIdx D TA TB AS s Val :
  AIdx < BIdx ->
  AW || BW = true ->
  getType IR APtr = PointerTy TA AS -> getType IR BPtr = PointerTy TB AS ->
  isStridedPtr IR SE DL APtr L Strides = Some s ->
  isStridedPtr IR SE DL BPtr L Strides = Some s ->
  s <> 0 ->
  getMinusSCEV SE
    (replaceSymbolicStrideSCEV IR SE Strides (sinkOf s APtr BPtr) None)
    (replaceSymbolicStrideSCEV IR SE Strides (sourceOf s APtr BPtr) None)
  = SCEVConstant Val ->
  DepChecker.isDependent IR SE DL Params L (APtr, AW) AIdx (BPtr, BW) BIdx
    Strides D
  = let SrcW := sourceOf s AW BW in
    let SinkW := sinkOf s AW BW in
    let SrcTy := sourceOf s TA TB in
    let SinkTy := sinkOf s TA TB in
    let T := u32 (getTypeAllocSize DL SrcTy) in
    if AP.isNegative Val then
      if SrcW && negb SinkW then
        AbsVal ← AP.getZExtValue (AP.abs Val);
        match DepChecker.couldPreventStoreLoadForward (u32 AbsVal) T D with
        | Some (Prevented, D') =>
            if Prevented || bool_decide (SrcTy <> SinkTy)
            then Some (true, D') else Some (false, D')
        | None => None
        end
      else Some (false, D)
    else
    if AP.isZero Val then
      if bool_decide (SrcTy = SinkTy) then Some (false, D) else Some (true, D)
    else
    if bool_decide (SrcTy <> SinkTy) then Some (false, D) else
    ZVal ← AP.getZExtValue Val;
    let d := u32 ZVal in
    if (d <? u32 (2 * T))
       || (DepChecker.MaxSafeDepDistBytes D <? u32 (2 * T))
       || (d <? u32 (T * effective (VectorizationInterleave Params)
                     * effective (VectorizationFactor Params)))
    then Some (true, D) else
    let D1 := DepChecker.set_MaxSafeDepDistBytes
                (if d <? DepChecker.MaxSafeDepDistBytes D then d
                 else DepChecker.MaxSafeDepDistBytes D) D in
    if negb SrcW && SinkW then
      match DepChecker.couldPreventStoreLoadForward d T D1 with
      | Some (true, D') => Some (true, D')
      | Some (false, D') => Some (false, D')
      | None => None
      end
    else Some (false, D1).
Proof.
  intros Hidx Hw HTA HTB HsA HsB Hs HDist.
  unfold DepChecker.isDependent. simpl.
  destruct (Z.ltb_spec AIdx BIdx); [simpl|lia].
  replace (negb AW && negb BW) with false by (destruct AW, BW; done).
  rewrite HTA, HTB. simpl. rewrite N.eqb_refl. simpl.
  rewrite HsA, HsB. simpl.
  unfold sourceOf, sinkOf, inverted, effective in *.
  destruct (s <? 0); simpl;
    (destruct (Z.eqb_spec s 0); [done|]); rewrite Z.eqb_refl; simpl;
    rewrite HDist, ?HTA, ?HTB; simpl; reflexivity.
Qed.

(** X6: at distance zero the checker compares the two pointee types and
    nothing else: the pair is safe exactly when they are the same type, and
    the checker is left as it was. *)
Theorem isDependent_zero_distance
    IR SE DL Params L Strides APtr AW BPtr BW AIdx BIdx D TA TB AS s Val :
  AIdx < BIdx ->
  AW || BW = true ->
  getType IR APtr = PointerTy TA AS -> getType IR BPtr = PointerTy TB AS ->
  isStridedPtr IR SE DL APtr L Strides = Some s ->
  isStridedPtr IR SE DL BPtr L Strides = Some s ->
  s <> 0 ->
  getMinusSCEV SE
    (replaceSymbolicStrideSCEV IR SE Strides (sinkOf s APtr BPtr) None)
    (replaceSymbolicStrideSCEV IR SE Strides (sourceOf s APtr BPtr) None)
  = SCEVConstant Val ->
  0 < BitWidth Val -> UVal Val = 0 ->
  DepChecker.isDependent IR SE DL Params L (APtr, AW) AIdx (BPtr, BW) BIdx
    Strides D
  = Some (negb (bool_decide (TA = TB)), D).
Proof.
  intros Hidx Hw HTA HTB HsA HsB Hs HDist Hbw Hval.
  rewrite (isDependent_constant_distance IR SE DL Params L Strides APtr AW
             BPtr BW AIdx BIdx D TA TB AS s Val) by done.
  simpl. unfold AP.isNegative, AP.isZero. rewrite Hval. simpl.
  assert (0 < 2 ^ (BitWidth Val - 1)) by (apply Z.pow_pos_nonneg; lia).
  destruct (Z.leb_spec (2 ^ (BitWidth Val - 1)) 0); [lia|].
  unfold sourceOf, sinkOf. destruct (inverted s);
    repeat case_bool_decide; simpl; congruence.
Qed.

(** X7: at a negative distance only a store followed by a load of its
    location matters (after the exchange for a negative stride: the source
    writes and the sink reads).  Every other pair is safe and leaves the
    checker as it was; for such a pair the answer is unsafe exactly when
    store-to-load forwarding is prevented at the magnitude of the distance
    or the pointee types differ. *)
Theorem isDependent_negative_distance
    IR SE DL Params L Strides APtr AW BPtr BW AIdx BIdx D TA TB AS s Val :
  AIdx < BIdx ->
  AW || BW = true ->
  getType IR APtr = PointerTy TA AS -> getType IR BPtr = PointerTy TB AS ->
  isStridedPtr IR SE DL APtr L Strides = Some s ->
  isStridedPtr IR SE DL BPtr L Strides = Some s ->
  s <> 0 ->
  let SrcW := sourceOf s AW BW in
  let SinkW := sinkOf s AW BW in
  let SrcTy := sourceOf s TA TB in
  let SinkTy := sinkOf s TA TB in
  getMinusSCEV SE
    (replaceSymbolicStrideSCEV IR SE Strides (sinkOf s APtr BPtr) None)
    (replaceSymbolicStrideSCEV IR SE Strides (sourceOf s APtr BPtr) None)
  = SCEVConstant Val ->
  AP.isNegative Val = true ->
  0 < BitWidth Val <= 64 -> 0 <= UVal Val < 2 ^ BitWidth Val ->
  let d := 2 ^ BitWidth Val - UVal Val in
  let T := getTypeAllocSize DL SrcTy in
  d < 2 ^ 32 -> 0 <= T < 2 ^ 32 ->
  let result :=
    DepChecker.isDependent IR SE DL Params L (APtr, AW) AIdx (BPtr, BW) BIdx
      Strides D in
  (SrcW && negb SinkW = false -> result = Some (false, D)) /\
  (SrcW && negb SinkW = true -> forall Prevented D',
     DepChecker.couldPreventStoreLoadForward d T D = Some (Prevented, D') ->
     result = Some (Prevented || bool_decide (SrcTy <> SinkTy), D')).
Proof.
  intros Hidx Hw HTA HTB HsA HsB Hs SrcW SinkW SrcTy SinkTy HDist Hneg Hbw Hval
    d T Hd HT result.
  unfold result.
  rewrite (isDependent_constant_distance IR SE DL Params L Strides APtr AW
             BPtr BW AIdx BIdx D TA TB AS s Val) by done.
  cbv zeta. fold SrcW SinkW SrcTy SinkTy T. rewrite Hneg.
  split; [by intros Hrole; rewrite Hrole|].
  intros Hrole Prevented D' Hfw. rewrite Hrole.
  assert (2 ^ BitWidth Val <= 2 ^ 64) by (apply Z.pow_le_mono_r; lia).
  unfold AP.getZExtValue, AP.abs. rewrite Hneg. simpl.
  unfold AP.isNegative in Hneg. apply Z.leb_le in Hneg.
  assert (0 < 2 ^ (BitWidth Val - 1)) by (apply Z.pow_pos_nonneg; lia).
  rewrite (Z.mod_small (2 ^ BitWidth Val - UVal Val)) by lia.
  fold d. destruct (Z.ltb_spec d (2 ^ 64)); [|lia]. simpl.
  rewrite (u32_id d), (u32_id T) by (unfold d; lia).
  rewrite Hfw. destruct Prevented; simpl; [done|]. by case_bool_decide.
Qed.

(** X8: a safe answer at a positive distance [d] between accesses of one
    type leaves the maximum safe distance between two elements and
    [min d MaxSafeDepDistBytes]; it is that minimum unless the pair is a load
    followed by a store, where the forwarding check may lower it further. *)
Theorem isDependent_positive_bound
    IR SE DL Params L Strides APtr AW BPtr BW AIdx BIdx D D' TA TB AS s Val :
  AIdx < BIdx ->
  AW || BW = true ->
  getType IR APtr = PointerTy TA AS -> getType IR BPtr = PointerTy TB AS ->
  isStridedPtr IR SE DL APtr L Strides = Some s ->
  isStridedPtr IR SE DL BPtr L Strides = Some s ->
  s <> 0 ->
  let SrcW := sourceOf s AW BW in
  let SinkW := sinkOf s AW BW in
  getMinusSCEV SE
    (replaceSymbolicStrideSCEV IR SE Strides (sinkOf s APtr BPtr) None)
    (replaceSymbolicStrideSCEV IR SE Strides (sourceOf s APtr BPtr) None)
  = SCEVConstant Val ->
  AP.isStrictlyPositive Val = true ->
  TA = TB ->
  let d := UVal Val in
  let T := getTypeAllocSize DL TA in
  0 < d < 2 ^ 32 -> 0 <= T -> 2 * T < 2 ^ 32 ->
  DepChecker.isDependent IR SE DL Params L (APtr, AW) AIdx (BPtr, BW) BIdx
    Strides D = Some (false, D') ->
  2 * T <= DepChecker.MaxSafeDepDistBytes D'
        <= Z.min d (DepChecker.MaxSafeDepDistBytes D) /\
  (negb SrcW && SinkW = false ->
   D' = DepChecker.set_MaxSafeDepDistBytes
          (Z.min d (DepChecker.MaxSafeDepDistBytes D)) D).
Proof.
  intros Hidx Hw HTA HTB HsA HsB Hs SrcW SinkW HDist Hpos <- d T Hd HT0 HT.
  rewrite (isDependent_constant_distance IR SE DL Params L Strides APtr AW
             BPtr BW AIdx BIdx D TA TA AS s Val) by done.
  apply isStrictlyPositive_spec in Hpos as [-> ->].
  cbv zeta. fold SrcW SinkW.
  replace (sourceOf s TA TA) with TA by (unfold sourceOf; by destruct inverted).
  replace (sinkOf s TA TA) with TA by (unfold sinkOf; by destruct inverted).
  fold T. rewrite bool_decide_eq_false_2 by auto.
  unfold AP.getZExtValue. fold d.
  destruct (Z.ltb_spec d (2 ^ 64)); [|lia]. simpl.
  rewrite (u32_id d), (u32_id T), (u32_id (2 * T)) by lia.
  destruct (Z.ltb_spec d (2 * T)); simpl; [done|].
  destruct (Z.ltb_spec (DepChecker.MaxSafeDepDistBytes D) (2 * T)); simpl;
    [done|].
  destruct (_ <? _); simpl; [done|].
  replace (if d <? DepChecker.MaxSafeDepDistBytes D then d
           else DepChecker.MaxSafeDepDistBytes D)
    with (Z.min d (DepChecker.MaxSafeDepDistBytes D))
    by (destruct (Z.ltb_spec d (DepChecker.MaxSafeDepDistBytes D)); lia).
  destruct (negb SrcW && SinkW).
  - destruct (DepChecker.couldPreventStoreLoadForward _ _ _)
      as [[[] D2]|] eqn:Hfw; try discriminate.
    intros [= ->].
    apply forwarding_safe_bounds in Hfw. simpl in Hfw.
    rewrite (u32_id (2 * T)) in Hfw by lia. done.
  - intros [= <-]. simpl. split; [lia|done].
Qed.

(** ** What a run of the dependence checker keeps *)

Lemma sameLog_refl D : sameLog D D.
Proof. by repeat split. Qed.

Lemma sameLog_trans D1 D2 D3 : sameLog D1 D2 -> sameLog D2 D3 -> sameLog D1 D3.
Proof.
  unfold sameLog. intros (? & ? & ?) (? & ? & ?). split_and!; congruence.
Qed.

Lemma keepsFlag_refl D : keepsFlag false D D.
Proof. by split. Qed.

(** A safe step followed by any step. *)
Lemma keepsFlag_trans r D1 D2 D3 :
  keepsFlag false D1 D2 -> keepsFlag r D2 D3 -> keepsFlag r D1 D3.
Proof.
  unfold keepsFlag. intros [H1 H1'] [H2 H2']. split.
  - auto.
  - intros Hr. rewrite H2', H1'; done.
Qed.

(** A loop with an early exit whose rounds keep a relation that depends on
    their answer: the rounds before the last one answered [false]. *)
Lemma iterate_until_answer {A S : Type} (f : A -> S -> option (bool * S))
    (R : bool -> S -> S -> Prop) :
  (forall s, R false s s) ->
  (forall r s1 s2 s3, R false s1 s2 -> R r s2 s3 -> R r s1 s3) ->
  (forall x s r s', f x s = Some (r, s') -> R r s s') ->
  forall l s r s', iterate_until f l s = Some (r, s') -> R r s s'.
Proof.
  intros Hrefl Htrans Hf l. induction l as [|x l IH]; intros s r s' H.
  - injection H as <- <-. apply Hrefl.
  - simpl in H. destruct (f x s) as [[[] s1]|] eqn:Hx; [| |discriminate].
    + injection H as <- <-. eapply Hf, Hx.
    + eapply Htrans; [eapply Hf, Hx|eapply IH, H].
Qed.

(** The check of a pair keeps the log of the accesses, never clears the
    retry flag, and sets it only with an unsafe answer. *)
Lemma isDependent_frame IR SE DL Params L A AIdx B BIdx Strides D r D' :
  DepChecker.isDependent IR SE DL Params L A AIdx B BIdx Strides D
  = Some (r, D') ->
  checked r D D'.
Proof.
  unfold DepChecker.isDependent, checked. intros H.
  repeat (match type of H with
          | context [if ?c then _ else _] => destruct c eqn:?
          | context [match ?x with _ => _ end] => destruct x eqn:?
          | context [mbind _ ?x] => destruct x eqn:?; simpl in H
          end; simpl in H; try discriminate);
  repeat match goal with
       | Hc : DepChecker.couldPreventStoreLoadForward _ _ _ = Some _ |- _ =>
           apply couldPreventStoreLoadForward_frame in Hc; simpl in Hc;
           destruct Hc as (? & ? & ? & ?)
       end;
  injection H as <- <-; unfold sameLog, keepsFlag; simpl; split_and!; intros;
  congruence.
Qed.

Lemma checked_refl D : checked false D D.
Proof. split; [apply sameLog_refl|apply keepsFlag_refl]. Qed.

Lemma checked_trans r D1 D2 D3 :
  checked false D1 D2 -> checked r D2 D3 -> checked r D1 D3.
Proof.
  intros [? ?] [? ?].
  split; [eapply sameLog_trans|eapply keepsFlag_trans]; eassumption.
Qed.

Section Frame.

Context (IR : IRContext) (SE : ScalarEvolution) (DL : DataLayout)
        (Params : VectorizerParams) (L : LoopId) (Strides : ValueToValueMap).

Lemma checkIndexPair_frame AI OI I1 I2 D r D' :
  DepChecker.checkIndexPair IR SE DL Params L Strides AI OI I1 I2 D
  = Some (r, D') -> checked r D D'.
Proof.
  unfold DepChecker.checkIndexPair. intros H.
  destruct (I1 <? I2).
  - destruct (DepChecker.isDependent _ _ _ _ _ _ _ _ _ _ D)
      as [[[] D1]|] eqn:H1; [| |discriminate].
    + injection H as <- <-. eapply isDependent_frame, H1.
    + apply isDependent_frame in H1.
      destruct (I2 <? I1).
      * apply isDependent_frame in H. eapply checked_trans; eassumption.
      * by injection H as <- <-.
  - destruct (I2 <? I1).
    + eapply isDependent_frame, H.
    + injection H as <- <-. apply checked_refl.
Qed.

Lemma checkAccessPair_frame AI OI D r D' :
  DepChecker.checkAccessPair IR SE DL Params L Strides AI OI D = Some (r, D') ->
  checked r D D'.
Proof.
  unfold DepChecker.checkAccessPair.
  apply (iterate_until_answer _ checked);
    [apply checked_refl|apply checked_trans|].
  intros I1 s r1 s1.
  apply (iterate_until_answer _ checked);
    [apply checked_refl|apply checked_trans|].
  intros I2 s2 r2 s3. apply checkIndexPair_frame.
Qed.

Lemma checkMembers_frame members : forall st r st',
  DepChecker.checkMembers IR SE DL Params L Strides members st
  = Some (r, st') ->
  st'.1 ⊆ st.1 /\ checked r st.2 st'.2.
Proof.
  induction members as [|AI rest IH]; intros st r st' H; simpl in H.
  - injection H as <- <-. split; [done|apply checked_refl].
  - destruct (iterate_until _ rest st.2) as [[[] D1]|] eqn:Hit;
      [| |discriminate];
      (apply (iterate_until_answer _ checked) in Hit;
       [|apply checked_refl|apply checked_trans
        |intros ? ? ? ?; apply checkAccessPair_frame]).
    + injection H as <- <-. simpl. split; [by apply subseteq_difference_l|done].
    + apply IH in H as [Hsub Hc]. simpl in Hsub, Hc. split.
      * etrans; [exact Hsub|by apply subseteq_difference_l].
      * eapply checked_trans; eassumption.
Qed.

Lemma checkAll_frame AccessSets fuel : forall st r st',
  DepChecker.checkAll IR SE DL Params L fuel AccessSets Strides st
  = Some (r, st') ->
  st'.1 ⊆ st.1 /\ checked r st.2 st'.2 /\ (r = false -> st'.1 = ∅).
Proof.
  assert (Hdone : forall st : DepChecker.DepState,
            SmallPtrSet.begin IR st.1 = None -> st.1 = ∅).
  { intros st. apply begin_None. }
  induction fuel as [|fuel IH]; intros st r st' H; simpl in H.
  - destruct (SmallPtrSet.begin IR st.1) eqn:Hel; [discriminate|].
    injection H as <- <-. split; [done|]. split; [apply checked_refl|auto].
  - destruct (SmallPtrSet.begin IR st.1) as [Cur|] eqn:Hel; cycle 1.
    { injection H as <- <-. split; [done|]. split; [apply checked_refl|auto]. }
    destruct (EC.getLeaderValue AccessSets Cur) as [Leader|]; [|discriminate].
    simpl in H.
    destruct (EC.members AccessSets Leader) as [members|]; [|discriminate].
    simpl in H.
    destruct (DepChecker.checkMembers _ _ _ _ _ _ members st)
      as [[[] st1]|] eqn:Hm; [| |discriminate];
      apply checkMembers_frame in Hm as [Hsub Hc].
    + injection H as <- <-. by split_and!.
    + apply IH in H as (Hsub' & Hc' & Hempty). split_and!.
      * etrans; eassumption.
      * eapply checked_trans; eassumption.
      * done.
Qed.

End Frame.

(** X9: a run of the dependence checker that answers safe has worked off
    every candidate and leaves the retry flag as it found it; whatever the
    answer, the candidates left are candidates it was given, the log of the
    accesses is unchanged and the retry flag is not cleared. *)
Theorem areDepsSafe_result IR SE DL Params L AccessSets CheckDeps Strides D
    safe st :
  DepChecker.areDepsSafe IR SE DL Params L AccessSets CheckDeps Strides D
  = Some (safe, st) ->
  st.1 ⊆ CheckDeps /\
  sameLog D st.2 /\
  (DepChecker.ShouldRetryWithRuntimeCheck D = true ->
   DepChecker.ShouldRetryWithRuntimeCheck st.2 = true) /\
  (safe = true ->
   st.1 = ∅ /\
   DepChecker.ShouldRetryWithRuntimeCheck st.2
   = DepChecker.ShouldRetryWithRuntimeCheck D).
Proof.
  unfold DepChecker.areDepsSafe. intros H.
  destruct (DepChecker.checkAll _ _ _ _ _ _ _ _ _) as [[u st1]|] eqn:Hall;
    [|discriminate].
  injection H as <- <-.
  apply checkAll_frame in Hall as (Hsub & [Hlog [Hkeep Hflag]] & Hempty).
  simpl in *. split_and!; try done.
  intros Hu%negb_true_iff. auto.
Qed.

(** ** The log of the dependence checker *)

Lemma increasing_snoc l x :
  increasing l -> Forall (fun i => i < x) l -> increasing (l ++ [x]).
Proof.
  intros Hinc Hall i j a b Hij Hi Hj.
  assert (Hjlen : (j < length (l ++ [x]))%nat) by (by eapply lookup_lt_Some).
  rewrite length_app in Hjlen. simpl in Hjlen.
  rewrite lookup_app_l in Hi by lia.
  destruct (decide (j < length l)%nat) as [Hlt|Hge].
  - rewrite lookup_app_l in Hj by lia. eauto.
  - rewrite lookup_app_r in Hj by lia.
    replace (j - length l)%nat with 0%nat in Hj by lia.
    injection Hj as <-.
    eapply Forall_forall in Hall; [exact Hall|].
    by eapply list_elem_of_lookup_2.
Qed.

(** Registering an access keeps the log in program order, as long as the
    32-bit index does not wrap. *)
Lemma logged_addAccess Inst Ptr IsWrite D :
  logged D -> DepChecker.AccessIdx D + 1 < 2 ^ 32 ->
  logged (DepChecker.addAccess Inst Ptr IsWrite D).
Proof.
  intros (Hlen & Hkeys & Hdisj) Hidx.
  assert (Hnext : DepChecker.AccessIdx (DepChecker.addAccess Inst Ptr IsWrite D)
                  = DepChecker.AccessIdx D + 1).
  { simpl. apply u32_id. lia. }
  assert (Hold : forall l,
            DepChecker.Accesses D !! (Ptr, IsWrite) = Some l ->
            Forall (fun i => i < DepChecker.AccessIdx D) l).
  { intros l Hl. destruct (Hkeys _ _ Hl) as (_ & _ & Hall).
    eapply Forall_impl; [exact Hall|]. simpl. lia. }
  split_and!.
  - rewrite Hnext. simpl. rewrite length_app. simpl. lia.
  - intros key l. rewrite Hnext. simpl.
    destruct (decide (key = (Ptr, IsWrite))) as [->|Hne].
    + rewrite lookup_insert_eq. intros [= <-].
      split; [by destruct (default _ _)|].
      destruct (DepChecker.Accesses D !! (Ptr, IsWrite)) as [l|] eqn:Hl;
        simpl.
      * destruct (Hkeys _ _ Hl) as (_ & Hinc & Hall). split.
        -- apply increasing_snoc; auto.
        -- apply Forall_app. split.
           ++ eapply Forall_impl; [exact Hall|]. simpl. lia.
           ++ apply Forall_singleton. lia.
      * split.
        -- intros i j a b Hij Hi Hj.
           apply lookup_lt_Some in Hj. simpl in Hj. lia.
        -- apply Forall_singleton. lia.
    + rewrite lookup_insert_ne by done. intros Hl.
      destruct (Hkeys _ _ Hl) as (? & ? & Hall). split_and!; try done.
      eapply Forall_impl; [exact Hall|]. simpl. lia.
  - assert (Hfresh : forall key l,
              DepChecker.Accesses D !! key = Some l ->
              DepChecker.AccessIdx D ∉ l).
    { intros key l Hl Hin. destruct (Hkeys _ _ Hl) as (_ & _ & Hall).
      eapply Forall_forall in Hall; [|exact Hin]. simpl in Hall. lia. }
    assert (Hnew : forall i,
              i ∈ default [] (DepChecker.Accesses D !! (Ptr, IsWrite))
                  ++ [DepChecker.AccessIdx D] ->
              i = DepChecker.AccessIdx D \/
              exists l, DepChecker.Accesses D !! (Ptr, IsWrite) = Some l
                        /\ i ∈ l).
    { intros i [Hin|Hin%list_elem_of_singleton]%elem_of_app; [|auto].
      destruct (DepChecker.Accesses D !! (Ptr, IsWrite)) as [l|];
        [eauto|]. by apply elem_of_nil in Hin. }
    intros key1 key2 l1 l2 i. simpl.
    destruct (decide (key1 = (Ptr, IsWrite))) as [->|Hne1];
      destruct (decide (key2 = (Ptr, IsWrite))) as [->|Hne2]; [done|..];
      rewrite ?lookup_insert_eq, ?lookup_insert_ne by done.
    + intros [= <-] Hl2 [->|(l & Hl & Hin)]%Hnew Hin2.
      * by apply Hfresh in Hl2.
      * eauto.
    + intros Hl1 [= <-] Hin1 [->|(l & Hl & Hin)]%Hnew.
      * by apply Hfresh in Hl1.
      * eauto.
    + eauto.
Qed.

(** X10: registering an access keeps the log of the dependence checker in
    program order, as long as the 32-bit index does not wrap: the instruction
    is logged at the index [AccessIdx], which is appended to the indices of
    its location, and the indices of the other locations are kept. *)
Theorem addAccess_logged Inst Ptr IsWrite D :
  logged D -> DepChecker.AccessIdx D + 1 < 2 ^ 32 ->
  let D' := DepChecker.addAccess Inst Ptr IsWrite D in
  logged D' /\
  DepChecker.AccessIdx D' = DepChecker.AccessIdx D + 1 /\
  DepChecker.InstMap D' !! Z.to_nat (DepChecker.AccessIdx D) = Some Inst /\
  DepChecker.Accesses D' !! (Ptr, IsWrite)
  = Some (default [] (DepChecker.Accesses D !! (Ptr, IsWrite))
          ++ [DepChecker.AccessIdx D]) /\
  (forall key, key <> (Ptr, IsWrite) ->
     DepChecker.Accesses D' !! key = DepChecker.Accesses D !! key).
Proof.
  intros Hlog Hidx D'. split; [by apply logged_addAccess|].
  destruct Hlog as (Hlen & _). split_and!.
  - simpl. apply u32_id.
    pose proof (Nat2Z.is_nonneg (length (DepChecker.InstMap D))). lia.
  - simpl. rewrite <- Hlen, Nat2Z.id. by rewrite lookup_app_r, Nat.sub_diag.
  - simpl. by rewrite lookup_insert_eq.
  - intros key Hne. simpl. by rewrite lookup_insert_ne.
Qed.

Lemma logged_init indet : logged (DepChecker.init indet).
Proof.
  split_and!; [done|intros key l|intros key1 key2 l1 l2 i]; simpl;
    by rewrite lookup_empty.
Qed.

(** ** The scan of the instructions *)

Lemma u32_succ a n : u32 (u32 (a + Z.of_nat n) + 1) = u32 (a + Z.of_nat (S n)).
Proof.
  unfold u32. rewrite Zplus_mod_idemp_l. f_equal. lia.
Qed.

Lemma filter_one {A} (P : A -> bool) (x : A) (l : list A) :
  filter (fun y => P y = true) (x :: l)
  = (if P x then [x] else []) ++ filter (fun y => P y = true) l.
Proof.
  destruct (P x) eqn:HP.
  - by rewrite filter_cons_True.
  - rewrite filter_cons_False; [done|]. by rewrite HP.
Qed.

(** A report on a state without one. *)
Lemma reject_fresh {S : Type} M LAI (k : LoopAccessInfo.t -> S) :
  LoopAccessInfo.Report LAI = None ->
  exists LAI',
    LoopAccessInfo.reject M LAI k = Some (true, k LAI') /\
    LoopAccessInfo.PtrRtCheck LAI' = LoopAccessInfo.PtrRtCheck LAI /\
    LoopAccessInfo.NumLoads LAI' = LoopAccessInfo.NumLoads LAI /\
    LoopAccessInfo.NumStores LAI' = LoopAccessInfo.NumStores LAI /\
    LoopAccessInfo.CanVecMem LAI' = false /\
    LoopAccessInfo.Report LAI' = Some M.
Proof.
  intros HR. unfold LoopAccessInfo.reject, LoopAccessInfo.emitAnalysis.
  rewrite HR. simpl. eexists. split; [reflexivity|]. by split_and!.
Qed.

(** One round of the scan. *)
Lemma scan_step par (it : Instruction) s :
  LoopAccessInfo.Report (LoopAccessInfo.scanInfo s) = None ->
  exists s',
    LoopAccessInfo.scanInstruction par it s
    = Some (negb (isAcceptedAccess par it), s') /\
    LoopAccessInfo.PtrRtCheck (LoopAccessInfo.scanInfo s')
    = LoopAccessInfo.PtrRtCheck (LoopAccessInfo.scanInfo s) /\
    if isAcceptedAccess par it then
      sameVerdict (LoopAccessInfo.scanInfo s) (LoopAccessInfo.scanInfo s') /\
      LoopAccessInfo.Loads s'
      = LoopAccessInfo.Loads s ++ (if isCollectedLoad it then [it] else []) /\
      LoopAccessInfo.Stores s'
      = LoopAccessInfo.Stores s ++ (if isCollectedStore it then [it] else []) /\
      LoopAccessInfo.NumLoads (LoopAccessInfo.scanInfo s')
      = (if isCollectedLoad it
         then u32 (LoopAccessInfo.NumLoads (LoopAccessInfo.scanInfo s) + 1)
         else LoopAccessInfo.NumLoads (LoopAccessInfo.scanInfo s)) /\
      LoopAccessInfo.NumStores (LoopAccessInfo.scanInfo s')
      = (if isCollectedStore it
         then u32 (LoopAccessInfo.NumStores (LoopAccessInfo.scanInfo s) + 1)
         else LoopAccessInfo.NumStores (LoopAccessInfo.scanInfo s)) /\
      DepChecker.InstMap (LoopAccessInfo.scanChecker s')
      = DepChecker.InstMap (LoopAccessInfo.scanChecker s)
        ++ (if isCollected it then [InstValue it] else []) /\
      DepChecker.MaxSafeDepDistBytes (LoopAccessInfo.scanChecker s')
      = DepChecker.MaxSafeDepDistBytes (LoopAccessInfo.scanChecker s) /\
      DepChecker.ShouldRetryWithRuntimeCheck (LoopAccessInfo.scanChecker s')
      = DepChecker.ShouldRetryWithRuntimeCheck (LoopAccessInfo.scanChecker s) /\
      LoopAccessInfo.MaxSafeDepDistBytes (LoopAccessInfo.scanInfo s')
      = LoopAccessInfo.MaxSafeDepDistBytes (LoopAccessInfo.scanInfo s) /\
      (if isCollected it
       then exists Ptr IsWrite,
              LoopAccessInfo.scanChecker s'
              = DepChecker.addAccess (InstValue it) Ptr IsWrite
                  (LoopAccessInfo.scanChecker s)
       else LoopAccessInfo.scanChecker s' = LoopAccessInfo.scanChecker s)
    else
      LoopAccessInfo.CanVecMem (LoopAccessInfo.scanInfo s') = false /\
      exists m, LoopAccessInfo.Report (LoopAccessInfo.scanInfo s')
                = Some (Message m) /\ m ∈ scanReports.
Proof.
  intros HR.
  assert (Hrej : forall m, m ∈ scanReports ->
    exists s',
      LoopAccessInfo.reject (Message m) (LoopAccessInfo.scanInfo s)
        (LoopAccessInfo.with_scanInfo s) = Some (true, s') /\
      LoopAccessInfo.PtrRtCheck (LoopAccessInfo.scanInfo s')
      = LoopAccessInfo.PtrRtCheck (LoopAccessInfo.scanInfo s) /\
      LoopAccessInfo.CanVecMem (LoopAccessInfo.scanInfo s') = false /\
      exists m, LoopAccessInfo.Report (LoopAccessInfo.scanInfo s')
                = Some (Message m) /\ m ∈ scanReports).
  { intros m Hm.
    destruct (reject_fresh (Message m) _ (LoopAccessInfo.with_scanInfo s) HR)
      as (LAI' & -> & HP & _ & _ & HC & HRep).
    eexists. split; [reflexivity|]. simpl. split_and!; eauto. }
  assert (Hkeep : exists s',
      Some (false, s) = Some (false, s') /\
      LoopAccessInfo.PtrRtCheck (LoopAccessInfo.scanInfo s')
      = LoopAccessInfo.PtrRtCheck (LoopAccessInfo.scanInfo s) /\
      sameVerdict (LoopAccessInfo.scanInfo s) (LoopAccessInfo.scanInfo s') /\
      LoopAccessInfo.Loads s' = LoopAccessInfo.Loads s ++ [] /\
      LoopAccessInfo.Stores s' = LoopAccessInfo.Stores s ++ [] /\
      LoopAccessInfo.NumLoads (LoopAccessInfo.scanInfo s')
      = LoopAccessInfo.NumLoads (LoopAccessInfo.scanInfo s) /\
      LoopAccessInfo.NumStores (LoopAccessInfo.scanInfo s')
      = LoopAccessInfo.NumStores (LoopAccessInfo.scanInfo s) /\
      DepChecker.InstMap (LoopAccessInfo.scanChecker s')
      = DepChecker.InstMap (LoopAccessInfo.scanChecker s) ++ [] /\
      DepChecker.MaxSafeDepDistBytes (LoopAccessInfo.scanChecker s')
      = DepChecker.MaxSafeDepDistBytes (LoopAccessInfo.scanChecker s) /\
      DepChecker.ShouldRetryWithRuntimeCheck (LoopAccessInfo.scanChecker s')
      = DepChecker.ShouldRetryWithRuntimeCheck (LoopAccessInfo.scanChecker s) /\
      LoopAccessInfo.MaxSafeDepDistBytes (LoopAccessInfo.scanInfo s')
      = LoopAccessInfo.MaxSafeDepDistBytes (LoopAccessInfo.scanInfo s) /\
      LoopAccessInfo.scanChecker s' = LoopAccessInfo.scanChecker s).
  { exists s. rewrite !app_nil_r. split_and!; try done; repeat split. }
  unfold LoopAccessInfo.scanInstruction, isAcceptedAccess, isCollected,
    isCollectedLoad, isCollectedStore, scanReports in *.
  destruct (mayReadFromMemory it); simpl.
  - destruct (Kind it) as [Ptr simple|Ptr simple|ID|]; simpl.
    + destruct simple, par; simpl;
        try (eexists; split; [reflexivity|]; simpl; rewrite ?app_nil_r;
             split; [done|]; split_and!; try done; eauto; repeat split).
      apply Hrej. repeat constructor.
    + apply Hrej. repeat constructor.
    + destruct (negb (ID =? 0)%N); simpl; [exact Hkeep|].
      apply Hrej. repeat constructor.
    + apply Hrej. repeat constructor.
  - destruct (mayWriteToMemory it); simpl; [|exact Hkeep].
    destruct (Kind it) as [Ptr simple|Ptr simple|ID|]; simpl;
      try (apply Hrej; repeat constructor).
    destruct simple, par; simpl;
      try (eexists; split; [reflexivity|]; simpl; rewrite ?app_nil_r;
           split; [done|]; split_and!; try done; eauto; repeat split).
    apply Hrej. repeat constructor.
Qed.

Lemma scanned_refl s :
  countersFit (LoopAccessInfo.scanInfo s) -> scanned [] s s.
Proof.
  intros [HL HS]. unfold scanned. simpl.
  rewrite !app_nil_r, !Z.add_0_r, !u32_id by done.
  split_and!; try done; repeat split.
Qed.

Lemma length_filter_one {A} (P : A -> bool) (x : A) (l : list A) :
  Z.of_nat (length (filter (fun y => P y = true) (x :: l)))
  = (if P x then 1 else 0)
    + Z.of_nat (length (filter (fun y => P y = true) l)).
Proof.
  rewrite filter_one, length_app. destruct (P x); simpl length; lia.
Qed.

(** The scan of the loop: it stops at the first instruction it does not
    accept. *)
Lemma scan_outcome par (insts : list Instruction) : forall s,
  LoopAccessInfo.Report (LoopAccessInfo.scanInfo s) = None ->
  countersFit (LoopAccessInfo.scanInfo s) ->
  exists s',
    iterate_until (LoopAccessInfo.scanInstruction par) insts s
    = Some (negb (forallb (isAcceptedAccess par) insts), s') /\
    LoopAccessInfo.PtrRtCheck (LoopAccessInfo.scanInfo s')
    = LoopAccessInfo.PtrRtCheck (LoopAccessInfo.scanInfo s) /\
    if forallb (isAcceptedAccess par) insts then scanned insts s s'
    else
      LoopAccessInfo.CanVecMem (LoopAccessInfo.scanInfo s') = false /\
      exists m, LoopAccessInfo.Report (LoopAccessInfo.scanInfo s')
                = Some (Message m) /\ m ∈ scanReports.
Proof.
  induction insts as [|it insts IH]; intros s HR Hfit.
  - exists s. simpl. split_and!; try done. by apply scanned_refl.
  - destruct (scan_step par it s HR) as (s1 & Hstep & HP1 & Hacc).
    simpl. rewrite Hstep.
    destruct (isAcceptedAccess par it); simpl; [|by exists s1].
    destruct Hacc
      as (Hsame1 & HL1 & HS1 & HNL1 & HNS1 & HI1 & HM1 & HF1 & HX1 & HD1).
    assert (HR1 : LoopAccessInfo.Report (LoopAccessInfo.scanInfo s1) = None).
    { destruct Hsame1 as (_ & _ & ->). done. }
    assert (Hfit1 : countersFit (LoopAccessInfo.scanInfo s1)).
    { destruct Hfit. split; [rewrite HNL1|rewrite HNS1];
        match goal with |- context [if ?c then _ else _] => destruct c end;
        try done; apply u32_range. }
    destruct (IH s1 HR1 Hfit1) as (s' & Hrun & HP & Hrest).
    exists s'. split; [exact Hrun|]. split; [congruence|].
    destruct (forallb (isAcceptedAccess par) insts); [|exact Hrest].
    destruct Hrest
      as (Hsame & HL & HS & HNL & HNS & HI & HM & HF & HX & Hlog).
    unfold scanned. rewrite !length_filter_one, !filter_one.
    split_and!.
    + eapply sameVerdict_trans; eassumption.
    + rewrite HL, HL1, <- app_assoc. done.
    + rewrite HS, HS1, <- app_assoc. done.
    + rewrite HNL, HNL1. destruct (isCollectedLoad it); simpl; [|done].
      unfold u32. rewrite Zplus_mod_idemp_l. f_equal. lia.
    + rewrite HNS, HNS1. destruct (isCollectedStore it); simpl; [|done].
      unfold u32. rewrite Zplus_mod_idemp_l. f_equal. lia.
    + rewrite HI, HI1, <- app_assoc, fmap_app. f_equal. f_equal.
      by destruct (isCollected it).
    + congruence.
    + congruence.
    + congruence.
    + intros Hlogged Hidx.
      pose proof (Nat2Z.is_nonneg
                    (length (filter (fun it => isCollected it = true) insts))).
      destruct (isCollected it).
      * destruct HD1 as (Ptr & W & HD1).
        assert (Hstep1 : logged (LoopAccessInfo.scanChecker s1) /\
                  DepChecker.AccessIdx (LoopAccessInfo.scanChecker s1)
                  = DepChecker.AccessIdx (LoopAccessInfo.scanChecker s) + 1).
        { rewrite HD1. split; [apply logged_addAccess; [done|lia]|].
          simpl. apply u32_id. destruct Hlogged as (Hlen & _).
          pose proof (Nat2Z.is_nonneg
                        (length (DepChecker.InstMap
                                   (LoopAccessInfo.scanChecker s)))).
          lia. }
        destruct Hstep1 as [Hl1 Hi1].
        destruct (Hlog Hl1) as [Hl' Hi']; [lia|]. split; [done|lia].
      * rewrite HD1 in Hlog. destruct (Hlog Hlogged) as [Hl' Hi']; [lia|].
        split; [done|lia].
Qed.

(** ** The verdict of the analysis *)

Section Verdict.

Context (IR : IRContext) (SE : ScalarEvolution) (DL : DataLayout)
        (AA : AliasAnalysis) (DT : DominatorTree) (Params : VectorizerParams)
        (TheLoop : Loop).

Lemma canAnalyzeLoop_outcome LAI :
  LoopAccessInfo.Report LAI = None ->
  exists LAI',
    LoopAccessInfo.canAnalyzeLoop SE TheLoop LAI
    = Some (shapeOk SE TheLoop, LAI') /\
    if shapeOk SE TheLoop then LAI' = LAI
    else
      LoopAccessInfo.PtrRtCheck LAI' = LoopAccessInfo.PtrRtCheck LAI /\
      LoopAccessInfo.NumLoads LAI' = LoopAccessInfo.NumLoads LAI /\
      LoopAccessInfo.NumStores LAI' = LoopAccessInfo.NumStores LAI /\
      LoopAccessInfo.MaxSafeDepDistBytes LAI'
      = LoopAccessInfo.MaxSafeDepDistBytes LAI /\
      LoopAccessInfo.CanVecMem LAI' = LoopAccessInfo.CanVecMem LAI /\
      exists m, LoopAccessInfo.Report LAI' = Some (Message m) /\
                m ∈ shapeReports.
Proof.
  intros HR.
  unfold LoopAccessInfo.canAnalyzeLoop, shapeOk, LoopAccessInfo.emitAnalysis,
    shapeReports.
  rewrite HR. simpl.
  destruct (empty TheLoop); simpl;
    [|eexists; split; [reflexivity|]; simpl; split_and!; try done;
      eexists; split; [reflexivity|repeat constructor]].
  destruct (getNumBackEdges TheLoop =? 1); simpl;
    [|eexists; split; [reflexivity|]; simpl; split_and!; try done;
      eexists; split; [reflexivity|repeat constructor]].
  case_bool_decide; simpl;
    [eexists; split; [reflexivity|]; simpl; split_and!; try done;
     eexists; split; [reflexivity|repeat constructor]|].
  repeat case_bool_decide; try done; simpl;
    try (eexists; split; [reflexivity|]; simpl; split_and!; try done;
         eexists; split; [reflexivity|repeat constructor]).
  destruct (getBackedgeTakenCount SE (getLoopId TheLoop)); simpl;
    try (by eexists);
    eexists; split; [reflexivity|]; simpl; split_and!; try done;
    eexists; split; [reflexivity|repeat constructor].
Qed.

(** The loop over the stores stops at the first store to a loop-invariant
    address. *)
Lemma registerStores_outcome (stores : list Instruction) : forall p,
  LoopAccessInfo.Report (LoopAccessInfo.ptrInfo p) = None ->
  Forall (fun it => isCollectedStore it = true) stores ->
  exists p',
    iterate_until (LoopAccessInfo.registerStore SE AA DT TheLoop) stores p
    = Some (existsb (isUniformStore SE TheLoop) stores, p') /\
    LoopAccessInfo.PtrRtCheck (LoopAccessInfo.ptrInfo p')
    = LoopAccessInfo.PtrRtCheck (LoopAccessInfo.ptrInfo p) /\
    if existsb (isUniformStore SE TheLoop) stores then
      LoopAccessInfo.CanVecMem (LoopAccessInfo.ptrInfo p') = false /\
      LoopAccessInfo.Report (LoopAccessInfo.ptrInfo p')
      = Some (Message
                "write to a loop invariant address could not be vectorized")
    else LoopAccessInfo.ptrInfo p' = LoopAccessInfo.ptrInfo p.
Proof.
  induction stores as [|it stores IH]; intros p HR Hall.
  - exists p. done.
  - apply Forall_cons in Hall as [Hit Hall]. simpl.
    unfold LoopAccessInfo.registerStore at 1, LoopAccessInfo.storePointer.
    unfold isCollectedStore in Hit.
    destruct (Kind it) as [|Ptr simple| |] eqn:HK;
      try (by rewrite andb_false_r in Hit).
    assert (Hu : isUniformStore SE TheLoop it
                 = LoopAccessInfo.isUniform SE TheLoop Ptr).
    { unfold isUniformStore. by rewrite HK. }
    rewrite Hu. clear Hu.
    simpl. destruct (LoopAccessInfo.isUniform SE TheLoop Ptr); simpl.
    + destruct (reject_fresh
                  (Message
                     "write to a loop invariant address could not be vectorized")
                  _ (LoopAccessInfo.with_ptrInfo p) HR)
        as (LAI' & -> & HP & _ & _ & HC & HRep).
      eexists. split; [reflexivity|]. simpl. by split_and!.
    + case_bool_decide.
      * match goal with
        | |- context [iterate_until _ stores ?q] =>
            destruct (IH q HR Hall) as (p' & Hrun & HP & Hrest)
        end.
        exists p'. split; [exact Hrun|]. done.
      * by apply IH.
Qed.

Lemma registerLoads_ptrInfo Strides (loads : list Instruction) : forall p p',
  LoopAccessInfo.registerLoads IR SE DL AA DT TheLoop Strides loads p
  = Some p' ->
  LoopAccessInfo.ptrInfo p' = LoopAccessInfo.ptrInfo p /\
  LoopAccessInfo.NumReadWrites p' = LoopAccessInfo.NumReadWrites p.
Proof.
  unfold LoopAccessInfo.registerLoads.
  induction loads as [|LD loads IH]; intros p p' H; simpl in H.
  - by injection H as <-.
  - destruct (LoopAccessInfo.registerLoad _ _ _ _ _ _ _ LD p) as [p1|] eqn:Hld;
      [|discriminate].
    apply IH in H as [-> ->].
    unfold LoopAccessInfo.registerLoad in Hld.
    destruct (LoopAccessInfo.loadPointer LD); [|discriminate]. simpl in Hld.
    match type of Hld with
    | match ?x with _ => _ end = _ => destruct x; [|discriminate]
    end.
    by injection Hld as <-.
Qed.

Lemma emitAnalysis_decided M LAI LAI' :
  LoopAccessInfo.emitAnalysis M LAI = Some LAI' ->
  LoopAccessInfo.CanVecMem LAI' = LoopAccessInfo.CanVecMem LAI /\
  LoopAccessInfo.PtrRtCheck LAI' = LoopAccessInfo.PtrRtCheck LAI /\
  LoopAccessInfo.Report LAI' = Some M.
Proof.
  unfold LoopAccessInfo.emitAnalysis.
  destruct (LoopAccessInfo.Report LAI); [discriminate|].
  by intros [= <-].
Qed.

Lemma retryWithRuntimeCheck_decided Strides Accesses LAI LAI' :
  LoopAccessInfo.Report LAI = None ->
  LoopAccessInfo.retryWithRuntimeCheck IR SE DL AA Params TheLoop Strides
    Accesses LAI = Some LAI' ->
  decided LAI'.
Proof.
  unfold LoopAccessInfo.retryWithRuntimeCheck. intros HR H.
  destruct (AccessAnalysis.canCheckPtrAtRT _ _ _ _ _ _ _ _ _)
    as [[[CanDoRT R] N]|]; [|discriminate].
  simpl in H.
  destruct (LoopAccessInfo.tooManyChecks _ _ _).
  - destruct (LoopAccessInfo.emitAnalysis _ _) as [LAI1|] eqn:Hemit;
      [|discriminate].
    injection H as <-. apply emitAnalysis_decided in Hemit as (_ & _ & HRep).
    right. simpl. rewrite HRep. split; [done|by eexists].
  - injection H as <-. left. done.
Qed.

Lemma checkDependences_decided Strides Accesses Checker LAI LAI' :
  LoopAccessInfo.Report LAI = None ->
  LoopAccessInfo.CanVecMem LAI = true ->
  LoopAccessInfo.checkDependences IR SE DL AA Params TheLoop Strides Accesses
    Checker LAI = Some LAI' ->
  decided LAI'.
Proof.
  unfold LoopAccessInfo.checkDependences. intros HR HC H.
  destruct (AccessAnalysis.isDependencyCheckNeeded Accesses);
    [|injection H as <-; by left].
  destruct (DepChecker.areDepsSafe _ _ _ _ _ _ _ _ _) as [[Safe st]|];
    [|discriminate].
  simpl in H.
  destruct (negb Safe && _).
  - eapply retryWithRuntimeCheck_decided; [|exact H]. done.
  - destruct Safe; simpl in H.
    + injection H as <-. by left.
    + apply emitAnalysis_decided in H as (HC' & _ & HRep).
      right. rewrite HC', HRep. split; [done|by eexists].
Qed.

Lemma checkMemory_decided Strides Accesses Checker LAI LAI' :
  LoopAccessInfo.Report LAI = None ->
  LoopAccessInfo.checkMemory IR SE DL AA Params TheLoop Strides Accesses
    Checker LAI = Some LAI' ->
  decided LAI'.
Proof.
  unfold LoopAccessInfo.checkMemory. intros HR H.
  destruct (AccessAnalysis.buildDependenceSets IR AA Accesses) as [A1|];
    [|discriminate].
  simpl in H.
  match type of H with
  | context [mbind _ ?x] => destruct x as [[[CanDoRT R] N]|]; [|discriminate]
  end.
  simpl in H.
  destruct (LoopAccessInfo.tooManyChecks Params CanDoRT N).
  - match type of H with
    | (if ?c then _ else _) = _ => destruct c
    end.
    + destruct (LoopAccessInfo.emitAnalysis _ _) as [LAI1|] eqn:Hemit;
        [|discriminate].
      injection H as <-. apply emitAnalysis_decided in Hemit as (_ & _ & HRep).
      right. simpl. rewrite HRep. split; [done|by eexists].
    + eapply checkDependences_decided; [| |exact H]; done.
  - match type of H with
    | (if ?c then _ else _) = _ => destruct c
    end.
    + destruct (LoopAccessInfo.emitAnalysis _ _) as [LAI1|] eqn:Hemit;
        [|discriminate].
      injection H as <-. apply emitAnalysis_decided in Hemit as (_ & _ & HRep).
      right. simpl. rewrite HRep. split; [done|by eexists].
    + eapply checkDependences_decided; [| |exact H]; done.
Qed.

End Verdict.

(** ** The verdicts of the analysis *)

Lemma countersFit_init : countersFit LoopAccessInfo.init.
Proof. split; simpl; lia. Qed.

(** The collected stores are stores. *)
Lemma collected_stores insts :
  Forall (fun it => isCollectedStore it = true)
    (filter (fun it => isCollectedStore it = true) insts).
Proof. apply Forall_forall. by intros it [? _]%list_elem_of_filter. Qed.

(** A collected store to a loop-invariant address is what [noUniformStore]
    excludes. *)
Lemma existsb_uniformStore SE TheLoop :
  existsb (isUniformStore SE TheLoop)
    (filter (fun it => isCollectedStore it = true)
       (concat (getBlocks TheLoop)))
  = negb (noUniformStore SE TheLoop).
Proof.
  unfold noUniformStore.
  induction (concat (getBlocks TheLoop)) as [|it insts IH]; [done|].
  rewrite filter_one. simpl. destruct (isCollectedStore it) eqn:Hc; simpl.
  - rewrite IH. unfold isUniformStore. unfold isCollectedStore in Hc.
    destruct (Kind it); try (by rewrite andb_false_r in Hc). simpl.
    by destruct (LoopAccessInfo.isUniform SE TheLoop _).
  - exact IH.
Qed.

Section Verdicts.

Context (IR : IRContext) (SE : ScalarEvolution) (DL : DataLayout)
        (AA : AliasAnalysis) (DT : DominatorTree) (Params : VectorizerParams)
        (TheLoop : Loop) (indet : Z) (Strides : ValueToValueMap).

(** The analysis of a loop of the right shape starts with the scan of its
    instructions on the initial state. *)
Lemma analysis_scan :
  shapeOk SE TheLoop = true ->
  exists s,
    LoopAccessInfo.collectAccesses TheLoop (isAnnotatedParallel TheLoop)
      (DepChecker.init indet) LoopAccessInfo.init
    = Some (negb (forallb (isAcceptedAccess (isAnnotatedParallel TheLoop))
                    (concat (getBlocks TheLoop))), s) /\
    LoopAccessInfo.PtrRtCheck (LoopAccessInfo.scanInfo s)
    = RtCheck.empty_check /\
    (if forallb (isAcceptedAccess (isAnnotatedParallel TheLoop))
          (concat (getBlocks TheLoop))
     then scanned (concat (getBlocks TheLoop))
            {| LoopAccessInfo.Loads := []; LoopAccessInfo.Stores := [];
               LoopAccessInfo.scanChecker := DepChecker.init indet;
               LoopAccessInfo.scanInfo := LoopAccessInfo.init |} s
     else
       LoopAccessInfo.CanVecMem (LoopAccessInfo.scanInfo s) = false /\
       exists m, LoopAccessInfo.Report (LoopAccessInfo.scanInfo s)
                 = Some (Message m) /\ m ∈ scanReports) /\
    LoopAccessInfo.LoopAccessInfo IR SE DL AA DT Params TheLoop indet Strides
    = if negb (forallb (isAcceptedAccess (isAnnotatedParallel TheLoop))
                 (concat (getBlocks TheLoop)))
      then Some (LoopAccessInfo.scanInfo s)
      else
        let LAI := LoopAccessInfo.scanInfo s in
        if bool_decide (LoopAccessInfo.Stores s = [])
        then Some (LoopAccessInfo.set_CanVecMem true LAI) else
        match LoopAccessInfo.registerStores SE AA DT TheLoop
                (LoopAccessInfo.Stores s) LAI with
        | Some (Left, p) =>
            if Left : bool then Some (LoopAccessInfo.ptrInfo p) else
            if isAnnotatedParallel TheLoop
            then Some (LoopAccessInfo.set_CanVecMem true
                         (LoopAccessInfo.ptrInfo p))
            else
              p ← LoopAccessInfo.registerLoads IR SE DL AA DT TheLoop Strides
                    (LoopAccessInfo.Loads s) p;
              if (LoopAccessInfo.NumReadWrites p =? 1)
                 && (LoopAccessInfo.NumReads p =? 0)
              then Some (LoopAccessInfo.set_CanVecMem true
                           (LoopAccessInfo.ptrInfo p))
              else LoopAccessInfo.checkMemory IR SE DL AA Params TheLoop
                     Strides (LoopAccessInfo.Accesses p)
                     (LoopAccessInfo.scanChecker s)
                     (LoopAccessInfo.ptrInfo p)
        | None => None
        end.
Proof.
  intros Hshape.
  destruct (scan_outcome (isAnnotatedParallel TheLoop)
              (concat (getBlocks TheLoop))
              {| LoopAccessInfo.Loads := []; LoopAccessInfo.Stores := [];
                 LoopAccessInfo.scanChecker := DepChecker.init indet;
                 LoopAccessInfo.scanInfo := LoopAccessInfo.init |}
              eq_refl countersFit_init) as (s & Hrun & HP & Hrest).
  exists s. unfold LoopAccessInfo.collectAccesses.
  split; [exact Hrun|]. split; [exact HP|]. split; [exact Hrest|].
  unfold LoopAccessInfo.LoopAccessInfo.
  destruct (canAnalyzeLoop_outcome SE TheLoop LoopAccessInfo.init eq_refl)
    as (LAI0 & -> & HLAI0).
  rewrite Hshape in *. subst LAI0. simpl.
  unfold LoopAccessInfo.analyzeLoop, LoopAccessInfo.collectAccesses.
  change (LoopAccessInfo.set_PtrRtCheck _ LoopAccessInfo.init)
    with LoopAccessInfo.init.
  rewrite Hrun. simpl.
  destruct (negb _); [done|].
  case_bool_decide; [done|].
  destruct (LoopAccessInfo.registerStores _ _ _ _ _ _) as [[[] p]|]; done.
Qed.

End Verdicts.

(** A loop that has not the shape the analysis requires is not looked
    into. *)
Lemma unanalyzable_shape
    (IR : IRContext) (SE : ScalarEvolution) (DL : DataLayout)
    (AA : AliasAnalysis) (DT : DominatorTree) (Params : VectorizerParams)
    (TheLoop : Loop) (indet : Z) (Strides : ValueToValueMap) :
  shapeOk SE TheLoop = false ->
  exists m,
    m ∈ shapeReports /\
    LoopAccessInfo.LoopAccessInfo IR SE DL AA DT Params TheLoop indet Strides
    = Some {| LoopAccessInfo.PtrRtCheck := RtCheck.empty_check;
              LoopAccessInfo.NumLoads := 0;
              LoopAccessInfo.NumStores := 0;
              LoopAccessInfo.MaxSafeDepDistBytes := UINT_MAX;
              LoopAccessInfo.CanVecMem := false;
              LoopAccessInfo.Report := Some (Message m) |}.
Proof.
  intros Hshape. unfold LoopAccessInfo.LoopAccessInfo.
  destruct (canAnalyzeLoop_outcome SE TheLoop LoopAccessInfo.init eq_refl)
    as (LAI & Hcan & HLAI).
  rewrite Hshape in *.
  destruct HLAI as (HP & HL & HS & HM & HC & m & HR & Hm).
  exists m. split; [exact Hm|].
  rewrite Hcan. simpl. f_equal. destruct LAI. simpl in *. congruence.
Qed.

(** X11: a loop that has not the shape the analysis requires (innermost, one
    backedge, one exiting block which is the latch, a computable
    backedge-taken count) is not looked into: the answer is that it cannot
    be vectorized, with a report on the shape, no load or store counted and
    an empty runtime check. *)
Theorem unanalyzable_loop_rejected
    (IR : IRContext) (SE : ScalarEvolution) (DL : DataLayout)
    (AA : AliasAnalysis) (DT : DominatorTree) (Params : VectorizerParams)
    (TheLoop : Loop) (indet : Z) (Strides : ValueToValueMap) :
  shapeOk SE TheLoop = false ->
  exists m,
    m ∈ shapeReports /\
    (empty TheLoop = false -> m = "loop is not the innermost loop"%string) /\
    LoopAccessInfo.LoopAccessInfo IR SE DL AA DT Params TheLoop indet Strides
    = Some {| LoopAccessInfo.PtrRtCheck := RtCheck.empty_check;
              LoopAccessInfo.NumLoads := 0;
              LoopAccessInfo.NumStores := 0;
              LoopAccessInfo.MaxSafeDepDistBytes := UINT_MAX;
              LoopAccessInfo.CanVecMem := false;
              LoopAccessInfo.Report := Some (Message m) |}.
Proof.
  intros Hshape.
  destruct (unanalyzable_shape IR SE DL AA DT Params TheLoop indet Strides
              Hshape) as (m & Hm & Hres).
  exists m. split; [exact Hm|]. split; [|exact Hres].
  intros Hempty. revert Hres.
  unfold LoopAccessInfo.LoopAccessInfo, LoopAccessInfo.canAnalyzeLoop.
  rewrite Hempty. simpl. by intros [= ->].
Qed.

(** X12: the analysis stops at the first instruction it does not accept: the
    answer is that the loop cannot be vectorized, with the report of the
    scan and an empty runtime check. *)
Theorem unaccepted_instruction_rejected
    (IR : IRContext) (SE : ScalarEvolution) (DL : DataLayout)
    (AA : AliasAnalysis) (DT : DominatorTree) (Params : VectorizerParams)
    (TheLoop : Loop) (indet : Z) (Strides : ValueToValueMap) :
  shapeOk SE TheLoop = true ->
  forallb (isAcceptedAccess (isAnnotatedParallel TheLoop))
    (concat (getBlocks TheLoop)) = false ->
  exists LAI m,
    LoopAccessInfo.LoopAccessInfo IR SE DL AA DT Params TheLoop indet Strides
    = Some LAI /\
    LoopAccessInfo.CanVecMem LAI = false /\
    LoopAccessInfo.Report LAI = Some (Message m) /\ m ∈ scanReports /\
    LoopAccessInfo.PtrRtCheck LAI = RtCheck.empty_check.
Proof.
  intros Hshape Hacc.
  destruct (analysis_scan IR SE DL AA DT Params TheLoop indet Strides Hshape)
    as (s & _ & HP & Hrest & ->).
  rewrite Hacc in *. simpl.
  destruct Hrest as (HC & m & HR & Hm).
  exists (LoopAccessInfo.scanInfo s), m. done.
Qed.

(** X13: a loop of the right shape whose instructions are all accepted and
    none of which is a store can be vectorized, whatever its loads are: no
    report, no runtime check, and the loads counted. *)
Theorem loop_without_stores_accepted
    (IR : IRContext) (SE : ScalarEvolution) (DL : DataLayout)
    (AA : AliasAnalysis) (DT : DominatorTree) (Params : VectorizerParams)
    (TheLoop : Loop) (indet : Z) (Strides : ValueToValueMap) :
  shapeOk SE TheLoop = true ->
  forallb (isAcceptedAccess (isAnnotatedParallel TheLoop))
    (concat (getBlocks TheLoop)) = true ->
  filter (fun it => isCollectedStore it = true) (concat (getBlocks TheLoop))
  = [] ->
  LoopAccessInfo.LoopAccessInfo IR SE DL AA DT Params TheLoop indet Strides
  = Some {| LoopAccessInfo.PtrRtCheck := RtCheck.empty_check;
            LoopAccessInfo.NumLoads :=
              u32 (Z.of_nat
                     (length (filter (fun it => isCollectedLoad it = true)
                                (concat (getBlocks TheLoop)))));
            LoopAccessInfo.NumStores := 0;
            LoopAccessInfo.MaxSafeDepDistBytes := UINT_MAX;
            LoopAccessInfo.CanVecMem := true;
            LoopAccessInfo.Report := None |}.
Proof.
  intros Hshape Hacc Hst.
  destruct (analysis_scan IR SE DL AA DT Params TheLoop indet Strides Hshape)
    as (s & _ & HP & Hrest & ->).
  rewrite Hacc in *. simpl.
  destruct Hrest
    as ((_ & _ & HR) & _ & HS & HNL & HNS & _ & _ & _ & HM & _).
  simpl in HR, HS, HNL, HNS, HM. rewrite Hst in *.
  rewrite bool_decide_eq_true_2 by done.
  unfold LoopAccessInfo.set_CanVecMem. rewrite HP, HNL, HNS, HM, HR.
  reflexivity.
Qed.

(** X14: a loop of the right shape whose instructions are all accepted and
    one of whose stores writes to a loop-invariant address cannot be
    vectorized, annotated parallel or not; the report names the store. *)
Theorem uniform_store_rejected
    (IR : IRContext) (SE : ScalarEvolution) (DL : DataLayout)
    (AA : AliasAnalysis) (DT : DominatorTree) (Params : VectorizerParams)
    (TheLoop : Loop) (indet : Z) (Strides : ValueToValueMap) :
  shapeOk SE TheLoop = true ->
  forallb (isAcceptedAccess (isAnnotatedParallel TheLoop))
    (concat (getBlocks TheLoop)) = true ->
  noUniformStore SE TheLoop = false ->
  exists LAI,
    LoopAccessInfo.LoopAccessInfo IR SE DL AA DT Params TheLoop indet Strides
    = Some LAI /\
    LoopAccessInfo.CanVecMem LAI = false /\
    LoopAccessInfo.Report LAI
    = Some (Message
              "write to a loop invariant address could not be vectorized") /\
    LoopAccessInfo.PtrRtCheck LAI = RtCheck.empty_check.
Proof.
  intros Hshape Hacc Hunif.
  destruct (analysis_scan IR SE DL AA DT Params TheLoop indet Strides Hshape)
    as (s & _ & HP & Hrest & ->).
  rewrite Hacc in *. simpl.
  destruct Hrest as ((_ & _ & HR) & _ & HS & _).
  simpl in HR, HS.
  pose proof (existsb_uniformStore SE TheLoop) as Hex.
  rewrite Hunif in Hex. simpl in Hex.
  case_bool_decide as Hnil.
  { rewrite HS in Hnil. rewrite Hnil in Hex. discriminate. }
  unfold LoopAccessInfo.registerStores.
  match goal with
  | |- context [iterate_until _ _ ?p] =>
      destruct (registerStores_outcome SE AA DT TheLoop
                  (LoopAccessInfo.Stores s) p) as (p' & -> & HP' & Hrest)
  end.
  { exact HR. }
  { rewrite HS. apply collected_stores. }
  rewrite HS, Hex in *. destruct Hrest as [HC HRep].
  exists (LoopAccessInfo.ptrInfo p'). simpl in HP'. split_and!; congruence.
Qed.

(** X15: whenever the analysis answers, it has come to a verdict: either the
    loop can be vectorized and there is no report, or it cannot and there is
    a report; never both a positive answer and a report, nor a negative
    answer without one. *)
Theorem analysis_decided
    (IR : IRContext) (SE : ScalarEvolution) (DL : DataLayout)
    (AA : AliasAnalysis) (DT : DominatorTree) (Params : VectorizerParams)
    (TheLoop : Loop) (indet : Z) (Strides : ValueToValueMap)
    (LAI : LoopAccessInfo.t) :
  LoopAccessInfo.LoopAccessInfo IR SE DL AA DT Params TheLoop indet Strides
  = Some LAI ->
  decided LAI.
Proof.
  destruct (shapeOk SE TheLoop) eqn:Hshape.
  - destruct (analysis_scan IR SE DL AA DT Params TheLoop indet Strides Hshape)
      as (s & _ & HP & Hrest & ->).
    destruct (forallb _ _); simpl.
    + destruct Hrest as ((_ & _ & HR) & _ & HS & _). simpl in HR, HS.
      case_bool_decide; [intros [= <-]; by left|].
      unfold LoopAccessInfo.registerStores.
      match goal with
      | |- context [iterate_until _ _ ?p] =>
          destruct (registerStores_outcome SE AA DT TheLoop
                      (LoopAccessInfo.Stores s) p) as (p' & -> & HP' & Hst)
      end.
      { exact HR. }
      { rewrite HS. apply collected_stores. }
      destruct (existsb _ _).
      { destruct Hst as [HC HRep]. intros [= <-]. right.
        rewrite HRep. split; [done|by eexists]. }
      simpl in Hst.
      destruct (isAnnotatedParallel TheLoop).
      { intros [= <-]. left. simpl. by rewrite Hst. }
      destruct (LoopAccessInfo.registerLoads _ _ _ _ _ _ _ _ _)
        as [p1|] eqn:Hld; [|discriminate].
      apply registerLoads_ptrInfo in Hld as [Hinfo _]. simpl.
      destruct (_ && _).
      { intros [= <-]. left. simpl. by rewrite Hinfo, Hst. }
      apply checkMemory_decided. by rewrite Hinfo, Hst.
    + destruct Hrest as (HC & m & HR & _). intros [= <-]. right.
      rewrite HR. split; [done|by eexists].
  - destruct (unanalyzable_shape IR SE DL AA DT Params TheLoop indet Strides
                Hshape) as (m & _ & ->).
    intros [= <-]. right. simpl. split; [done|by eexists].
Qed.

Section SingleStore.

Context (SE : ScalarEvolution) (AA : AliasAnalysis) (DT : DominatorTree)
        (TheLoop : Loop) (P : Value).

(** The loop over stores that all go through one pointer counts that
    pointer once. *)
Lemma registerStores_single (stores : list Instruction) : forall p,
  Forall (fun it => LoopAccessInfo.storePointer it = Some P) stores ->
  LoopAccessInfo.isUniform SE TheLoop P = false ->
  (if bool_decide (P ∈ LoopAccessInfo.Seen p)
   then LoopAccessInfo.NumReadWrites p = 1
   else LoopAccessInfo.NumReadWrites p = 0) ->
  exists p',
    iterate_until (LoopAccessInfo.registerStore SE AA DT TheLoop) stores p
    = Some (false, p') /\
    LoopAccessInfo.ptrInfo p' = LoopAccessInfo.ptrInfo p /\
    LoopAccessInfo.NumReads p' = LoopAccessInfo.NumReads p /\
    (if bool_decide (P ∈ LoopAccessInfo.Seen p')
     then LoopAccessInfo.NumReadWrites p' = 1
     else LoopAccessInfo.NumReadWrites p' = 0) /\
    (stores <> [] -> P ∈ LoopAccessInfo.Seen p').
Proof.
  induction stores as [|it stores IH]; intros p Hall Hu Hinv.
  - exists p. done.
  - apply Forall_cons in Hall as [Hit Hall]. simpl.
    unfold LoopAccessInfo.registerStore at 1. rewrite Hit. simpl. rewrite Hu.
    assert (Hkeep : forall q,
              P ∈ LoopAccessInfo.Seen q ->
              (if bool_decide (P ∈ LoopAccessInfo.Seen q)
               then LoopAccessInfo.NumReadWrites q = 1
               else LoopAccessInfo.NumReadWrites q = 0) ->
              LoopAccessInfo.ptrInfo q = LoopAccessInfo.ptrInfo p ->
              LoopAccessInfo.NumReads q = LoopAccessInfo.NumReads p ->
              exists p',
                iterate_until (LoopAccessInfo.registerStore SE AA DT TheLoop)
                  stores q = Some (false, p') /\
                LoopAccessInfo.ptrInfo p' = LoopAccessInfo.ptrInfo p /\
                LoopAccessInfo.NumReads p' = LoopAccessInfo.NumReads p /\
                (if bool_decide (P ∈ LoopAccessInfo.Seen p')
                 then LoopAccessInfo.NumReadWrites p' = 1
                 else LoopAccessInfo.NumReadWrites p' = 0) /\
                (it :: stores <> [] -> P ∈ LoopAccessInfo.Seen p')).
    { intros q Hq Hinvq Hinfo Hreads.
      destruct (IH q Hall Hu Hinvq)
        as (p' & Hrun & Hinfo' & Hreads' & Hinv' & Hin).
      exists p'. split_and!; try congruence.
      intros _. destruct stores as [|x l]; [|by apply Hin].
      simpl in Hrun. by injection Hrun as <-. }
    destruct (decide (P ∈ LoopAccessInfo.Seen p)) as [Hseen|Hseen].
    + rewrite (bool_decide_eq_false_2 (P ∉ LoopAccessInfo.Seen p)) by auto.
      apply Hkeep; done.
    + rewrite (bool_decide_eq_true_2 (P ∉ LoopAccessInfo.Seen p)) by done.
      rewrite bool_decide_eq_false_2 in Hinv by done.
      apply Hkeep; simpl; try done.
      * apply elem_of_union_l. by apply elem_of_singleton.
      * rewrite bool_decide_eq_true_2
          by (apply elem_of_union_l; by apply elem_of_singleton).
        by rewrite Hinv.
Qed.

End SingleStore.

(** X16: a loop of the right shape whose instructions are all accepted, that
    has no load, and whose stores all go through one pointer that varies in
    the loop can be vectorized without a runtime check: a single destination
    and no other read. *)
Theorem single_store_pointer_accepted
    (IR : IRContext) (SE : ScalarEvolution) (DL : DataLayout)
    (AA : AliasAnalysis) (DT : DominatorTree) (Params : VectorizerParams)
    (TheLoop : Loop) (indet : Z) (Strides : ValueToValueMap) (P : Value) :
  shapeOk SE TheLoop = true ->
  forallb (isAcceptedAccess (isAnnotatedParallel TheLoop))
    (concat (getBlocks TheLoop)) = true ->
  filter (fun it => isCollectedLoad it = true) (concat (getBlocks TheLoop))
  = [] ->
  Forall (fun it => LoopAccessInfo.storePointer it = Some P)
    (filter (fun it => isCollectedStore it = true)
       (concat (getBlocks TheLoop))) ->
  LoopAccessInfo.isUniform SE TheLoop P = false ->
  exists LAI,
    LoopAccessInfo.LoopAccessInfo IR SE DL AA DT Params TheLoop indet Strides
    = Some LAI /\
    LoopAccessInfo.CanVecMem LAI = true /\
    LoopAccessInfo.Report LAI = None /\
    LoopAccessInfo.PtrRtCheck LAI = RtCheck.empty_check.
Proof.
  intros Hshape Hacc Hld Hst Hu.
  destruct (analysis_scan IR SE DL AA DT Params TheLoop indet Strides Hshape)
    as (s & _ & HP & Hrest & ->).
  rewrite Hacc in *. simpl.
  destruct Hrest as ((_ & _ & HR) & HL & HS & _). simpl in HR, HL, HS.
  case_bool_decide as Hnil.
  { eexists. split; [reflexivity|]. by split_and!. }
  unfold LoopAccessInfo.registerStores.
  match goal with
  | |- context [iterate_until _ _ ?p] =>
      destruct (registerStores_single SE AA DT TheLoop P
                  (LoopAccessInfo.Stores s) p)
        as (p' & -> & Hinfo & Hreads & Hinv & Hin)
  end.
  { by rewrite HS. }
  { done. }
  { done. }
  simpl in Hinfo, Hreads.
  rewrite bool_decide_eq_true_2 in Hinv by auto.
  destruct (isAnnotatedParallel TheLoop).
  { eexists. split; [reflexivity|]. simpl. rewrite Hinfo. by split_and!. }
  rewrite HL, Hld. simpl. rewrite Hinv, Hreads. simpl.
  eexists. split; [reflexivity|]. simpl. rewrite Hinfo. by split_and!.
Qed.

(** X17: on a loop whose instructions are all accepted, the scan collects the
    loads and the stores in program order, counts them, and logs every one
    of them in the dependence checker at its program-order index: the log is
    in program order as long as there are fewer than [2 ^ 32] accesses.  The
    instructions that access no memory and the calls of intrinsics are
    skipped. *)
Theorem collectAccesses_program_order
    (TheLoop : Loop) (parallel : bool) (indet : Z) :
  forallb (isAcceptedAccess parallel) (concat (getBlocks TheLoop)) = true ->
  let insts := concat (getBlocks TheLoop) in
  let accesses := filter (fun it => isCollected it = true) insts in
  Z.of_nat (length accesses) < 2 ^ 32 ->
  exists s,
    LoopAccessInfo.collectAccesses TheLoop parallel (DepChecker.init indet)
      LoopAccessInfo.init = Some (false, s) /\
    LoopAccessInfo.Loads s
    = filter (fun it => isCollectedLoad it = true) insts /\
    LoopAccessInfo.Stores s
    = filter (fun it => isCollectedStore it = true) insts /\
    LoopAccessInfo.NumLoads (LoopAccessInfo.scanInfo s)
    = u32 (Z.of_nat (length (LoopAccessInfo.Loads s))) /\
    LoopAccessInfo.NumStores (LoopAccessInfo.scanInfo s)
    = u32 (Z.of_nat (length (LoopAccessInfo.Stores s))) /\
    DepChecker.InstMap (LoopAccessInfo.scanChecker s)
    = InstValue <$> accesses /\
    DepChecker.AccessIdx (LoopAccessInfo.scanChecker s)
    = Z.of_nat (length accesses) /\
    logged (LoopAccessInfo.scanChecker s).
Proof.
  intros Hacc insts accesses Hlen.
  destruct (scan_outcome parallel insts
              {| LoopAccessInfo.Loads := []; LoopAccessInfo.Stores := [];
                 LoopAccessInfo.scanChecker := DepChecker.init indet;
                 LoopAccessInfo.scanInfo := LoopAccessInfo.init |}
              eq_refl countersFit_init) as (s & Hrun & _ & Hrest).
  unfold insts in Hrun, Hrest. rewrite Hacc in Hrun, Hrest.
  destruct Hrest as (_ & HL & HS & HNL & HNS & HI & _ & _ & _ & Hlog).
  simpl in HL, HS, HNL, HNS, HI, Hlog.
  destruct (Hlog (logged_init indet)) as [Hlogged Hidx]; [exact Hlen|].
  exists s. unfold LoopAccessInfo.collectAccesses.
  split; [exact Hrun|]. rewrite HL, HS. by split_and!.
Qed.

(** ** The runtime-check builder *)

Lemma extends_refl IR SE DL A TheLoop Strides ShouldCheckStride R :
  extends IR SE DL A TheLoop Strides ShouldCheckStride [] R R.
Proof. unfold extends. by rewrite !app_nil_r. Qed.

Lemma extends_trans IR SE DL A TheLoop Strides ShouldCheckStride
    l1 l2 R1 R2 R3 :
  extends IR SE DL A TheLoop Strides ShouldCheckStride l1 R1 R2 ->
  extends IR SE DL A TheLoop Strides ShouldCheckStride l2 R2 R3 ->
  extends IR SE DL A TheLoop Strides ShouldCheckStride (l1 ++ l2) R1 R3.
Proof.
  intros (HN1 & HP1 & HW1 & HF1) (HN2 & HP2 & HW2 & HF2).
  unfold extends. rewrite HN2, HN1, HP2, HP1, HW2, HW1, fmap_app, !app_assoc.
  split_and!; try done. by apply Forall_app.
Qed.

Section Built.

Context (IR : IRContext) (SE : ScalarEvolution) (DL : DataLayout)
        (AA : AliasAnalysis) (A : AccessAnalysis.t) (TheLoop : LoopId)
        (Strides : ValueToValueMap) (ShouldCheckStride : bool).

(** One pointer: it is added, or the runtime check cannot be done. *)
Lemma checkPointer_built IsDepCheckNeeded ASId Ptr s s' :
  AccessAnalysis.checkPointer IR SE DL A TheLoop Strides ShouldCheckStride
    IsDepCheckNeeded ASId Ptr s = Some s' ->
  RtCheck.wf (AccessAnalysis.sRtCheck s) ->
  RtCheck.wf (AccessAnalysis.sRtCheck s') /\
  exists added,
    extends IR SE DL A TheLoop Strides ShouldCheckStride added
      (AccessAnalysis.sRtCheck s) (AccessAnalysis.sRtCheck s') /\
    ((added = [Ptr] /\
      AccessAnalysis.CanDoRT s' = AccessAnalysis.CanDoRT s) \/
     (added = [] /\ AccessAnalysis.CanDoRT s' = false)).
Proof.
  unfold AccessAnalysis.checkPointer. intros H Hwf.
  destruct (hasComputableBounds IR SE Strides Ptr) eqn:Hb; simpl in H.
  - destruct ShouldCheckStride eqn:Hscs; simpl in H.
    + destruct (isStridedPtr IR SE DL Ptr TheLoop Strides) as [k|] eqn:Hk;
        [|discriminate].
      simpl in H. destruct (Z.eqb_spec k 1) as [->|Hne].
      * match type of H with
        | context [mbind _ ?x] =>
            destruct x as [[[DepId Running] Ids]|]; [|discriminate]
        end.
        simpl in H.
        destruct (RtCheck.insert _ _ _ _ _ _ _ _ _) as [R|] eqn:Hins;
          [|discriminate].
        injection H as <-. simpl.
        destruct (wf_insert _ _ _ _ _ _ _ _ _ _ Hwf Hins) as [Hwf' _].
        apply insert_fields in Hins as (HN & HP & HW & _).
        split; [done|]. exists [Ptr]. split; [|by left].
        unfold extends. split_and!; try done.
        apply Forall_singleton. done.
      * injection H as <-. simpl. split; [done|].
        exists []. split; [apply extends_refl|by right].
    + match type of H with
      | context [mbind _ ?x] =>
          destruct x as [[[DepId Running] Ids]|]; [|discriminate]
      end.
      simpl in H.
      destruct (RtCheck.insert _ _ _ _ _ _ _ _ _) as [R|] eqn:Hins;
        [|discriminate].
      injection H as <-. simpl.
      destruct (wf_insert _ _ _ _ _ _ _ _ _ _ Hwf Hins) as [Hwf' _].
      apply insert_fields in Hins as (HN & HP & HW & _).
      split; [done|]. exists [Ptr]. split; [|by left].
      unfold extends. split_and!; try done.
      apply Forall_singleton. done.
  - injection H as <-. simpl. split; [done|].
    exists []. split; [apply extends_refl|by right].
Qed.

(** The pointers of one alias set. *)
Lemma checkPointers_built IsDepCheckNeeded ASId (AS : list Value) :
  forall s s',
  for_each (AccessAnalysis.checkPointer IR SE DL A TheLoop Strides
              ShouldCheckStride IsDepCheckNeeded ASId) AS s = Some s' ->
  RtCheck.wf (AccessAnalysis.sRtCheck s) ->
  RtCheck.wf (AccessAnalysis.sRtCheck s') /\
  (AccessAnalysis.CanDoRT s = false -> AccessAnalysis.CanDoRT s' = false) /\
  exists added,
    extends IR SE DL A TheLoop Strides ShouldCheckStride added
      (AccessAnalysis.sRtCheck s) (AccessAnalysis.sRtCheck s') /\
    added `sublist_of` AS /\
    (AccessAnalysis.CanDoRT s' = true -> added = AS).
Proof.
  induction AS as [|Ptr AS IH]; intros s s' H Hwf; simpl in H.
  - injection H as <-. split; [done|]. split; [done|].
    exists []. split; [apply extends_refl|]. done.
  - destruct (AccessAnalysis.checkPointer _ _ _ _ _ _ _ _ _ Ptr s)
      as [s1|] eqn:Hstep; [|discriminate].
    apply checkPointer_built in Hstep as (Hwf1 & l1 & Hext1 & Hcase); [|done].
    apply IH in H as (Hwf' & Hmono & l2 & Hext2 & Hsub & Hall); [|done].
    split; [done|]. split.
    { intros Hs. apply Hmono. destruct Hcase as [[_ ->]|[_ ->]]; done. }
    exists (l1 ++ l2). split; [by eapply extends_trans|].
    destruct Hcase as [[-> HC]|[-> HC]]; simpl.
    + split; [by apply sublist_skip|]. intros Hok. f_equal. auto.
    + split; [by apply sublist_cons|]. intros Hok.
      rewrite Hmono in Hok; done.
Qed.

(** The alias sets. *)
Lemma checkAliasSets_built IsDepCheckNeeded (ASs : list (list Value)) :
  forall b b',
  for_each (AccessAnalysis.checkAliasSet IR SE DL A TheLoop Strides
              ShouldCheckStride IsDepCheckNeeded) ASs b = Some b' ->
  RtCheck.wf (AccessAnalysis.bRtCheck b) ->
  RtCheck.wf (AccessAnalysis.bRtCheck b') /\
  (AccessAnalysis.bCanDoRT b = false -> AccessAnalysis.bCanDoRT b' = false) /\
  exists added,
    extends IR SE DL A TheLoop Strides ShouldCheckStride added
      (AccessAnalysis.bRtCheck b) (AccessAnalysis.bRtCheck b') /\
    added `sublist_of` concat ASs /\
    (AccessAnalysis.bCanDoRT b' = true -> added = concat ASs).
Proof.
  induction ASs as [|AS ASs IH]; intros b b' H Hwf; simpl in H.
  - injection H as <-. split; [done|]. split; [done|].
    exists []. split; [apply extends_refl|]. done.
  - destruct (AccessAnalysis.checkAliasSet _ _ _ _ _ _ _ _ AS b)
      as [b1|] eqn:Hstep; [|discriminate].
    unfold AccessAnalysis.checkAliasSet in Hstep.
    destruct (for_each _ AS _) as [s|] eqn:Hptrs; [|discriminate].
    simpl in Hstep. injection Hstep as <-.
    apply checkPointers_built in Hptrs
      as (Hwf1 & Hmono1 & l1 & Hext1 & Hsub1 & Hall1); [|done].
    simpl in *.
    apply IH in H as (Hwf' & Hmono & l2 & Hext2 & Hsub & Hall); [|done].
    simpl in *.
    split; [done|]. split; [auto|].
    exists (l1 ++ l2). split; [by eapply extends_trans|].
    split; [by apply sublist_app|].
    intros Hok. rewrite (Hall Hok). f_equal. apply Hall1.
    destruct (AccessAnalysis.CanDoRT s); [done|].
    rewrite Hmono in Hok; done.
Qed.

End Built.

(** A loop with an early exit over a state that carries nothing: when it
    runs to the end, every round answered [false]. *)
Lemma iterate_until_all_false {A : Type} (f : A -> unit -> option (bool * unit))
    (l : list A) u :
  iterate_until f l tt = Some (false, u) ->
  forall x, x ∈ l -> f x tt = Some (false, tt).
Proof.
  induction l as [|y l IH]; intros H x Hx; [by apply elem_of_nil in Hx|].
  simpl in H. destruct (f y tt) as [[[] []]|] eqn:Hy; try discriminate.
  apply elem_of_cons in Hx as [->|Hx]; [done|]. by apply IH.
Qed.

(** The final loop of the builder found no pair of two address spaces. *)
Lemma comparesAddressSpaces_false IR R i j :
  AccessAnalysis.comparesAddressSpaces IR R = Some false ->
  (i < j)%nat -> (j < length (Pointers R))%nat ->
  exists dI dJ,
    DependencySetId R !! i = Some dI /\ DependencySetId R !! j = Some dJ /\
    (dI <> dJ ->
     exists aI aJ,
       AliasSetId R !! i = Some aI /\ AliasSetId R !! j = Some aJ /\
       (aI = aJ ->
        exists PtrI PtrJ TI TJ AS,
          Pointers R !! i = Some PtrI /\ Pointers R !! j = Some PtrJ /\
          getType IR PtrI = PointerTy TI AS /\
          getType IR PtrJ = PointerTy TJ AS)).
Proof.
  unfold AccessAnalysis.comparesAddressSpaces. intros H Hij Hj.
  destruct (iterate_until _ (seq 0 _) tt) as [[[] u]|] eqn:Houter;
    try discriminate.
  eapply iterate_until_all_false with (x := i) in Houter;
    [|apply elem_of_seq; lia].
  eapply iterate_until_all_false with (x := j) in Houter;
    [|apply elem_of_seq; lia].
  destruct (DependencySetId R !! i) as [dI|]; [|discriminate].
  destruct (DependencySetId R !! j) as [dJ|]; [|discriminate].
  simpl in Houter. exists dI, dJ. split; [done|]. split; [done|].
  intros Hd. destruct (Z.eqb_spec dI dJ); [done|].
  destruct (AliasSetId R !! i) as [aI|]; [|discriminate].
  destruct (AliasSetId R !! j) as [aJ|]; [|discriminate].
  simpl in Houter. exists aI, aJ. split; [done|]. split; [done|].
  intros Ha. destruct (Z.eqb_spec aI aJ); [|done]. simpl in Houter.
  destruct (Pointers R !! i) as [PtrI|]; [|discriminate].
  destruct (Pointers R !! j) as [PtrJ|]; [|discriminate].
  simpl in Houter.
  unfold DepChecker.getPointerAddressSpace in Houter.
  destruct (getType IR PtrI) as [| | |TI ASi| | |] eqn:HTI; try discriminate.
  destruct (getType IR PtrJ) as [| | |TJ ASj| | |] eqn:HTJ; try discriminate.
  simpl in Houter.
  destruct (N.eqb_spec ASi ASj) as [->|]; [|discriminate].
  by exists PtrI, PtrJ, TI, TJ, ASj.
Qed.

(** The answer of the builder, from the loop over the alias sets. *)
Lemma canCheckPtrAtRT_built IR SE DL AA A R0 TheLoop Strides
    ShouldCheckStride ok R N :
  AccessAnalysis.canCheckPtrAtRT IR SE DL AA A R0 TheLoop Strides
    ShouldCheckStride = Some (ok, R, N) ->
  RtCheck.wf R0 ->
  RtCheck.wf R /\
  (exists added,
     extends IR SE DL A TheLoop Strides ShouldCheckStride added R0 R /\
     added `sublist_of` concat (aliasSets AA (AccessAnalysis.AST A)) /\
     (ok = true -> added = concat (aliasSets AA (AccessAnalysis.AST A)))) /\
  (ok = true -> AccessAnalysis.comparesAddressSpaces IR R = Some false).
Proof.
  unfold AccessAnalysis.canCheckPtrAtRT. intros H Hwf.
  destruct (for_each _ _ _) as [b|] eqn:Hsets; [|discriminate].
  simpl in H.
  apply checkAliasSets_built in Hsets
    as (Hwf' & _ & added & Hext & Hsub & Hall); [|done].
  simpl in *.
  destruct (AccessAnalysis.comparesAddressSpaces IR (AccessAnalysis.bRtCheck b))
    as [[]|] eqn:Hcmp; try discriminate; injection H as <- <- <-.
  - split; [done|]. split; [|done]. exists added. by split_and!.
  - split; [done|]. split; [|done]. exists added. by split_and!.
Qed.


(** X19: when the runtime-check builder answers that the check can be done,
    the two pointers of every pair that needs a check are in one address
    space. *)
Theorem canCheckPtrAtRT_address_spaces IR SE DL AA A R0 TheLoop Strides
    ShouldCheckStride R N i j :
  AccessAnalysis.canCheckPtrAtRT IR SE DL AA A R0 TheLoop Strides
    ShouldCheckStride = Some (true, R, N) ->
  RtCheck.wf R0 ->
  (i < j)%nat ->
  RtCheck.needsChecking R i j = Some true ->
  exists PtrI PtrJ TI TJ AS,
    Pointers R !! i = Some PtrI /\ Pointers R !! j = Some PtrJ /\
    getType IR PtrI = PointerTy TI AS /\ getType IR PtrJ = PointerTy TJ AS.
Proof.
  intros H Hwf Hij Hneeds.
  apply canCheckPtrAtRT_built in H as ((_ & _ & HW & _ & _) & _ & Hcmp);
    [|done].
  specialize (Hcmp eq_refl).
  assert (Hj : (j < length (Pointers R))%nat).
  { rewrite <- HW. apply lookup_lt_is_Some.
    unfold RtCheck.needsChecking in Hneeds.
    destruct (IsWritePtr R !! i); [|discriminate].
    destruct (IsWritePtr R !! j); [by eexists|discriminate]. }
  destruct (comparesAddressSpaces_false IR R i j Hcmp Hij Hj)
    as (dI & dJ & HdI & HdJ & Hrest).
  unfold RtCheck.needsChecking in Hneeds.
  destruct (IsWritePtr R !! i) as [wI|]; [|discriminate].
  destruct (IsWritePtr R !! j) as [wJ|]; [|discriminate].
  simpl in Hneeds. destruct (negb wI && negb wJ); [discriminate|].
  rewrite HdI, HdJ in Hneeds. simpl in Hneeds.
  destruct (Z.eqb_spec dI dJ); [discriminate|].
  destruct (Hrest ltac:(done)) as (aI & aJ & HaI & HaJ & Hrest').
  rewrite HaI, HaJ in Hneeds. simpl in Hneeds.
  destruct (Z.eqb_spec aI aJ); [|discriminate].
  by apply Hrest'.
Qed.

(** ** The retry with a runtime check *)

(** X20: when the retry with a runtime check accepts the loop, the runtime
    check is needed and lists every pointer of the alias sets, in their
    order, with its write flag, and each of them has the stride 1; when it
    does not, the runtime check is empty and there is a report. *)
Theorem retryWithRuntimeCheck_result
    (IR : IRContext) (SE : ScalarEvolution) (DL : DataLayout)
    (AA : AliasAnalysis) (Params : VectorizerParams) (TheLoop : Loop)
    (Strides : ValueToValueMap) (Accesses : AccessAnalysis.t)
    (LAI LAI' : LoopAccessInfo.t) :
  LoopAccessInfo.retryWithRuntimeCheck IR SE DL AA Params TheLoop Strides
    Accesses LAI = Some LAI' ->
  let R := LoopAccessInfo.PtrRtCheck LAI' in
  (LoopAccessInfo.CanVecMem LAI' = true ->
   Need R = true /\ RtCheck.wf R /\
   Pointers R = concat (aliasSets AA (AccessAnalysis.AST Accesses)) /\
   IsWritePtr R = isWritten Accesses <$> Pointers R /\
   Forall (fun Ptr =>
             isStridedPtr IR SE DL Ptr (getLoopId TheLoop) Strides = Some 1)
          (Pointers R) /\
   LoopAccessInfo.Report LAI' = LoopAccessInfo.Report LAI) /\
  (LoopAccessInfo.CanVecMem LAI' = false ->
   R = RtCheck.empty_check /\ is_Some (LoopAccessInfo.Report LAI')).
Proof.
  intros H R. unfold LoopAccessInfo.retryWithRuntimeCheck in H.
  destruct (AccessAnalysis.canCheckPtrAtRT _ _ _ _ _ _ _ _ _)
    as [[[CanDoRT R1] N]|] eqn:Hcan; [|discriminate].
  simpl in H.
  apply canCheckPtrAtRT_built in Hcan
    as (Hwf & (added & (HN & HP & HW & HF) & _ & Hall) & _);
    [|apply wf_empty_check].
  simpl in HN, HP, HW, Hall.
  unfold LoopAccessInfo.tooManyChecks in H.
  destruct CanDoRT; simpl in H.
  - destruct (_ <? _).
    + destruct (LoopAccessInfo.emitAnalysis _ _) as [LAI1|] eqn:Hemit;
        [|discriminate].
      injection H as <-. apply emitAnalysis_decided in Hemit as (_ & _ & HRep).
      subst R. simpl. split; [done|]. intros _. rewrite HRep.
      split; [done|by eexists].
    + injection H as <-. subst R. simpl. split; [|done]. intros _.
      rewrite (Hall eq_refl) in *. split_and!; try done.
      * by rewrite HW, HP.
      * rewrite HP. eapply Forall_impl; [exact HF|]. simpl. intros Ptr [_ Hs].
        by apply Hs.
  - destruct (LoopAccessInfo.emitAnalysis _ _) as [LAI1|] eqn:Hemit;
      [|discriminate].
    injection H as <-. apply emitAnalysis_decided in Hemit as (_ & _ & HRep).
    subst R. simpl. split; [done|]. intros _. rewrite HRep.
    split; [done|by eexists].
Qed.

(** ** Building the dependence sets *)

Lemma for_each_preserves {A S : Type} (f : A -> S -> option S)
    (P : S -> Prop) (l : list A) :
  (forall x s s', x ∈ l -> f x s = Some s' -> P s -> P s') ->
  forall s s', for_each f l s = Some s' -> P s -> P s'.
Proof.
  induction l as [|x l IH]; intros Hf s s' H Hs; simpl in H.
  - by injection H as <-.
  - destruct (f x s) as [s1|] eqn:Hx; [|discriminate].
    eapply IH; [|exact H|].
    + intros y t t' Hy. apply Hf. by right.
    + eapply Hf; [left|exact Hx|exact Hs].
Qed.

Lemma elem_of_setvector_insert x y l :
  y ∈ AccessAnalysis.setvector_insert x l -> y = x \/ y ∈ l.
Proof.
  unfold AccessAnalysis.setvector_insert. case_bool_decide; [auto|].
  intros [?|?%list_elem_of_singleton]%elem_of_app; auto.
Qed.

Section Candidates.

Context (IR : IRContext) (AA : AliasAnalysis) (A : AccessAnalysis.t).

Lemma linkUnderlyingObject_candidates Access Obj p p' :
  AccessAnalysis.linkUnderlyingObject Access Obj p = Some p' ->
  candidatesOf A p -> candidatesOf A p'.
Proof. unfold AccessAnalysis.linkUnderlyingObject. by intros [= <-]. Qed.

Lemma processAccess_candidates UseDeferred S Ptr AC p p' :
  AC ∈ AccessAnalysis.Accesses A ->
  AccessAnalysis.processAccess IR A UseDeferred S Ptr AC p = Some p' ->
  candidatesOf A p -> candidatesOf A p'.
Proof.
  unfold AccessAnalysis.processAccess. intros HAC H Hinv.
  case_bool_decide as HPtr; [by injection H as <-|].
  assert (HAcc : (Ptr, AC.2) = AC).
  { destruct AC as [Q W]. simpl in *. f_equal.
    destruct (decide (Q = Ptr)); [done|]. by destruct HPtr. }
  destruct (UseDeferred && negb _); [by injection H as <-|].
  destruct (negb _); [discriminate|].
  destruct Hinv as (Hflag & Hdef & Hcand & Hwrite).
  match type of H with
  | (if ?c then _ else _) = _ => destruct c
  end.
  - injection H as <-. split_and!; try done. simpl.
    intros x [->|?]%elem_of_setvector_insert; [by rewrite HAcc|auto].
  - eapply (for_each_preserves _ (candidatesOf A)); [|exact H|].
    { intros Obj q q' _. apply linkUnderlyingObject_candidates. }
    clear H.
    destruct ((AC.2 || (bool_decide (Ptr ∈ AccessAnalysis.ReadOnlyPtr A)
                        && negb AC.2))
              && AccessAnalysis.SetHasWrite p) eqn:Hcheck; simpl.
    + apply andb_true_iff in Hcheck as [Hkind Hhas].
      split_and!; try done.
      * split; [intros _|done].
        intros Hempty. apply (not_elem_of_empty (C:=gset MemAccessInfo)
                                (Ptr, AC.2)).
        rewrite <- Hempty. apply elem_of_union_l. by apply elem_of_singleton.
      * intros Q W [HQ%elem_of_singleton|HQ]%elem_of_union; [|auto].
        injection HQ as -> ->. split; [by rewrite HAcc|].
        destruct AC.2; [auto|]. simpl in Hkind.
        rewrite andb_true_r in Hkind. apply bool_decide_eq_true in Hkind.
        auto.
      * intros _. apply Hwrite. auto.
    + split_and!; try done.
      intros [Hw|Hne]; [|auto].
      destruct AC.2 eqn:HW.
      * exists Ptr. by rewrite HAcc.
      * auto.
Qed.

Lemma processSetIteration_candidates AS UseDeferred p p' :
  AccessAnalysis.processSetIteration IR A AS UseDeferred p = Some p' ->
  candidatesOf A p -> candidatesOf A p'.
Proof.
  unfold AccessAnalysis.processSetIteration. intros H Hinv.
  assert (HS : forall AC,
            AC ∈ (if UseDeferred then AccessAnalysis.DeferredAccesses p
                  else AccessAnalysis.Accesses A) ->
            AC ∈ AccessAnalysis.Accesses A).
  { destruct UseDeferred; [|done]. by destruct Hinv as (_ & Hdef & _). }
  revert H HS.
  generalize (if UseDeferred then AccessAnalysis.DeferredAccesses p
              else AccessAnalysis.Accesses A).
  intros S H HS.
  eapply (for_each_preserves _ (candidatesOf A)); [|exact H|exact Hinv].
  intros Ptr q q' _ Hq Hinvq.
  eapply (for_each_preserves _ (candidatesOf A)); [|exact Hq|exact Hinvq].
  intros AC r r' HAC. apply processAccess_candidates. by apply HS.
Qed.

Lemma processAliasSet_candidates AS p p' :
  AccessAnalysis.processAliasSet IR A AS p = Some p' ->
  candidatesOf A p -> candidatesOf A p'.
Proof.
  unfold AccessAnalysis.processAliasSet. intros H Hinv.
  destruct (AccessAnalysis.processSetIteration IR A AS false _)
    as [p1|] eqn:H1; [|discriminate].
  simpl in H.
  apply processSetIteration_candidates in H1.
  - by apply processSetIteration_candidates in H.
  - destruct Hinv as (Hflag & _ & Hcand & Hwrite).
    split_and!; simpl; try done.
    + intros x []%elem_of_nil.
    + intros [?|?]; [done|auto].
Qed.

End Candidates.

(** The candidates after the dependence sets are built. *)
Lemma processMemAccesses_invariant IR AA A A' :
  AccessAnalysis.processMemAccesses IR AA A = Some A' ->
  AccessAnalysis.IsRTCheckNeeded A = false ->
  AccessAnalysis.CheckDeps A = ∅ ->
  AccessAnalysis.Accesses A' = AccessAnalysis.Accesses A /\
  AccessAnalysis.ReadOnlyPtr A' = AccessAnalysis.ReadOnlyPtr A /\
  AccessAnalysis.AST A' = AccessAnalysis.AST A /\
  (AccessAnalysis.IsRTCheckNeeded A' = true <->
   AccessAnalysis.CheckDeps A' <> ∅) /\
  (forall Ptr W, (Ptr, W) ∈ AccessAnalysis.CheckDeps A' ->
     (Ptr, W) ∈ AccessAnalysis.Accesses A /\
     (W = true \/ Ptr ∈ AccessAnalysis.ReadOnlyPtr A)) /\
  (AccessAnalysis.CheckDeps A' <> ∅ ->
   exists Q, (Q, true) ∈ AccessAnalysis.Accesses A).
Proof.
  unfold AccessAnalysis.processMemAccesses. intros H HRT HCD.
  destruct (for_each _ _ _) as [p|] eqn:Hsets; [|discriminate].
  simpl in H. injection H as <-. simpl.
  assert (Hinv : candidatesOf A p).
  { eapply (for_each_preserves _ (candidatesOf A)); [|exact Hsets|].
    - intros AS q q' _. apply processAliasSet_candidates.
    - split_and!; simpl.
      + rewrite HRT, HCD. split; done.
      + intros x []%elem_of_nil.
      + intros Ptr W. rewrite HCD. intros []%not_elem_of_empty.
      + rewrite HCD. intros [?|?]; done. }
  destruct Hinv as (Hflag & _ & Hcand & Hwrite).
  split_and!; try done. auto.
Qed.

(** X21: building the dependence sets on an access analysis that has no
    candidates yet keeps the registered accesses, the read-only pointers
    and the locations; afterwards a runtime check is needed exactly when a
    dependence check is; every candidate is a registered access, a write or
    a read of a read-only pointer; and there are candidates only if some
    pointer is written. *)
Theorem processMemAccesses_candidates IR AA A A' :
  AccessAnalysis.processMemAccesses IR AA A = Some A' ->
  AccessAnalysis.IsRTCheckNeeded A = false ->
  AccessAnalysis.CheckDeps A = ∅ ->
  AccessAnalysis.Accesses A' = AccessAnalysis.Accesses A /\
  AccessAnalysis.ReadOnlyPtr A' = AccessAnalysis.ReadOnlyPtr A /\
  AccessAnalysis.AST A' = AccessAnalysis.AST A /\
  AccessAnalysis.isRTCheckNeeded A'
  = AccessAnalysis.isDependencyCheckNeeded A' /\
  (forall Ptr W, (Ptr, W) ∈ AccessAnalysis.CheckDeps A' ->
     (Ptr, W) ∈ AccessAnalysis.Accesses A /\
     (W = true \/ Ptr ∈ AccessAnalysis.ReadOnlyPtr A)) /\
  (AccessAnalysis.isDependencyCheckNeeded A' = true ->
   exists Q, (Q, true) ∈ AccessAnalysis.Accesses A).
Proof.
  intros H HRT HCD.
  destruct (processMemAccesses_invariant IR AA A A' H HRT HCD)
    as (HA & HRO & HAST & Hflag & Hcand & Hwrite).
  unfold AccessAnalysis.isRTCheckNeeded,
    AccessAnalysis.isDependencyCheckNeeded.
  split_and!; try done.
  - destruct (AccessAnalysis.IsRTCheckNeeded A') eqn:Hp.
    + symmetry. apply negb_true_iff, bool_decide_eq_false. by apply Hflag.
    + symmetry. apply negb_false_iff, bool_decide_eq_true.
      destruct (decide (AccessAnalysis.CheckDeps A' = ∅)) as [|Hne];
        [done|].
      apply Hflag in Hne. congruence.
  - intros Hneeded%negb_true_iff%bool_decide_eq_false. auto.
Qed.

(** X22: when building the dependence sets finds no candidate, the memory
    checks accept the loop as it is: no runtime check, no dependence check
    and no report. *)
Theorem checkMemory_no_candidates
    (IR : IRContext) (SE : ScalarEvolution) (DL : DataLayout)
    (AA : AliasAnalysis) (Params : VectorizerParams) (TheLoop : Loop)
    (Strides : ValueToValueMap) (A A' : AccessAnalysis.t)
    (Checker : DepChecker.t) (LAI : LoopAccessInfo.t) :
  AccessAnalysis.buildDependenceSets IR AA A = Some A' ->
  AccessAnalysis.IsRTCheckNeeded A = false ->
  AccessAnalysis.CheckDeps A = ∅ ->
  AccessAnalysis.CheckDeps A' = ∅ ->
  LoopAccessInfo.checkMemory IR SE DL AA Params TheLoop Strides A Checker LAI
  = Some (LoopAccessInfo.set_CanVecMem true
            (LoopAccessInfo.set_PtrRtCheck RtCheck.empty_check LAI)).
Proof.
  intros H HRT HCD Hnone. unfold LoopAccessInfo.checkMemory. rewrite H. simpl.
  destruct (processMemAccesses_invariant IR AA A A' H HRT HCD)
    as (_ & _ & _ & Hflag & _).
  assert (Hno : AccessAnalysis.IsRTCheckNeeded A' = false).
  { destruct (AccessAnalysis.IsRTCheckNeeded A'); [|done].
    by destruct (proj1 Hflag eq_refl). }
  unfold AccessAnalysis.isRTCheckNeeded. rewrite Hno. simpl.
  unfold LoopAccessInfo.checkDependences,
    AccessAnalysis.isDependencyCheckNeeded.
  rewrite Hnone, bool_decide_eq_true_2 by done. done.
Qed.

(** ** Emitting a needed runtime check *)

Section Emission.

Context (IR : IRContext) (E : Emitter) (R : RuntimePointerCheck)
        (Ins : list NewValue).

Lemma build_emitted V e :
  emitted R Ins e -> emitted R Ins (LoopAccessInfo.build E V e).
Proof.
  unfold LoopAccessInfo.build. intros (Hpre & Hfirst & Hchk).
  destruct (builderInserts E V); [|done]. split_and!; simpl.
  - etrans; [exact Hpre|]. by apply prefix_app_r.
  - intros F. destruct (LoopAccessInfo.FirstInst e) as [F0|].
    + intros [= <-]. apply elem_of_app. left. by apply Hfirst.
    + intros [= <-]. apply elem_of_app. right. by apply list_elem_of_singleton.
  - done.
Qed.

Lemma buildCast_emitted V e :
  emitted R Ins e -> emitted R Ins (LoopAccessInfo.buildCast E V e).
Proof.
  unfold LoopAccessInfo.buildCast. intros (Hpre & Hfirst & Hchk).
  destruct (builderInserts E V); [|done]. split_and!; simpl.
  - etrans; [exact Hpre|]. by apply prefix_app_r.
  - intros F HF. apply elem_of_app. left. by apply Hfirst.
  - done.
Qed.

Lemma emitPair_emitted StartsV EndsV i j e e' :
  (i < j)%nat ->
  LoopAccessInfo.emitPair IR E R StartsV EndsV i j e = Some e' ->
  emitted R Ins e -> emitted R Ins e'.
Proof.
  unfold LoopAccessInfo.emitPair. intros Hij H Hinv.
  destruct (RtCheck.needsChecking R i j) as [[]|] eqn:Hneeds;
    [|by injection H as <-|discriminate].
  simpl in H.
  repeat match type of H with
         | context [mbind _ ?x] => destruct x; [|discriminate]; simpl in H
         end.
  destruct (negb _); [discriminate|].
  match type of H with
  | context [LoopAccessInfo.MemoryRuntimeCheck ?e1] =>
      assert (H1 : emitted R Ins e1)
        by (repeat first [apply build_emitted | apply buildCast_emitted];
            exact Hinv);
      destruct (LoopAccessInfo.MemoryRuntimeCheck e1) as [Check|]
  end.
  - injection H as <-.
    match goal with
    | |- emitted _ _ {| LoopAccessInfo.Inserted :=
                          LoopAccessInfo.Inserted ?e2 |} =>
        assert (H2 : emitted R Ins e2) by (by apply build_emitted)
    end.
    destruct H2 as (Hpre & Hfirst & _). split_and!; simpl; try done. eauto.
  - injection H as <-.
    destruct H1 as (Hpre & Hfirst & _). split_and!; simpl; try done. eauto.
Qed.

Lemma emitPairs_emitted StartsV EndsV n :
  forall e e',
  for_each
    (fun i e =>
       for_each (LoopAccessInfo.emitPair IR E R StartsV EndsV i)
                (seq (S i) (n - S i)) e)
    (seq 0 n) e = Some e' ->
  emitted R Ins e -> emitted R Ins e'.
Proof.
  intros e e' H Hinv.
  eapply (for_each_preserves _ (emitted R Ins)); [|exact H|exact Hinv].
  intros i q q' _ Hq Hinvq.
  eapply (for_each_preserves _ (emitted R Ins)); [|exact Hq|exact Hinvq].
  intros j r r' Hj. apply emitPair_emitted.
  apply elem_of_seq in Hj. lia.
Qed.

End Emission.

(** X23: a needed runtime check is emitted only when some pair of pointers of
    the descriptor needs a check (otherwise there is no conflict to combine
    and the emission does not answer); the check returned is the [and] of the
    conflicts with [true], which is the last instruction inserted, and the
    first instruction returned is one of the inserted instructions. *)
Theorem addRuntimeCheck_needed
    (IR : IRContext) (SE : ScalarEvolution) (TheLoop : Loop) (E : Emitter)
    (LAI : LoopAccessInfo.t) F C Ins :
  Need (LoopAccessInfo.PtrRtCheck LAI) = true ->
  LoopAccessInfo.addRuntimeCheck IR SE TheLoop E LAI = Some (F, C, Ins) ->
  exists Conflict First,
    C = Some (And Conflict ConstTrue) /\
    last Ins = Some (And Conflict ConstTrue) /\
    F = Some First /\ First ∈ Ins /\
    exists i j,
      (i < j)%nat /\
      RtCheck.needsChecking (LoopAccessInfo.PtrRtCheck LAI) i j = Some true.
Proof.
  unfold LoopAccessInfo.addRuntimeCheck. intros -> H. simpl in H.
  destruct (for_each _ _ _) as [[[StartsV EndsV] Ins0]|]; [|discriminate].
  simpl in H.
  destruct (for_each _ _ _) as [e|] eqn:Hpairs; [|discriminate].
  simpl in H.
  apply (emitPairs_emitted IR E (LoopAccessInfo.PtrRtCheck LAI) Ins0)
    in Hpairs as (_ & Hfirst & Hchk).
  2:{ split_and!; simpl; [done|done|]. by intros [? [=]]. }
  destruct (LoopAccessInfo.MemoryRuntimeCheck e) as [Conflict|] eqn:Hc;
    [|discriminate].
  simpl in H. injection H as <- <- <-.
  destruct (Hchk ltac:(by eexists)) as (i & j & Hij & Hneeds).
  destruct (LoopAccessInfo.FirstInst e) as [F0|] eqn:HF.
  - exists Conflict, F0. split_and!; try done.
    + by rewrite last_snoc.
    + apply elem_of_app. left. by apply Hfirst.
    + by exists i, j.
  - exists Conflict, (And Conflict ConstTrue). split_and!; try done.
    + by rewrite last_snoc.
    + apply elem_of_app. right. by apply list_elem_of_singleton.
    + by exists i, j.
Qed.

(** ** The cache of the pass *)

(** X24: the pass analyses a loop once.  A first query computes the analysis
    of the loop and caches it; every later query for the loop with as many
    symbolic strides is answered with the cached analysis, whatever the
    strides are, and leaves the cache as it is.  The entries of the other
    loops are never touched. *)
Theorem getInfo_cached
    (IR : IRContext) (SE : ScalarEvolution) (DL : DataLayout)
    (AA : AliasAnalysis) (DT : DominatorTree) (Params : VectorizerParams)
    (indet : Z) (L : Loop) (Strides : ValueToValueMap)
    (P P' : LoopAccessAnalysis.t) (LAI : LoopAccessInfo.t) :
  LoopAccessAnalysis.getInfo IR SE DL AA DT Params indet L Strides P
  = Some (LAI, P') ->
  (LoopAccessAnalysis.LoopAccessInfoMap P !! getLoopId L = None ->
   LoopAccessInfo.LoopAccessInfo IR SE DL AA DT Params L indet Strides
   = Some LAI) /\
  LoopAccessAnalysis.LoopAccessInfoMap P' !! getLoopId L
  = Some (LAI, size Strides) /\
  (forall L', getLoopId L' <> getLoopId L ->
     LoopAccessAnalysis.LoopAccessInfoMap P' !! getLoopId L'
     = LoopAccessAnalysis.LoopAccessInfoMap P !! getLoopId L') /\
  (forall indet' (Strides' : ValueToValueMap),
     size Strides' = size Strides ->
     LoopAccessAnalysis.getInfo IR SE DL AA DT Params indet' L Strides' P'
     = Some (LAI, P')) /\
  (forall indet' (Strides' : ValueToValueMap),
     size Strides' <> size Strides ->
     LoopAccessAnalysis.getInfo IR SE DL AA DT Params indet' L Strides' P'
     = None).
Proof.
  unfold LoopAccessAnalysis.getInfo. intros H.
  destruct (LoopAccessAnalysis.LoopAccessInfoMap P !! getLoopId L)
    as [[LAI0 n]|] eqn:Hlook.
  - case_bool_decide as Hn; [|discriminate]. injection H as <- <-.
    rewrite Hlook, Hn. split_and!; try done.
    + intros indet' Strides' ->. by rewrite bool_decide_eq_true_2.
    + intros indet' Strides' Hne. rewrite bool_decide_eq_false_2; [done|].
      congruence.
  - destruct (LoopAccessInfo.LoopAccessInfo _ _ _ _ _ _ _ _ _) as [LAI0|];
      [|discriminate].
    simpl in H. injection H as <- <-. simpl.
    rewrite lookup_insert_eq. split_and!; try done.
    + intros L' Hne. by rewrite lookup_insert_ne.
    + intros indet' Strides' ->. by rewrite bool_decide_eq_true_2.
    + intros indet' Strides' Hne. rewrite bool_decide_eq_false_2; [done|].
      congruence.
Qed.

(** ** The further properties on the concrete environment *)

Lemma couldPreventStoreLoadForward_result_witness :
  let D := Example.checker0 in
  let D' := DepChecker.set_MaxSafeDepDistBytes 8 Example.checker0 in
  DepChecker.couldPreventStoreLoadForward 24 4 D = Some (false, D') /\
  DepChecker.Accesses D' = DepChecker.Accesses D /\
  DepChecker.InstMap D' = DepChecker.InstMap D /\
  DepChecker.AccessIdx D' = DepChecker.AccessIdx D /\
  DepChecker.ShouldRetryWithRuntimeCheck D'
  = DepChecker.ShouldRetryWithRuntimeCheck D /\
  (false = true -> D' = D) /\
  (false = false ->
   u32 (2 * 4) <= DepChecker.MaxSafeDepDistBytes D'
   <= DepChecker.MaxSafeDepDistBytes D).
Proof.
  assert (H : DepChecker.couldPreventStoreLoadForward 24 4 Example.checker0
              = Some (false,
                      DepChecker.set_MaxSafeDepDistBytes 8 Example.checker0))
    by (vm_compute; reflexivity).
  split; [exact H|].
  exact (couldPreventStoreLoadForward_result 24 4 Example.checker0 false
           (DepChecker.set_MaxSafeDepDistBytes 8 Example.checker0) H).
Defined.

Lemma couldPreventStoreLoadForward_first_width_witness :
  exists D',
    DepChecker.couldPreventStoreLoadForward 12 4 Example.checker0
    = Some ((DepChecker.MaxSafeDepDistBytes Example.checker0 <? 2 * 4)
            || negb (12 mod (2 * 4) =? 0) && (12 / (2 * 4) <? 8 * 4), D').
Proof.
  apply (couldPreventStoreLoadForward_first_width 12 4 Example.checker0). lia.
Defined.

Lemma isDependent_zero_distance_witness :
  DepChecker.isDependent Example.IR_i32 Example.SE_dist0 Example.sizes
    defaultParams 1%positive (10%positive, false) 0 (11%positive, true) 1 ∅
    Example.checker0
  = Some (negb (bool_decide (IntegerTy 32 = IntegerTy 32)), Example.checker0).
Proof.
  apply (isDependent_zero_distance Example.IR_i32 Example.SE_dist0
           Example.sizes defaultParams 1%positive ∅ 10%positive false
           11%positive true 0 1 Example.checker0
           (IntegerTy 32) (IntegerTy 32) 0%N 1 (mkAPInt 64 0));
    try reflexivity; try done.
Defined.

Lemma isDependent_negative_distance_witness :
  let result :=
    DepChecker.isDependent Example.IR_i32 Example.SE_dist8 Example.sizes
      defaultParams 1%positive (11%positive, true) 0 (10%positive, false) 1 ∅
      Example.checker0 in
  (true && negb false = false -> result = Some (false, Example.checker0)) /\
  (true && negb false = true -> forall Prevented D',
     DepChecker.couldPreventStoreLoadForward
       (2 ^ 64 - 18446744073709551608) 4 Example.checker0
     = Some (Prevented, D') ->
     result
     = Some (Prevented || bool_decide (IntegerTy 32 <> IntegerTy 32), D')).
Proof.
  apply (isDependent_negative_distance Example.IR_i32 Example.SE_dist8
           Example.sizes defaultParams 1%positive ∅ 11%positive true
           10%positive false 0 1 Example.checker0
           (IntegerTy 32) (IntegerTy 32) 0%N 1
           (mkAPInt 64 18446744073709551608));
    try reflexivity; try done.
Defined.

Lemma isDependent_positive_bound_witness :
  let D' := DepChecker.set_MaxSafeDepDistBytes 8 Example.checker0 in
  2 * 4 <= DepChecker.MaxSafeDepDistBytes D'
        <= Z.min 8 (DepChecker.MaxSafeDepDistBytes Example.checker0) /\
  (negb false && true = false ->
   D' = DepChecker.set_MaxSafeDepDistBytes
          (Z.min 8 (DepChecker.MaxSafeDepDistBytes Example.checker0))
          Example.checker0).
Proof.
  apply (isDependent_positive_bound Example.IR_i32 Example.SE_dist8
           Example.sizes defaultParams 1%positive ∅ 10%positive false
           11%positive true 0 1 Example.checker0
           (DepChecker.set_MaxSafeDepDistBytes 8 Example.checker0)
           (IntegerTy 32) (IntegerTy 32) 0%N 1 (mkAPInt 64 8));
    try reflexivity; try done.
Defined.

Lemma areDepsSafe_result_witness :
  Example.state_dist8.1 ⊆ AccessAnalysis.CheckDeps Example.accesses1 /\
  sameLog Example.checker2 Example.state_dist8.2 /\
  (DepChecker.ShouldRetryWithRuntimeCheck Example.checker2 = true ->
   DepChecker.ShouldRetryWithRuntimeCheck Example.state_dist8.2 = true) /\
  (true = true ->
   Example.state_dist8.1 = ∅ /\
   DepChecker.ShouldRetryWithRuntimeCheck Example.state_dist8.2
   = DepChecker.ShouldRetryWithRuntimeCheck Example.checker2).
Proof.
  apply (areDepsSafe_result Example.IR_i32 Example.SE_dist8 Example.sizes
           defaultParams 1%positive
           (AccessAnalysis.DepCands Example.accesses1)
           (AccessAnalysis.CheckDeps Example.accesses1) ∅ Example.checker2
           true Example.state_dist8).
  vm_compute. reflexivity.
Defined.

Lemma addAccess_logged_witness :
  let D := DepChecker.init 0 in
  let D' := DepChecker.addAccess 20%positive 10%positive false D in
  logged D' /\
  DepChecker.AccessIdx D' = DepChecker.AccessIdx D + 1 /\
  DepChecker.InstMap D' !! Z.to_nat (DepChecker.AccessIdx D)
  = Some 20%positive /\
  DepChecker.Accesses D' !! (10%positive, false)
  = Some (default [] (DepChecker.Accesses D !! (10%positive, false))
          ++ [DepChecker.AccessIdx D]) /\
  (forall key, key <> (10%positive, false) ->
     DepChecker.Accesses D' !! key = DepChecker.Accesses D !! key).
Proof.
  apply (addAccess_logged 20%positive 10%positive false (DepChecker.init 0)).
  - apply logged_init.
  - simpl. lia.
Defined.

Lemma collectAccesses_program_order_witness :
  let insts := concat (getBlocks Example.loop2) in
  let accesses := filter (fun it => isCollected it = true) insts in
  exists s,
    LoopAccessInfo.collectAccesses Example.loop2 false (DepChecker.init 0)
      LoopAccessInfo.init = Some (false, s) /\
    LoopAccessInfo.Loads s
    = filter (fun it => isCollectedLoad it = true) insts /\
    LoopAccessInfo.Stores s
    = filter (fun it => isCollectedStore it = true) insts /\
    LoopAccessInfo.NumLoads (LoopAccessInfo.scanInfo s)
    = u32 (Z.of_nat (length (LoopAccessInfo.Loads s))) /\
    LoopAccessInfo.NumStores (LoopAccessInfo.scanInfo s)
    = u32 (Z.of_nat (length (LoopAccessInfo.Stores s))) /\
    DepChecker.InstMap (LoopAccessInfo.scanChecker s)
    = InstValue <$> accesses /\
    DepChecker.AccessIdx (LoopAccessInfo.scanChecker s)
    = Z.of_nat (length accesses) /\
    logged (LoopAccessInfo.scanChecker s).
Proof.
  apply (collectAccesses_program_order Example.loop2 false 0).
  - reflexivity.
  - vm_compute. reflexivity.
Defined.

Lemma unanalyzable_loop_rejected_witness :
  exists m,
    m ∈ shapeReports /\
    (empty Example.loop_nested = false ->
     m = "loop is not the innermost loop"%string) /\
    LoopAccessInfo.LoopAccessInfo Example.IR_i32 Example.SE_dist8
      Example.sizes Example.oneSet Example.DTall defaultParams
      Example.loop_nested 0 ∅
    = Some {| LoopAccessInfo.PtrRtCheck := RtCheck.empty_check;
              LoopAccessInfo.NumLoads := 0;
              LoopAccessInfo.NumStores := 0;
              LoopAccessInfo.MaxSafeDepDistBytes := UINT_MAX;
              LoopAccessInfo.CanVecMem := false;
              LoopAccessInfo.Report := Some (Message m) |}.
Proof.
  apply (unanalyzable_loop_rejected Example.IR_i32 Example.SE_dist8
           Example.sizes Example.oneSet Example.DTall defaultParams
           Example.loop_nested 0 ∅).
  reflexivity.
Defined.

Lemma unaccepted_instruction_rejected_witness :
  exists LAI m,
    LoopAccessInfo.LoopAccessInfo Example.IR_i32 Example.SE_dist8
      Example.sizes Example.oneSet Example.DTall defaultParams
      Example.loop_volatile 0 ∅ = Some LAI /\
    LoopAccessInfo.CanVecMem LAI = false /\
    LoopAccessInfo.Report LAI = Some (Message m) /\ m ∈ scanReports /\
    LoopAccessInfo.PtrRtCheck LAI = RtCheck.empty_check.
Proof.
  apply (unaccepted_instruction_rejected Example.IR_i32 Example.SE_dist8
           Example.sizes Example.oneSet Example.DTall defaultParams
           Example.loop_volatile 0 ∅); reflexivity.
Defined.

Lemma loop_without_stores_accepted_witness :
  LoopAccessInfo.LoopAccessInfo Example.IR_i32 Example.SE_dist8
    Example.sizes Example.oneSet Example.DTall defaultParams
    Example.loop_loads 0 ∅
  = Some {| LoopAccessInfo.PtrRtCheck := RtCheck.empty_check;
            LoopAccessInfo.NumLoads :=
              u32 (Z.of_nat
                     (length (filter (fun it => isCollectedLoad it = true)
                                (concat (getBlocks Example.loop_loads)))));
            LoopAccessInfo.NumStores := 0;
            LoopAccessInfo.MaxSafeDepDistBytes := UINT_MAX;
            LoopAccessInfo.CanVecMem := true;
            LoopAccessInfo.Report := None |}.
Proof.
  apply (loop_without_stores_accepted Example.IR_i32 Example.SE_dist8
           Example.sizes Example.oneSet Example.DTall defaultParams
           Example.loop_loads 0 ∅); reflexivity.
Defined.

Lemma uniform_store_rejected_witness :
  exists LAI,
    LoopAccessInfo.LoopAccessInfo Example.IR_i32 Example.SE_uniform
      Example.sizes Example.oneSet Example.DTall defaultParams
      Example.loop_uniform_store 0 ∅ = Some LAI /\
    LoopAccessInfo.CanVecMem LAI = false /\
    LoopAccessInfo.Report LAI
    = Some (Message
              "write to a loop invariant address could not be vectorized") /\
    LoopAccessInfo.PtrRtCheck LAI = RtCheck.empty_check.
Proof.
  apply (uniform_store_rejected Example.IR_i32 Example.SE_uniform
           Example.sizes Example.oneSet Example.DTall defaultParams
           Example.loop_uniform_store 0 ∅); reflexivity.
Defined.

Lemma single_store_pointer_accepted_witness :
  exists LAI,
    LoopAccessInfo.LoopAccessInfo Example.IR_i32 Example.SE_dist8
      Example.sizes Example.oneSet Example.DTall defaultParams
      Example.loop_one_store 0 ∅ = Some LAI /\
    LoopAccessInfo.CanVecMem LAI = true /\
    LoopAccessInfo.Report LAI = None /\
    LoopAccessInfo.PtrRtCheck LAI = RtCheck.empty_check.
Proof.
  apply (single_store_pointer_accepted Example.IR_i32 Example.SE_dist8
           Example.sizes Example.oneSet Example.DTall defaultParams
           Example.loop_one_store 0 ∅ 11%positive); try reflexivity.
  vm_compute. repeat constructor.
Defined.

Lemma analysis_decided_witness : decided Example.analysed_dist8.
Proof.
  apply (analysis_decided Example.IR_i32 Example.SE_dist8 Example.sizes
           Example.oneSet Example.DTall defaultParams Example.loop2 0 ∅
           Example.analysed_dist8).
  vm_compute. reflexivity.
Defined.


Lemma needsChecking_symmetric_witness :
  is_Some (RtCheck.needsChecking Example.descriptor3 0 1) /\
  RtCheck.needsChecking Example.descriptor3 0 1
  = RtCheck.needsChecking Example.descriptor3 1 0 /\
  RtCheck.needsChecking Example.descriptor3 0 0 = Some false.
Proof.
  apply (needsChecking_symmetric Example.descriptor3 0 1).
  - repeat split.
  - simpl. lia.
  - simpl. lia.
Defined.

Lemma strided_pointer_checkable_witness :
  hasComputableBounds Example.IR_i32 Example.SE_dist8 ∅ 10%positive = true /\
  is_Some (RtCheck.insert Example.IR_i32 Example.SE_dist8 1%positive
             10%positive false 1 1 ∅ RtCheck.empty_check) /\
  exists Start C ARLoop Flags,
    replaceSymbolicStrideSCEV Example.IR_i32 Example.SE_dist8 ∅ 10%positive
      None
    = SCEVAddRecExpr [Start; SCEVConstant C] ARLoop Flags /\
    let Size := s64 (getTypeAllocSize Example.sizes (IntegerTy 32)) in
    let StepVal := AP.getSExtValue C in
    Size <> 0 /\ 1 = s32 (Z.quot StepVal Size) /\
    (- 2 ^ 31 <= Z.quot StepVal Size < 2 ^ 31 -> StepVal = 1 * Size).
Proof.
  apply (strided_pointer_checkable Example.IR_i32 Example.SE_dist8
           Example.sizes 10%positive 1%positive ∅ 1 false 1 1
           RtCheck.empty_check (IntegerTy 32) 0%N).
  - reflexivity.
  - lia.
  - reflexivity.
Defined.


Lemma canCheckPtrAtRT_address_spaces_witness :
  let R := Example.retry_two_bases.1.2 in
  exists PtrI PtrJ TI TJ AS,
    Pointers R !! 0%nat = Some PtrI /\ Pointers R !! 1%nat = Some PtrJ /\
    getType Example.IR_i32 PtrI = PointerTy TI AS /\
    getType Example.IR_i32 PtrJ = PointerTy TJ AS.
Proof.
  apply (canCheckPtrAtRT_address_spaces Example.IR_i32 Example.SE_two_bases
           Example.sizes Example.oneSet
           (AccessAnalysis.resetDepChecks Example.accesses1)
           (RtCheck.set_Need true RtCheck.empty_check) 1%positive ∅ true
           Example.retry_two_bases.1.2 Example.retry_two_bases.2 0 1).
  - vm_compute. reflexivity.
  - repeat split.
  - lia.
  - vm_compute. reflexivity.
Defined.

Lemma retryWithRuntimeCheck_result_witness :
  let LAI' := Example.retried_two_bases in
  let R := LoopAccessInfo.PtrRtCheck LAI' in
  (LoopAccessInfo.CanVecMem LAI' = true ->
   Need R = true /\ RtCheck.wf R /\
   Pointers R
   = concat (aliasSets Example.oneSet
               (AccessAnalysis.AST Example.accesses1)) /\
   IsWritePtr R = isWritten Example.accesses1 <$> Pointers R /\
   Forall (fun Ptr =>
             isStridedPtr Example.IR_i32 Example.SE_two_bases Example.sizes
               Ptr (getLoopId Example.loop2) ∅ = Some 1)
          (Pointers R) /\
   LoopAccessInfo.Report LAI' = LoopAccessInfo.Report LoopAccessInfo.init) /\
  (LoopAccessInfo.CanVecMem LAI' = false ->
   R = RtCheck.empty_check /\ is_Some (LoopAccessInfo.Report LAI')).
Proof.
  apply (retryWithRuntimeCheck_result Example.IR_i32 Example.SE_two_bases
           Example.sizes Example.oneSet defaultParams Example.loop2 ∅
           Example.accesses1 LoopAccessInfo.init Example.retried_two_bases).
  vm_compute. reflexivity.
Defined.

Lemma processMemAccesses_candidates_witness :
  let A := Example.accesses0 in
  let A' := Example.accesses1 in
  AccessAnalysis.Accesses A' = AccessAnalysis.Accesses A /\
  AccessAnalysis.ReadOnlyPtr A' = AccessAnalysis.ReadOnlyPtr A /\
  AccessAnalysis.AST A' = AccessAnalysis.AST A /\
  AccessAnalysis.isRTCheckNeeded A'
  = AccessAnalysis.isDependencyCheckNeeded A' /\
  (forall Ptr W, (Ptr, W) ∈ AccessAnalysis.CheckDeps A' ->
     (Ptr, W) ∈ AccessAnalysis.Accesses A /\
     (W = true \/ Ptr ∈ AccessAnalysis.ReadOnlyPtr A)) /\
  (AccessAnalysis.isDependencyCheckNeeded A' = true ->
   exists Q, (Q, true) ∈ AccessAnalysis.Accesses A).
Proof.
  apply (processMemAccesses_candidates Example.IR_i32 Example.oneSet
           Example.accesses0 Example.accesses1).
  - vm_compute. reflexivity.
  - reflexivity.
  - reflexivity.
Defined.

Lemma checkMemory_no_candidates_witness :
  LoopAccessInfo.checkMemory Example.IR_i32 Example.SE_dist8 Example.sizes
    Example.oneSet defaultParams Example.loop2 ∅ Example.accesses_one_pointer
    Example.checker2 LoopAccessInfo.init
  = Some (LoopAccessInfo.set_CanVecMem true
            (LoopAccessInfo.set_PtrRtCheck RtCheck.empty_check
               LoopAccessInfo.init)).
Proof.
  apply (checkMemory_no_candidates Example.IR_i32 Example.SE_dist8
           Example.sizes Example.oneSet defaultParams Example.loop2 ∅
           Example.accesses_one_pointer Example.candidates_one_pointer
           Example.checker2 LoopAccessInfo.init).
  - vm_compute. reflexivity.
  - reflexivity.
  - reflexivity.
  - vm_compute. reflexivity.
Defined.

Lemma addRuntimeCheck_needed_witness :
  exists Conflict First,
    Example.emitted_two_bases.1.2 = Some (And Conflict ConstTrue) /\
    last Example.emitted_two_bases.2 = Some (And Conflict ConstTrue) /\
    Example.emitted_two_bases.1.1 = Some First /\
    First ∈ Example.emitted_two_bases.2 /\
    exists i j,
      (i < j)%nat /\
      RtCheck.needsChecking
        (LoopAccessInfo.PtrRtCheck Example.analysed_two_bases) i j
      = Some true.
Proof.
  apply (addRuntimeCheck_needed Example.IR_i32 Example.SE_two_bases
           Example.loop2 Example.emitAll Example.analysed_two_bases
           Example.emitted_two_bases.1.1 Example.emitted_two_bases.1.2
           Example.emitted_two_bases.2).
  - vm_compute. reflexivity.
  - vm_compute. reflexivity.
Defined.

Lemma getInfo_cached_witness :
  let P := Example.pass0 in
  let P' := Example.pass1 in
  let LAI := Example.analysed_dist8 in
  let L := Example.loop2 in
  (LoopAccessAnalysis.LoopAccessInfoMap P !! getLoopId L = None ->
   LoopAccessInfo.LoopAccessInfo Example.IR_i32 Example.SE_dist8 Example.sizes
     Example.oneSet Example.DTall defaultParams L 0 ∅ = Some LAI) /\
  LoopAccessAnalysis.LoopAccessInfoMap P' !! getLoopId L
  = Some (LAI, size (∅ : ValueToValueMap)) /\
  (forall L', getLoopId L' <> getLoopId L ->
     LoopAccessAnalysis.LoopAccessInfoMap P' !! getLoopId L'
     = LoopAccessAnalysis.LoopAccessInfoMap P !! getLoopId L') /\
  (forall indet' (Strides' : ValueToValueMap),
     size Strides' = size (∅ : ValueToValueMap) ->
     LoopAccessAnalysis.getInfo Example.IR_i32 Example.SE_dist8 Example.sizes
       Example.oneSet Example.DTall defaultParams indet' L Strides' P'
     = Some (LAI, P')) /\
  (forall indet' (Strides' : ValueToValueMap),
     size Strides' <> size (∅ : ValueToValueMap) ->
     LoopAccessAnalysis.getInfo Example.IR_i32 Example.SE_dist8 Example.sizes
       Example.oneSet Example.DTall defaultParams indet' L Strides' P'
     = None).
Proof.
  apply (getInfo_cached Example.IR_i32 Example.SE_dist8 Example.sizes
           Example.oneSet Example.DTall defaultParams 0 Example.loop2 ∅
           Example.pass0 Example.pass1 Example.analysed_dist8).
  vm_compute. reflexivity.
Defined.
